(** * webgl-classes: Camera, Shader, Mesh and Texture

    A shallow embedding of the four classes of the repository
    (src/Shader.js holds Shader and Mesh, src/Texture.js holds Texture,
    the third file holds Camera) and the properties of them that the
    specification states.

    Modelling conventions.
    - A JavaScript number is NaN, one of the two infinities, or an
      exact rational; the sign of zero is outside the model.  The
      arithmetic of a double is written without its rounding.  The
      rounding of a Float32Array is [Js.fround]: it is applied where
      the repository's own code fills such an array ([Mesh.getVertex],
      [Mesh.getSize], the buffers of [Mesh.generateBuffers]).  The
      gl-matrix functions and [parseFloat] compute with exact numbers:
      a theorem that gives the value they leave in a typed array, or
      the value read from a text, is stated for numbers of the binary32
      format ([Js.is_float32]), on which the rounding is the identity,
      or through the library's own function on both sides.
    - Integers that the code uses as array indices (the entries of
      [Mesh.faces]) are a NaN or an exact integer.  [parseInt] is exact
      up to 2^53 ([Js.is_safe_index]); theorems that give the integer
      read from a text are stated up to that bound.
    - gl-matrix, the DOM, the WebGL context, [Image] and [Promise] are
      not part of the repository.  gl-matrix functions are written out
      from the library; what the host decides (whether a shader compiles,
      which image loads, the value of a square root) is a parameter.
    - The objects a Camera holds are typed arrays that its methods
      overwrite in place and that a caller may pass back in; they live
      in a store of locations, so that two names of one array are one
      location.
    - A typed array is created with the length of the array it copies;
      whether the host can create it is a parameter [can_allocate], and
      [Mesh.fromObj_returns] says whether [Mesh.fromObj] runs to its
      end.  A plain array assigned beyond its end grows; [Heap.wr]
      writes within the array, which is all that the fixed-length
      arrays of a Camera allow.  A context that is lost is outside the
      model. *)

From Stdlib Require Import ZArith QArith Qcanon Qround Qpower String Ascii List Lia Bool Lqa.
From Stdlib Require Import DecimalString DecimalNat.
From stdpp Require Import base option list strings gmap.
Import ListNotations.

Set Default Proof Using "Type".
Local Open Scope Z_scope.

(* ===================================================================== *)
(** * JavaScript values                                                   *)
(* ===================================================================== *)

Module Js.

(** ** Numbers *)

Inductive number : Type :=
  | NaN
  | PInf
  | NInf
  | Fin (q : Qc).

Definition qsign (q : Qc) : comparison := (q ?= 0)%Qc.

Definition of_Z (z : Z) : number := Fin (Q2Qc (inject_Z z)).
Definition of_nat (n : nat) : number := of_Z (Z.of_nat n).

Definition zero : number := Fin 0%Qc.
Definition one : number := Fin 1%Qc.
Definition half : number := Fin (Q2Qc (1 # 2)).

Definition neg (x : number) : number :=
  match x with
  | NaN => NaN
  | PInf => NInf
  | NInf => PInf
  | Fin q => Fin (- q)%Qc
  end.

Definition add (x y : number) : number :=
  match x, y with
  | NaN, _ | _, NaN => NaN
  | PInf, NInf | NInf, PInf => NaN
  | PInf, _ | _, PInf => PInf
  | NInf, _ | _, NInf => NInf
  | Fin a, Fin b => Fin (a + b)%Qc
  end.

Definition sub (x y : number) : number := add x (neg y).

(** An infinity of sign [pos] times a finite [q]. *)
Definition inf_times (pos : bool) (q : Qc) : number :=
  match qsign q with
  | Eq => NaN
  | Gt => if pos then PInf else NInf
  | Lt => if pos then NInf else PInf
  end.

Definition mul (x y : number) : number :=
  match x, y with
  | NaN, _ | _, NaN => NaN
  | PInf, PInf | NInf, NInf => PInf
  | PInf, NInf | NInf, PInf => NInf
  | PInf, Fin q | Fin q, PInf => inf_times true q
  | NInf, Fin q | Fin q, NInf => inf_times false q
  | Fin a, Fin b => Fin (a * b)%Qc
  end.

Definition div (x y : number) : number :=
  match x, y with
  | NaN, _ | _, NaN => NaN
  | (PInf | NInf), (PInf | NInf) => NaN
  | PInf, Fin q => match qsign q with Lt => NInf | _ => PInf end
  | NInf, Fin q => match qsign q with Lt => PInf | _ => NInf end
  | Fin _, (PInf | NInf) => zero
  | Fin a, Fin b =>
      match qsign b with
      | Eq => match qsign a with Eq => NaN | Gt => PInf | Lt => NInf end
      | _ => Fin (a / b)%Qc
      end
  end.

(** [x < y]; every comparison with NaN is false. *)
Definition lt (x y : number) : bool :=
  match x, y with
  | NaN, _ | _, NaN => false
  | _, NInf => false
  | NInf, _ => true
  | PInf, _ => false
  | _, PInf => true
  | Fin a, Fin b => match (a ?= b)%Qc with Lt => true | _ => false end
  end.

(** [x > y] is [y < x]. *)
Definition gt (x y : number) : bool := lt y x.

Definition abs (x : number) : number :=
  match x with
  | NaN => NaN
  | PInf | NInf => PInf
  | Fin q => match qsign q with Lt => Fin (- q)%Qc | _ => x end
  end.

(** ToBoolean on a number: 0 and NaN are falsy. *)
Definition truthy (x : number) : bool :=
  match x with
  | NaN => false
  | Fin q => match qsign q with Eq => false | _ => true end
  | _ => true
  end.

Definition is_nan (x : number) : bool :=
  match x with NaN => true | _ => false end.

Definition is_finite (x : number) : bool :=
  match x with Fin _ => true | _ => false end.

Definition number_eqb (x y : number) : bool :=
  match x, y with
  | NaN, NaN | PInf, PInf | NInf, NInf => true
  | Fin a, Fin b => Qc_eq_bool a b
  | _, _ => false
  end.

(** ** Numbers of the binary32 format

    A Float32Array holds numbers of the binary32 format; a number stored
    in one is rounded to the nearest of them, ties to the even
    significand, as by [Math.fround]. *)

Definition two_to (e : Z) : Q := ((2 # 1) ^ e)%Q.

(** The exponent of a positive rational: the [e] with
    2^e <= q < 2^(e+1). *)
Definition exponent (q : Q) : Z :=
  let d := Z.log2 (Qnum q) - Z.log2 (Zpos (Qden q)) in
  if Qle_bool (two_to d) q then d else d - 1.

Definition round_half_even (q : Q) : Z :=
  let f := Qfloor q in
  match (q - inject_Z f ?= 1 # 2)%Q with
  | Lt => f
  | Gt => f + 1
  | Eq => if Z.even f then f else f + 1
  end.

(** A positive rational rounded to [prec] significant bits, the
    exponent being at least [emin]; what reaches 2^[emax] is infinite. *)
Definition round_positive (prec emin emax : Z) (q : Q) : number :=
  let e := Z.max (exponent q) emin in
  let ulp := two_to (e - prec + 1) in
  let r := (inject_Z (round_half_even (q / ulp)) * ulp)%Q in
  if Qle_bool (two_to emax) r then PInf else Fin (Q2Qc r).

Definition round_to (prec emin emax : Z) (x : number) : number :=
  match x with
  | Fin q =>
      match qsign q with
      | Eq => x
      | Gt => round_positive prec emin emax q
      | Lt => neg (round_positive prec emin emax (- q))
      end
  | _ => x
  end.

(** [Math.fround(x)], and the conversion that a store into a
    Float32Array applies. *)
Definition fround : number -> number := round_to 24 (-126) 128.

(** [x] is a number of the binary32 format: storing it changes nothing. *)
Definition is_float32 (x : number) : bool := number_eqb (fround x) x.

(** ** Integers used as indices *)

Inductive jsint : Type :=
  | INaN
  | Int (z : Z).

Definition iadd (x y : jsint) : jsint :=
  match x, y with
  | Int a, Int b => Int (a + b)
  | _, _ => INaN
  end.

Definition isub (x y : jsint) : jsint :=
  match x, y with
  | Int a, Int b => Int (a - b)
  | _, _ => INaN
  end.

Definition imul (x y : jsint) : jsint :=
  match x, y with
  | Int a, Int b => Int (a * b)
  | _, _ => INaN
  end.

(** The indices that the text of a mesh can name exactly: a double
    holds every integer up to 2^53, and the integer one below it. *)
Definition is_safe_index (a : nat) : bool := Z.of_nat a <=? 9007199254740992.

(** ** Arrays of numbers

    An element that is absent (a hole, or an index past the end) reads as
    [undefined]; every read in these classes is followed by an arithmetic
    operation, a comparison or a store into a typed array, which all turn
    [undefined] into NaN, so an absent element is read as [NaN]. *)

(** The largest array index is 2^32 - 2. *)
Definition is_array_index (z : Z) : bool := (0 <=? z) && (z <? 4294967295).

Definition arr_get (l : list number) (k : jsint) : number :=
  match k with
  | Int z => if 0 <=? z then default NaN (l !! Z.to_nat z) else NaN
  | INaN => NaN
  end.

(** [a[k] = x].  An index past the end extends the array, the elements in
    between being holes.  A key that is not an array index (a negative
    number, NaN) names an ordinary property: the elements and the length
    are unchanged. *)
Definition arr_set (l : list number) (k : jsint) (x : number) : list number :=
  match k with
  | Int z =>
      if is_array_index z then
        let i := Z.to_nat z in
        if (i <? length l)%nat then <[i := x]> l
        else l ++ replicate (i - length l) NaN ++ [x]
      else l
  | INaN => l
  end.

Definition int_get (l : list jsint) (k : nat) : jsint := default INaN (l !! k).

(** ** Strings *)

Definition is_space (c : ascii) : bool := Ascii.eqb c " "%char.

(** [split_on sep in_sep s] cuts [s] at every maximal run of characters
    satisfying [sep] when [runs] is true, and at every such character
    when it is false; [in_sep] tells that the previous character was a
    separator. *)
Fixpoint split_on (sep : ascii -> bool) (runs in_sep : bool) (s : string)
  : list string :=
  match s with
  | EmptyString => [EmptyString]
  | String c s' =>
      if sep c then
        if runs && in_sep then split_on sep runs true s'
        else EmptyString :: split_on sep runs true s'
      else
        match split_on sep runs false s' with
        | tok :: toks => String c tok :: toks
        | [] => [String c EmptyString]
        end
  end.

(** [s.split("\n")] *)
Definition split_lines (s : string) : list string :=
  split_on (fun c => Ascii.eqb c "010"%char) false false s.

(** [s.split(/ +/)] *)
Definition split_spaces (s : string) : list string :=
  split_on is_space true false s.

(** [s[0]] *)
Definition first_char (s : string) : option ascii :=
  match s with
  | EmptyString => None
  | String c _ => Some c
  end.

(** ** parseInt and parseFloat

    Both take the token that was read out of the array of tokens; a
    missing token is [undefined], which they convert to the string
    ["undefined"]. *)

Definition to_string_arg (tok : option string) : string :=
  default "undefined"%string tok.

(** White space and line terminators among the first 256 code units. *)
Definition is_white (c : ascii) : bool :=
  let n := nat_of_ascii c in
  ((9 <=? n) && (n <=? 13))%nat || (n =? 32)%nat || (n =? 160)%nat.

Fixpoint trim_left (s : string) : string :=
  match s with
  | String c s' => if is_white c then trim_left s' else s
  | EmptyString => s
  end.

(** The sign of a numeral and what follows it. *)
Definition read_sign (s : string) : bool * string :=
  match s with
  | String "-"%char s' => (true, s')
  | String "+"%char s' => (false, s')
  | _ => (false, s)
  end.

Definition digit_val (radix : Z) (c : ascii) : option Z :=
  let n := Z.of_nat (nat_of_ascii c) in
  let v :=
    if (48 <=? n) && (n <=? 57) then Some (n - 48)
    else if (97 <=? n) && (n <=? 122) then Some (n - 87)
    else if (65 <=? n) && (n <=? 90) then Some (n - 55)
    else None in
  match v with
  | Some d => if d <? radix then Some d else None
  | None => None
  end.

(** The value of the longest prefix of digits; [acc] is [None] as long as
    no digit was read. *)
Fixpoint parse_digits (radix : Z) (acc : option Z) (s : string) : option Z :=
  match s with
  | EmptyString => acc
  | String c s' =>
      match digit_val radix c with
      | Some d => parse_digits radix (Some (default 0 acc * radix + d)) s'
      | None => acc
      end
  end.

Definition strip_hex (s : string) : option string :=
  match s with
  | String "0"%char (String "x"%char s') => Some s'
  | String "0"%char (String "X"%char s') => Some s'
  | _ => None
  end.

(** [parseInt(tok)], no radix given.  The integer is the one the
    digits write; the double that JavaScript returns is that integer
    when it is at most 2^53 in size ([is_safe_index]), and the nearest
    double beyond. *)
Definition parseInt (tok : option string) : jsint :=
  let (negative, s) := read_sign (trim_left (to_string_arg tok)) in
  let digits :=
    match strip_hex s with
    | Some s' => parse_digits 16 None s'
    | None => parse_digits 10 None s
    end in
  match digits with
  | Some v => Int (if negative then - v else v)
  | None => INaN
  end.

(** Decimal digits at the head of [s]: their value on top of [acc], how
    many there are on top of [n], and the rest of the string. *)
Fixpoint read_decimal (acc : Z) (n : nat) (s : string) : Z * nat * string :=
  match s with
  | EmptyString => (acc, n, s)
  | String c s' =>
      match digit_val 10 c with
      | Some d => read_decimal (acc * 10 + d) (S n) s'
      | None => (acc, n, s)
      end
  end.

(** The exponent part at the head of [s], 0 when there is none. *)
Definition read_exponent (s : string) : Z :=
  match s with
  | String c s' =>
      if Ascii.eqb c "e"%char || Ascii.eqb c "E"%char then
        let (negative, s'') := read_sign s' in
        match read_decimal 0 0 s'' with
        | (_, O, _) => 0
        | (e, _, _) => if negative then - e else e
        end
      else 0
  | EmptyString => 0
  end.

Definition starts_with_Infinity (s : string) : bool :=
  String.eqb (substring 0 8 s) "Infinity"%string.

(** The digits of a decimal literal at the head of [s], the point
    dropped: their value, how many follow the point, and the rest of the
    string; [None] when there is no digit before or after the point. *)
Definition read_mantissa (s : string) : option (Z * nat * string) :=
  let '(ip, ni, s1) := read_decimal 0 0 s in
  let '(mant, nf, s2) :=
    match s1 with
    | String c s1' =>
        if Ascii.eqb c "."%char then read_decimal ip 0 s1' else (ip, O, s1)
    | EmptyString => (ip, O, s1)
    end in
  if ((ni =? 0) && (nf =? 0))%nat then None else Some (mant, nf, s2).

(** [parseFloat(tok)]: the value of the longest prefix that is a decimal
    literal, NaN when there is none.  The number is the one the literal
    writes; the double that JavaScript returns is the nearest to it,
    which is that number whenever a double, or a float32
    ([is_float32]), can hold it. *)
Definition parseFloat (tok : option string) : number :=
  let (negative, s) := read_sign (trim_left (to_string_arg tok)) in
  if starts_with_Infinity s then (if negative then NInf else PInf)
  else
    match read_mantissa s with
    | None => NaN
    | Some (mant, nf, s2) =>
        let e := read_exponent s2 - Z.of_nat nf in
        let m := if negative then - mant else mant in
        Fin (Q2Qc (inject_Z m * (10 # 1) ^ e))
    end.

End Js.

Import Js.

(* ===================================================================== *)
(** * What the page can observe                                           *)
(* ===================================================================== *)

(** The two channels on which the classes report: [alert] and
    [console.log]. *)
Inductive report : Type :=
  | Alert (msg : string)
  | ConsoleLog (msg : string).

(* ===================================================================== *)
(** * gl-matrix, vectors as values                                        *)
(* ===================================================================== *)

(** A [vec3] that no other name refers to: the temporaries of [Mesh].
    The operations give the numbers computed; [float32] gives what the
    Float32Array holds once they are stored in it. *)
Module Vec3.

Record vec3 : Type := mk { x : number; y : number; z : number }.

(** [v[j]] *)
Definition get (v : vec3) (j : nat) : number :=
  match j with
  | 0%nat => x v
  | 1%nat => y v
  | 2%nat => z v
  | _ => NaN
  end.

(** The three numbers handed to [vec3.fromValues(x, y, z)]. *)
Definition fromValues (a b c : number) : vec3 := mk a b c.

(** A vector stored in a Float32Array. *)
Definition float32 (v : vec3) : vec3 := mk (fround (x v)) (fround (y v)) (fround (z v)).

(** [vec3.subtract(out, a, b)], [out] fresh *)
Definition subtract (a b : vec3) : vec3 :=
  mk (sub (x a) (x b)) (sub (y a) (y b)) (sub (z a) (z b)).

(** [vec3.add(out, a, b)], [out] fresh *)
Definition add (a b : vec3) : vec3 :=
  mk (Js.add (x a) (x b)) (Js.add (y a) (y b)) (Js.add (z a) (z b)).

(** [vec3.cross(out, a, b)], [out] fresh *)
Definition cross (a b : vec3) : vec3 :=
  mk (sub (mul (y a) (z b)) (mul (z a) (y b)))
     (sub (mul (z a) (x b)) (mul (x a) (z b)))
     (sub (mul (x a) (y b)) (mul (y a) (x b))).

Definition to_list (v : vec3) : list number := [x v; y v; z v].

End Vec3.

(* ===================================================================== *)
(** * Mesh (src/Shader.js, second part)                                   *)
(* ===================================================================== *)

Module Mesh.

Import Vec3.

(** A WebGL buffer as [generateBuffers] leaves it: [numItems] and the
    typed array that was uploaded, a Float32Array or a Uint32Array. *)
Record buffer (A : Type) : Type := mkBuffer { numItems : nat; uploaded : list A }.
Arguments mkBuffer {A} _ _.
Arguments numItems {A} _.
Arguments uploaded {A} _.

Record t : Type := mkMesh {
  vertices : list number;
  faces : list jsint;
  normals : list number;
  numFaces : nat;
  numVertices : nat;
  minXYZ : list number;
  maxXYZ : list number;
  (** absent until [generateNormals] sets it; nothing reads it before *)
  numNormals : nat;
  vertexBuffer : option (buffer number);
  normalBuffer : option (buffer number);
  indexBuffer : option (buffer Z)
}.

Definition set_vertices (m : t) (v : list number) : t :=
  mkMesh v (faces m) (normals m) (numFaces m) (numVertices m) (minXYZ m)
         (maxXYZ m) (numNormals m) (vertexBuffer m) (normalBuffer m) (indexBuffer m).
Definition set_faces (m : t) (f : list jsint) : t :=
  mkMesh (vertices m) f (normals m) (numFaces m) (numVertices m) (minXYZ m)
         (maxXYZ m) (numNormals m) (vertexBuffer m) (normalBuffer m) (indexBuffer m).
Definition set_normals (m : t) (n : list number) : t :=
  mkMesh (vertices m) (faces m) n (numFaces m) (numVertices m) (minXYZ m)
         (maxXYZ m) (numNormals m) (vertexBuffer m) (normalBuffer m) (indexBuffer m).
Definition set_numFaces (m : t) (n : nat) : t :=
  mkMesh (vertices m) (faces m) (normals m) n (numVertices m) (minXYZ m)
         (maxXYZ m) (numNormals m) (vertexBuffer m) (normalBuffer m) (indexBuffer m).
Definition set_numVertices (m : t) (n : nat) : t :=
  mkMesh (vertices m) (faces m) (normals m) (numFaces m) n (minXYZ m)
         (maxXYZ m) (numNormals m) (vertexBuffer m) (normalBuffer m) (indexBuffer m).
Definition set_minXYZ (m : t) (v : list number) : t :=
  mkMesh (vertices m) (faces m) (normals m) (numFaces m) (numVertices m) v
         (maxXYZ m) (numNormals m) (vertexBuffer m) (normalBuffer m) (indexBuffer m).
Definition set_maxXYZ (m : t) (v : list number) : t :=
  mkMesh (vertices m) (faces m) (normals m) (numFaces m) (numVertices m) (minXYZ m)
         v (numNormals m) (vertexBuffer m) (normalBuffer m) (indexBuffer m).
Definition set_numNormals (m : t) (n : nat) : t :=
  mkMesh (vertices m) (faces m) (normals m) (numFaces m) (numVertices m) (minXYZ m)
         (maxXYZ m) n (vertexBuffer m) (normalBuffer m) (indexBuffer m).

(** [new Mesh()].  The constructor asks the context for the
    OES_element_index_uint extension and alerts when it is missing;
    [ext] tells whether [gl.getExtension] returned it. *)
Definition unsupported_msg : string :=
  "OES_element_index_uint is unsupported by your browser!".

Definition constructor (ext : bool) : t * list report :=
  (mkMesh [] [] [] 0 0 [zero; zero; zero] [zero; zero; zero] 0 None None None,
   if ext then [] else [Alert unsupported_msg]).

(** ** computeAABB *)

(** The body of the inner loop, for the vertex that starts at [i] and the
    axis [j]. *)
Definition aabb_axis (i : nat) (m : t) (j : nat) : t :=
  let v := arr_get (vertices m) (Int (Z.of_nat (i + j))) in
  let m1 :=
    if lt v (arr_get (minXYZ m) (Int (Z.of_nat j)))
    then set_minXYZ m (arr_set (minXYZ m) (Int (Z.of_nat j)) v)
    else m in
  if gt v (arr_get (maxXYZ m1) (Int (Z.of_nat j)))
  then set_maxXYZ m1 (arr_set (maxXYZ m1) (Int (Z.of_nat j)) v)
  else m1.

Definition aabb_vertex (m : t) (i : nat) : t :=
  foldl (aabb_axis i) m [0; 1; 2]%nat.

(** The values [i] takes: 0, 3, 6, ... below [n]. *)
Definition steps_of_3 (n : nat) : list nat :=
  map (fun k => (3 * k)%nat) (seq 0 ((n + 2) / 3)).

Definition computeAABB (m : t) : t :=
  foldl aabb_vertex m (steps_of_3 (length (vertices m))).

(** ** getVertex *)

(** The vector returned is a Float32Array. *)
Definition getVertex (m : t) (id : jsint) : vec3 :=
  let vid := imul (Int 3) id in
  float32 (fromValues (arr_get (vertices m) (iadd vid (Int 0)))
                      (arr_get (vertices m) (iadd vid (Int 1)))
                      (arr_get (vertices m) (iadd vid (Int 2)))).

(** ** generateNormals *)

Section GenerateNormals.

(** [vec3.normalize(n, n)]: what [n] holds afterwards, as a function of
    what it held before.  gl-matrix scales a vector of positive length
    by the inverse of its length. *)
Variable normalize : vec3 -> vec3.

(** [a[k] += x] *)
Definition add_at (a : list number) (k : jsint) (x : number) : list number :=
  arr_set a k (Js.add (arr_get a k) x).

(** The unnormalised normal of the face whose corners are [v1 v2 v3]. *)
Definition face_normal (m : t) (v1 v2 v3 : jsint) : vec3 :=
  let v1Vec := getVertex m v1 in
  let v2Vec := getVertex m v2 in
  let v3Vec := getVertex m v3 in
  let e1 := subtract v2Vec v1Vec in
  let e2 := subtract v3Vec v1Vec in
  cross e1 e2.

(** The accumulation loop over [j] for one face. *)
Definition accumulate_axis (v1 v2 v3 : jsint) (n : vec3)
    (a : list number) (j : nat) : list number :=
  let jj := Int (Z.of_nat j) in
  let a1 := add_at a (iadd (imul (Int 3) v1) jj) (get n j) in
  let a2 := add_at a1 (iadd (imul (Int 3) v2) jj) (get n j) in
  add_at a2 (iadd (imul (Int 3) v3) jj) (get n j).

(** The body of the loop over the faces. *)
Definition accumulate_face (m : t) (a : list number) (i : nat) : list number :=
  let v1 := int_get (faces m) (3 * i) in
  let v2 := int_get (faces m) (3 * i + 1) in
  let v3 := int_get (faces m) (3 * i + 2) in
  let n := face_normal m v1 v2 v3 in
  foldl (accumulate_axis v1 v2 v3 n) a [0; 1; 2]%nat.

(** The body of the last loop: normalise the vector of vertex [i]. *)
Definition normalize_vertex (a : list number) (i : nat) : list number :=
  let k := Z.of_nat (3 * i) in
  let n := normalize (fromValues (arr_get a (Int k))
                                 (arr_get a (Int (k + 1)))
                                 (arr_get a (Int (k + 2)))) in
  let a1 := arr_set a (Int k) (get n 0) in
  let a2 := arr_set a1 (Int (k + 1)) (get n 1) in
  arr_set a2 (Int (k + 2)) (get n 2).

(** [new Array(n)] followed by the loop that fills it with zeros; the
    other two loops follow.  [new Array] accepts a length below 2^32,
    which the statements about this function assume. *)
Definition generateNormals (m : t) : t :=
  let m := set_numNormals m (numVertices m) in
  let zeros := replicate (numNormals m * 3) zero in
  let acc := foldl (accumulate_face m) zeros (seq 0 (numFaces m)) in
  set_normals m (foldl normalize_vertex acc (seq 0 (numNormals m))).

End GenerateNormals.

(** ** generateBuffers *)

(** The conversion [new Uint32Array(faces)] applies to each element. *)
Definition to_uint32 (k : jsint) : Z :=
  match k with
  | Int z => z mod 4294967296
  | INaN => 0
  end.

Definition set_buffers (m : t) (vb nb : buffer number) (ib : buffer Z) : t :=
  mkMesh (vertices m) (faces m) (normals m) (numFaces m) (numVertices m) (minXYZ m)
         (maxXYZ m) (numNormals m) (Some vb) (Some nb) (Some ib).

(** Each buffer object with its [numItems] and the data that
    [gl.bufferData] is handed: [new Float32Array(...)] of the vertices
    and of the normals, [new Uint32Array(...)] of the faces. *)
Definition generateBuffers (m : t) : t :=
  set_buffers m
    (mkBuffer (numVertices m) (map fround (vertices m)))
    (mkBuffer (numVertices m) (map fround (normals m)))
    (mkBuffer (numFaces m * 3) (map to_uint32 (faces m))).


Section Factories.

(** Whether the context has the OES_element_index_uint extension, and
    [vec3.normalize]. *)
Variable ext : bool.
Variable normalize : vec3 -> vec3.

(** ** fromObj *)

(** [a.push(x, y, z)] *)
Definition push3 {A} (a : list A) (x y z : A) : list A := a ++ [x; y; z].

(** The body of the loop over the lines. *)
Definition obj_line (mesh : t) (line : string) : t :=
  if bool_decide (first_char line = Some "#"%char) then mesh
  else
    let split := split_spaces line in
    if bool_decide (split !! 0%nat = Some "v"%string) then
      set_vertices mesh
        (push3 (vertices mesh)
               (parseFloat (split !! 1%nat))
               (parseFloat (split !! 2%nat))
               (parseFloat (split !! 3%nat)))
    else if bool_decide (split !! 0%nat = Some "f"%string) then
      set_faces mesh
        (push3 (faces mesh)
               (isub (parseInt (split !! 1%nat)) (Int 1))
               (isub (parseInt (split !! 2%nat)) (Int 1))
               (isub (parseInt (split !! 3%nat)) (Int 1)))
    else mesh.

(** What every factory does once the vertices and faces are in place. *)
Definition finish (mesh : t) : t :=
  generateBuffers (generateNormals normalize (computeAABB mesh)).

(** [length / 3].  The quotient is exact wherever it is taken:
    [fromObj_lengths] below shows both lengths to be multiples of 3.
    This is the mesh returned and what was reported; whether the call
    returns is [fromObj_returns]. *)
Definition fromObj (fileText : string) : t * list report :=
  let (mesh, out) := constructor ext in
  let lines := split_lines fileText in
  let mesh := foldl obj_line mesh lines in
  let mesh := set_numVertices mesh (length (vertices mesh) / 3) in
  let mesh := set_numFaces mesh (length (faces mesh) / 3) in
  (finish mesh, out).


(** ** fromPlane *)

Definition four_times (n : vec3) : list number :=
  to_list n ++ to_list n ++ to_list n ++ to_list n.

Definition mone : number := neg one.

Definition fromPlane (axis : string) : t * list report :=
  let (mesh, out) := constructor ext in
  let mesh :=
    if bool_decide (axis = "z"%string) || bool_decide (axis = "Z"%string) then
      set_normals
        (set_vertices mesh
           [mone; mone; zero;  one; mone; zero;  one; one; zero;  mone; one; zero])
        (four_times (mk zero zero one))
    else if bool_decide (axis = "x"%string) || bool_decide (axis = "X"%string) then
      set_normals
        (set_vertices mesh
           [zero; mone; mone;  zero; mone; one;  zero; one; one;  zero; one; mone])
        (four_times (mk one zero zero))
    else if bool_decide (axis = "y"%string) || bool_decide (axis = "Y"%string) then
      set_normals
        (set_vertices mesh
           [mone; zero; mone;  one; zero; mone;  one; zero; one;  mone; zero; one])
        (four_times (mk zero one zero))
    else mesh in
  let mesh := set_faces mesh (push3 (faces mesh) (Int 0) (Int 1) (Int 2)) in
  let mesh := set_faces mesh (push3 (faces mesh) (Int 0) (Int 2) (Int 3)) in
  let mesh := set_numVertices mesh 4 in
  let mesh := set_numFaces mesh 2 in
  (finish mesh, out).

(** ** fromCube *)

Definition mhalf : number := neg half.

Definition cube_faces : list jsint :=
  map Int [0; 1; 2; 0; 2; 3;  3; 2; 6; 3; 6; 7;  5; 4; 6; 4; 7; 6;
           1; 0; 5; 0; 4; 5;  2; 1; 5; 2; 5; 6;  0; 3; 7; 0; 7; 4].

Definition fromCube (size : number) : t * list report :=
  let (mesh, out) := constructor ext in
  let mesh :=
    set_vertices mesh
      [mhalf; half; mhalf;   half; half; mhalf;
       half; half; half;     mhalf; half; half;
       mhalf; mhalf; mhalf;  half; mhalf; mhalf;
       half; mhalf; half;    mhalf; mhalf; half] in
  let mesh := set_vertices mesh (map (fun v => mul v size) (vertices mesh)) in
  let mesh := set_faces mesh (faces mesh ++ cube_faces) in
  let mesh := set_numVertices mesh 8 in
  let mesh := set_numFaces mesh 12 in
  (finish mesh, out).

End Factories.

End Mesh.

(** The remaining methods of Mesh. *)
Module MeshMethods.

Import Vec3 Mesh.

(** [getAABB]: the two corners; the object returned holds the arrays of
    the mesh themselves. *)
Definition getAABB (m : t) : list number * list number := (minXYZ m, maxXYZ m).

(** [getSize]: [vec3.subtract(size, this.maxXYZ, this.minXYZ)] into a new
    vector, a Float32Array; the two corners are plain arrays. *)
Definition getSize (m : t) : vec3 :=
  float32
    (subtract (mk (arr_get (maxXYZ m) (Int 0)) (arr_get (maxXYZ m) (Int 1))
                  (arr_get (maxXYZ m) (Int 2)))
              (mk (arr_get (minXYZ m) (Int 0)) (arr_get (minXYZ m) (Int 1))
                  (arr_get (minXYZ m) (Int 2)))).

(** What [draw] asks of the context. *)
Inductive drawcall : Type :=
  | BindElementArrayBuffer (b : option (buffer Z))
  | DrawElements (count : nat).

(** How a call ends: it returns, or a TypeError is thrown. *)
Inductive completion : Type := Normal | TypeError.

(** [draw]: when [indexBuffer] was never set, the buffer bound is
    [undefined] and reading its [numItems] throws. *)
Definition draw (m : t) : list drawcall * completion :=
  match indexBuffer m with
  | Some b => ([BindElementArrayBuffer (Some b); DrawElements (numItems b)], Normal)
  | None => ([BindElementArrayBuffer None], TypeError)
  end.

End MeshMethods.

(* ===================================================================== *)
(** * Shader (src/Shader.js, first part)                                  *)
(* ===================================================================== *)

Module Shader.

Inductive shaderType : Type :=
  | VERTEX_SHADER
  | FRAGMENT_SHADER
  | OtherType (code : Z).

(** A shader object is known by what was put in it. *)
Record glShader : Type := mkGlShader { sh_type : shaderType; sh_source : string }.
Record glProgram : Type := mkGlProgram { vert : glShader; frag : glShader }.

(** A child node of a DOM element. *)
Record node : Type := mkNode { nodeType : Z; textContent : string }.

(** A function either returns or throws. *)
Inductive outcome (A : Type) : Type :=
  | Returns (a : A)
  | Throws.
Arguments Returns {A} _.
Arguments Throws {A}.

(** [class Shader]: the one field is the program handle, which may be
    null. *)
Record t : Type := mkShader { program : option glProgram }.

Section Host.

(** The page and the WebGL context: the child nodes of the element with a
    given id ([None] when there is no such element), COMPILE_STATUS,
    LINK_STATUS and the two info logs. *)
Variable getElementById : string -> option (list node).
Variable compile_status : glShader -> bool.
Variable link_status : glProgram -> bool.
Variable shaderInfoLog : glShader -> string.
Variable programInfoLog : glProgram -> string.

(** [loadDOMScriptSource]: reading [childNodes] of null throws. *)
Definition loadDOMScriptSource (elemName : string) : outcome string :=
  match getElementById elemName with
  | None => Throws
  | Some childNodes =>
      Returns
        (foldl (fun source n =>
                  if nodeType n =? 3 then (source ++ textContent n)%string
                  else source)
               ""%string childNodes)
  end.

Definition typeName (type : shaderType) : string :=
  match type with
  | VERTEX_SHADER => "vertex"
  | FRAGMENT_SHADER => "fragment"
  | OtherType _ => "unknown"
  end.

(** [compileShader]: the shader, or null. *)
Definition compileShader (source : string) (type : shaderType)
  : option glShader * list report :=
  let shader := mkGlShader type source in
  if negb (compile_status shader) then
    let info := shaderInfoLog shader in
    (None,
     [Alert ("Failed to compile " ++ typeName type ++ " shader!")%string;
      ConsoleLog ("Error compiling shader: " ++ info)%string])
  else (Some shader, []).

(** [linkShaderProgram]: the program, or null. *)
Definition linkShaderProgram (vertShader fragShader : glShader)
  : option glProgram * list report :=
  let program := mkGlProgram vertShader fragShader in
  if negb (link_status program) then
    let info := programInfoLog program in
    (None,
     [Alert "Failed to link shader!"%string;
      ConsoleLog ("Error linking shader: " ++ info)%string])
  else (Some program, []).

(** [Shader.fromDOM]: a Shader object, or null. *)
Definition fromDOM (vertElem fragElem : string)
  : outcome (option t) * list report :=
  match loadDOMScriptSource vertElem with
  | Throws => (Throws, [])
  | Returns vsrc =>
      let (vertShader, out1) := compileShader vsrc VERTEX_SHADER in
      match loadDOMScriptSource fragElem with
      | Throws => (Throws, out1)
      | Returns fsrc =>
          let (fragShader, out2) := compileShader fsrc FRAGMENT_SHADER in
          match vertShader, fragShader with
          | Some v, Some f =>
              let (prog, out3) := linkShaderProgram v f in
              (Returns (Some (mkShader prog)), out1 ++ out2 ++ out3)
          | _, _ => (Returns None, out1 ++ out2)
          end
      end
  end.

End Host.

End Shader.

(* ===================================================================== *)
(** * A Shader object and its properties (src/Shader.js, first part)      *)
(* ===================================================================== *)

Module ShaderObject.

Import Shader.
Local Open Scope string_scope.

(** How a call ends: it returns, or something was thrown. *)
Inductive completion : Type := Returned | Threw.

(** An own property of the object: the field that the constructor
    assigns, or an accessor that [Object.defineProperty] installed, with
    what its setter captured.  An accessor has no getter. *)
Inductive property : Type :=
  | Data (program : option glProgram)
  | UniformSetter (location : option nat) (accessFunc : string)
  | AttributeSetter (location : Z) (bufferType components type : Z).

Abbreviation object := (gmap string property) (only parsing).

Section Host.

(** The values that the page assigns to the properties: arrays for the
    uniforms, buffers for the attributes. *)
Variable value : Type.

(** The context: the location of a uniform (null when the program has
    none of that name) and of an attribute, asked of a program that may
    be null or undefined, which a context may refuse by throwing; and
    the names of the methods of [gl]. *)
Variable getUniformLocation : option glProgram -> string -> outcome (option nat).
Variable getAttribLocation : option glProgram -> string -> outcome Z.
Variable gl_has : string -> bool.

(** What the context is asked to do. *)
Inductive glcall : Type :=
  | GetUniformLocation (program : option glProgram) (name : string)
  | GetAttribLocation (program : option glProgram) (name : string)
  | Uniform (method : string) (location : option nat) (transpose : option bool)
            (val : value)
  | BindBuffer (bufferType : Z) (val : value)
  | VertexAttribPointer (location : Z) (components : Z) (type : Z)
  | EnableVertexAttribArray (location : Z)
  | UseProgram (program : option glProgram).

(** [new Shader(shaderProgramHandle)] *)
Definition constructor (shaderProgramHandle : option glProgram) : object :=
  {[ "program" := Data shaderProgramHandle ]}.

(** [this.program]: the field, or undefined once an accessor of that
    name has replaced it. *)
Definition get_program (this : object) : option glProgram :=
  match this !! "program" with
  | Some (Data p) => p
  | _ => None
  end.

(** A method is found on the prototype unless an own property of its
    name hides it; the own properties there are read as undefined or
    hold a program, so calling one throws. *)
Definition has_method (this : object) (name : string) : bool :=
  bool_decide (this !! name = None).

(** [enableUniform(name, accessFunc)]; [accessFunc] is known by its
    [name]. *)
Definition enableUniform (this : object) (name accessFunc : string)
  : object * list glcall * completion :=
  if has_method this "enableUniform" then
    match getUniformLocation (get_program this) name with
    | Returns uniformLocation =>
        (<[name := UniformSetter uniformLocation accessFunc]> this,
         [GetUniformLocation (get_program this) name], Returned)
    | Throws => (this, [GetUniformLocation (get_program this) name], Threw)
    end
  else (this, [], Threw).

(** [enableAttribute(name, bufferType, components, type)] *)
Definition enableAttribute (this : object) (name : string)
    (bufferType components type : Z) : object * list glcall * completion :=
  if has_method this "enableAttribute" then
    match getAttribLocation (get_program this) name with
    | Returns attribLocation =>
        (<[name := AttributeSetter attribLocation bufferType components type]> this,
         [GetAttribLocation (get_program this) name], Returned)
    | Throws => (this, [GetAttribLocation (get_program this) name], Threw)
    end
  else (this, [], Threw).

(** [use()] *)
Definition use (this : object) : list glcall * completion :=
  if has_method this "use" then ([UseProgram (get_program this)], Returned)
  else ([], Threw).

(** [this[name] = val] for a name that has a setter: what the setter
    does.  [None] for any other name: an ordinary assignment, which the
    class has no part in. *)
Definition assign (this : object) (name : string) (val : value)
  : option (list glcall * completion) :=
  match this !! name with
  | Some (UniformSetter uniformLocation accessFunc) =>
      Some (if gl_has accessFunc then
              ([Uniform accessFunc uniformLocation
                  (if String.prefix "uniformMatrix" accessFunc then Some false
                   else None)
                  val], Returned)
            else ([], Threw))
  | Some (AttributeSetter attribLocation bufferType components type) =>
      Some ([BindBuffer bufferType val;
             VertexAttribPointer attribLocation components type;
             EnableVertexAttribArray attribLocation], Returned)
  | _ => None
  end.

(** A call of one of the two enabling methods. *)
Inductive enabling : Type :=
  | EnableUniform (name accessFunc : string)
  | EnableAttribute (name : string) (bufferType components type : Z).

Definition enabled_name (e : enabling) : string :=
  match e with EnableUniform name _ | EnableAttribute name _ _ _ => name end.

Definition enable (this : object) (e : enabling) : object :=
  match e with
  | EnableUniform name accessFunc => (enableUniform this name accessFunc).1.1
  | EnableAttribute name bufferType components type =>
      (enableAttribute this name bufferType components type).1.1
  end.

End Host.

End ShaderObject.

(* ===================================================================== *)
(** * Texture (src/Texture.js)                                            *)
(* ===================================================================== *)

Module Texture.

Inductive target : Type :=
  | TEXTURE_CUBE_MAP
  | TEXTURE_CUBE_MAP_NEGATIVE_X
  | TEXTURE_CUBE_MAP_NEGATIVE_Y
  | TEXTURE_CUBE_MAP_NEGATIVE_Z
  | TEXTURE_CUBE_MAP_POSITIVE_X
  | TEXTURE_CUBE_MAP_POSITIVE_Y
  | TEXTURE_CUBE_MAP_POSITIVE_Z.

Inductive pname : Type :=
  | TEXTURE_MAG_FILTER | TEXTURE_MIN_FILTER | TEXTURE_WRAP_S | TEXTURE_WRAP_T.
Inductive pvalue : Type := LINEAR | CLAMP_TO_EDGE.

(** What a handler installed on an image does when it is called. *)
Inductive handler : Type :=
  | ResolveWithImage.

(** An [Image] as [imageFromUrl] leaves it. *)
Record image : Type := mkImage {
  src : string;
  extra : option target;
  onload : option handler;
  onerror : option handler
}.

Inductive promise (A : Type) : Type :=
  | Pending
  | Resolved (v : A)
  | Rejected.
Arguments Pending {A}.
Arguments Resolved {A} _.
Arguments Rejected {A}.

(** [class Texture]: [textureType] is 0 until a factory sets it. *)
Record t : Type := mkTexture { textureType : option target }.

Inductive glcall : Type :=
  | CreateTexture
  | BindTexture (tg : target)
  | TexImage2D (tg : option target) (img : image)
  | TexParameteri (tg : target) (p : pname) (v : pvalue).

(** [Texture.imageFromUrl(url, extra)]: the image it creates and the
    promise it returns.  The executor installs [onload] and nothing
    else; it never calls [reject]. *)
Definition imageFromUrl (url : string) (extra : option target)
  : image * promise image :=
  (mkImage url extra (Some ResolveWithImage) None, Pending).

(** What the browser tells an image: that it loaded, or that it could
    not be loaded. *)
Inductive event : Type :=
  | Load (k : nat)
  | Error (k : nat).

(** The state of one call of [cubemapFromUrl]: the six images with their
    promises, in the order of the array [promises]; the promise that was
    returned; the calls made on the context and the values logged. *)
Record state : Type := mkState {
  images : list (image * promise image);
  result : promise t;
  glcalls : list glcall;
  logged : list image
}.

(** Calling a handler of the image [img] whose promise is [p]. *)
Definition call_handler (h : option handler) (img : image) (p : promise image)
  : promise image :=
  match h with
  | Some ResolveWithImage =>
      match p with
      | Pending => Resolved img
      | _ => p
      end
  | None => p
  end.

(** [Promise.all]: fulfilled with the values, in the order of the
    promises, once all are fulfilled; rejected once one is. *)
Fixpoint promise_all {A} (ps : list (promise A)) : promise (list A) :=
  match ps with
  | [] => Resolved []
  | p :: ps' =>
      match p, promise_all ps' with
      | Rejected, _ | _, Rejected => Rejected
      | Resolved v, Resolved vs => Resolved (v :: vs)
      | _, _ => Pending
      end
  end.

(** The callback given to [then]; [new Texture()] calls
    [gl.createTexture()]. *)
Definition on_all (values : list image) (s : state) : state :=
  let tex := mkTexture (Some TEXTURE_CUBE_MAP) in
  let uploads := map (fun v => TexImage2D (extra v) v) values in
  mkState (images s) (Resolved tex)
    (glcalls s ++ [CreateTexture; BindTexture TEXTURE_CUBE_MAP] ++ uploads ++
       [TexParameteri TEXTURE_CUBE_MAP TEXTURE_MAG_FILTER LINEAR;
        TexParameteri TEXTURE_CUBE_MAP TEXTURE_MIN_FILTER LINEAR;
        TexParameteri TEXTURE_CUBE_MAP TEXTURE_WRAP_S CLAMP_TO_EDGE;
        TexParameteri TEXTURE_CUBE_MAP TEXTURE_WRAP_T CLAMP_TO_EDGE])
    (logged s ++ values).

(** The reaction of [Promise.all(promises).then(...)]: the callback runs
    once, when the join is fulfilled. *)
Definition settle (s : state) : state :=
  match result s, promise_all (map snd (images s)) with
  | Pending, Resolved values => on_all values s
  | _, _ => s
  end.

Definition dispatch (e : event) (ip : image * promise image)
  : image * promise image :=
  let (img, p) := ip in
  match e with
  | Load _ => (img, call_handler (onload img) img p)
  | Error _ => (img, call_handler (onerror img) img p)
  end.

Definition event_target (e : event) : nat :=
  match e with Load k | Error k => k end.

(** One turn of the event loop. *)
Definition step (s : state) (e : event) : state :=
  let k := event_target e in
  let imgs :=
    match images s !! k with
    | Some ip => <[k := dispatch e ip]> (images s)
    | None => images s
    end in
  settle (mkState imgs (result s) (glcalls s) (logged s)).

(** [Texture.cubemapFromUrl]: the state when the call returns. *)
Definition cubemapFromUrl (negX negY negZ posX posY posZ : string) : state :=
  let promises :=
    [imageFromUrl negX (Some TEXTURE_CUBE_MAP_NEGATIVE_X);
     imageFromUrl negY (Some TEXTURE_CUBE_MAP_NEGATIVE_Y);
     imageFromUrl negZ (Some TEXTURE_CUBE_MAP_NEGATIVE_Z);
     imageFromUrl posX (Some TEXTURE_CUBE_MAP_POSITIVE_X);
     imageFromUrl posY (Some TEXTURE_CUBE_MAP_POSITIVE_Y);
     imageFromUrl posZ (Some TEXTURE_CUBE_MAP_POSITIVE_Z)] in
  mkState promises Pending [] [].

Definition run (s : state) (es : list event) : state := foldl step s es.

(** The [texImage2D] calls among the calls on the context. *)
Definition uploads (s : state) : list (option target * string) :=
  omap (fun c => match c with
                 | TexImage2D tg img => Some (tg, src img)
                 | _ => None
                 end) (glcalls s).

End Texture.

(** The constructor of Texture and [bind]. *)
Module TextureMethods.

Import Texture.

(** [gl.TEXTURE0] *)
Definition TEXTURE0 : number := of_Z 33984.

(** What [bind] asks of the context; the texture object itself is the
    one that the constructor created. *)
Inductive bindcall : Type :=
  | ActiveTexture (unit : number)
  | BindTextureAs (textureType : option target).

(** [new Texture()]: [textureType] is 0. *)
Definition constructor : t := mkTexture None.

(** [bind(number)]; the argument may be left out. *)
Definition bind (this : t) (number : option number) : list bindcall :=
  let number :=
    match number with
    | Some n => if truthy n then n else TEXTURE0
    | None => TEXTURE0
    end in
  [ActiveTexture number; BindTextureAs (textureType this)].

End TextureMethods.

(* ===================================================================== *)
(** * The store: arrays that several names may refer to                   *)
(* ===================================================================== *)

Module Heap.

(** An object of gl-matrix is a typed array.  The store lists the arrays
    that exist; a reference is a position in it.  Nothing is ever
    freed. *)
Abbreviation loc := nat (only parsing).
Abbreviation store := (list (list number)) (only parsing).

(** A computation that reads and writes the store. *)
Definition M (A : Type) : Type := store -> A * store.

Definition ret {A} (a : A) : M A := fun s => (a, s).
Definition bind {A B} (m : M A) (f : A -> M B) : M B :=
  fun s => let (a, s') := m s in f a s'.

#[global] Instance M_ret : MRet M := @ret.
#[global] Instance M_bind : MBind M := fun A B f m => bind m f.

(** [a[i]]; an element that is not there reads as NaN. *)
Definition el (a : list number) (i : nat) : number := default NaN (a !! i).

(** [l[i]] *)
Definition rd (l : loc) (i : nat) : M number :=
  fun s => (el (default [] (s !! l)) i, s).

(** [l[i] = x]; a typed array ignores a write past its end (a plain
    array, which a caller may pass for an output, would grow: the
    theorems about an output array give its length).  The number
    written is kept as it is; a Float32Array keeps [fround x], which is
    [x] for the numbers of the binary32 format. *)
Definition wr (l : loc) (i : nat) (x : number) : M unit :=
  fun s =>
    (tt, match s !! l with
         | Some a => <[l := <[i := x]> a]> s
         | None => s
         end).

(** A new array. *)
Definition alloc (init : list number) : M loc :=
  fun s => (length s, s ++ [init]).

(** The whole array [l]. *)
Definition rd_all (l : loc) : M (list number) :=
  fun s => (default [] (s !! l), s).

(** [l[i] = x0; l[i+1] = x1; ...] *)
Fixpoint wr_from (l : loc) (i : nat) (xs : list number) : M unit :=
  match xs with
  | [] => mret tt
  | x :: xs' => wr l i x ;; wr_from l (S i) xs'
  end.

End Heap.

(* ===================================================================== *)
(** * gl-matrix on the store                                              *)
(* ===================================================================== *)

Declare Scope js_scope.
Delimit Scope js_scope with J.
Infix "+" := Js.add : js_scope.
Infix "-" := Js.sub : js_scope.
Infix "*" := Js.mul : js_scope.
Infix "/" := Js.div : js_scope.
Notation "- x" := (Js.neg x) : js_scope.

Module GlMatrix.

Import Heap.

Definition identity16 : list number :=
  [one; zero; zero; zero;  zero; one; zero; zero;
   zero; zero; one; zero;  zero; zero; zero; one].

(** [glMatrix.EPSILON] *)
Definition EPSILON : number := Fin (Q2Qc (1 # 1000000)).

(** One column of [mat4.multiply]: the four entries computed from the
    sixteen of [a] and four of [b]. *)
Definition mul_col (a : list number) (b0 b1 b2 b3 : number) : list number :=
  [ (b0 * el a 0 + b1 * el a 4 + b2 * el a 8 + b3 * el a 12)%J;
    (b0 * el a 1 + b1 * el a 5 + b2 * el a 9 + b3 * el a 13)%J;
    (b0 * el a 2 + b1 * el a 6 + b2 * el a 10 + b3 * el a 14)%J;
    (b0 * el a 3 + b1 * el a 7 + b2 * el a 11 + b3 * el a 15)%J ].

(** The product as a value: what [mat4.multiply] leaves in [out] when
    [out] is not [b]. *)
Definition mul_val (a b : list number) : list number :=
  mul_col a (el b 0) (el b 1) (el b 2) (el b 3) ++
  mul_col a (el b 4) (el b 5) (el b 6) (el b 7) ++
  mul_col a (el b 8) (el b 9) (el b 10) (el b 11) ++
  mul_col a (el b 12) (el b 13) (el b 14) (el b 15).

(** The sum as a value: what [vec3.add] leaves in [out]. *)
Definition add_val (a b : list number) : list number :=
  [(el a 0 + el b 0)%J; (el a 1 + el b 1)%J; (el a 2 + el b 2)%J].

(** What [mat4.fromQuat] writes. *)
Definition fromQuat_val (q : list number) : list number :=
  let x := el q 0 in let y := el q 1 in let z := el q 2 in let w := el q 3 in
  let x2 := (x + x)%J in let y2 := (y + y)%J in let z2 := (z + z)%J in
  let xx := (x * x2)%J in let yx := (y * x2)%J in let yy := (y * y2)%J in
  let zx := (z * x2)%J in let zy := (z * y2)%J in let zz := (z * z2)%J in
  let wx := (w * x2)%J in let wy := (w * y2)%J in let wz := (w * z2)%J in
  [ (one - yy - zz)%J; (yx + wz)%J; (zx - wy)%J; zero;
    (yx - wz)%J; (one - xx - zz)%J; (zy + wx)%J; zero;
    (zx + wy)%J; (zy - wx)%J; (one - xx - yy)%J; zero;
    zero; zero; zero; one ].

Section WithMath.

Variable Math_sqrt : number -> number.
Variable Math_sin : number -> number.
Variable Math_cos : number -> number.

(** ** vec3 *)

Definition vec3_create : M loc := alloc [zero; zero; zero].

Definition vec3_fromValues (x y z : number) : M loc := alloc [x; y; z].

Definition vec3_clone (a : loc) : M loc :=
  x ← rd a 0; y ← rd a 1; z ← rd a 2; alloc [x; y; z].

Definition vec3_add (out a b : loc) : M unit :=
  a0 ← rd a 0; b0 ← rd b 0; wr out 0 (a0 + b0)%J;;
  a1 ← rd a 1; b1 ← rd b 1; wr out 1 (a1 + b1)%J;;
  a2 ← rd a 2; b2 ← rd b 2; wr out 2 (a2 + b2)%J.

Definition vec3_subtract (out a b : loc) : M unit :=
  a0 ← rd a 0; b0 ← rd b 0; wr out 0 (a0 - b0)%J;;
  a1 ← rd a 1; b1 ← rd b 1; wr out 1 (a1 - b1)%J;;
  a2 ← rd a 2; b2 ← rd b 2; wr out 2 (a2 - b2)%J.

Definition vec3_transformQuat (out a q : loc) : M unit :=
  x ← rd a 0; y ← rd a 1; z ← rd a 2;
  qx ← rd q 0; qy ← rd q 1; qz ← rd q 2; qw ← rd q 3;
  let ix := (qw * x + qy * z - qz * y)%J in
  let iy := (qw * y + qz * x - qx * z)%J in
  let iz := (qw * z + qx * y - qy * x)%J in
  let iw := (- qx * x - qy * y - qz * z)%J in
  wr out 0 (ix * qw + iw * - qx + iy * - qz - iz * - qy)%J;;
  wr out 1 (iy * qw + iw * - qy + iz * - qx - ix * - qz)%J;;
  wr out 2 (iz * qw + iw * - qz + ix * - qy - iy * - qx)%J.

(** ** quat *)

Definition quat_create : M loc := alloc [zero; zero; zero; one].

Definition quat_conjugate (out a : loc) : M unit :=
  a0 ← rd a 0; wr out 0 (- a0)%J;;
  a1 ← rd a 1; wr out 1 (- a1)%J;;
  a2 ← rd a 2; wr out 2 (- a2)%J;;
  a3 ← rd a 3; wr out 3 a3.

Definition quat_rotateX (out a : loc) (rad : number) : M unit :=
  let rad := (rad * half)%J in
  ax ← rd a 0; ay ← rd a 1; az ← rd a 2; aw ← rd a 3;
  let bx := Math_sin rad in let bw := Math_cos rad in
  wr out 0 (ax * bw + aw * bx)%J;;
  wr out 1 (ay * bw + az * bx)%J;;
  wr out 2 (az * bw - ay * bx)%J;;
  wr out 3 (aw * bw - ax * bx)%J.

Definition quat_rotateY (out a : loc) (rad : number) : M unit :=
  let rad := (rad * half)%J in
  ax ← rd a 0; ay ← rd a 1; az ← rd a 2; aw ← rd a 3;
  let by_ := Math_sin rad in let bw := Math_cos rad in
  wr out 0 (ax * bw - az * by_)%J;;
  wr out 1 (ay * bw + aw * by_)%J;;
  wr out 2 (az * bw + ax * by_)%J;;
  wr out 3 (aw * bw - ay * by_)%J.

Definition quat_rotateZ (out a : loc) (rad : number) : M unit :=
  let rad := (rad * half)%J in
  ax ← rd a 0; ay ← rd a 1; az ← rd a 2; aw ← rd a 3;
  let bz := Math_sin rad in let bw := Math_cos rad in
  wr out 0 (ax * bw + ay * bz)%J;;
  wr out 1 (ay * bw - ax * bz)%J;;
  wr out 2 (az * bw + aw * bz)%J;;
  wr out 3 (aw * bw - az * bz)%J.

Definition quat_setAxisAngle (out axis : loc) (rad : number) : M unit :=
  let rad := (rad * half)%J in
  let s := Math_sin rad in
  a0 ← rd axis 0; wr out 0 (s * a0)%J;;
  a1 ← rd axis 1; wr out 1 (s * a1)%J;;
  a2 ← rd axis 2; wr out 2 (s * a2)%J;;
  wr out 3 (Math_cos rad).

Definition quat_multiply (out a b : loc) : M unit :=
  ax ← rd a 0; ay ← rd a 1; az ← rd a 2; aw ← rd a 3;
  bx ← rd b 0; by_ ← rd b 1; bz ← rd b 2; bw ← rd b 3;
  wr out 0 (ax * bw + aw * bx + ay * bz - az * by_)%J;;
  wr out 1 (ay * bw + aw * by_ + az * bx - ax * bz)%J;;
  wr out 2 (az * bw + aw * bz + ax * by_ - ay * bx)%J;;
  wr out 3 (aw * bw - ax * bx - ay * by_ - az * bz)%J.

(** ** mat4 *)

Definition mat4_create : M loc := alloc identity16.

Definition mat4_identity (out : loc) : M unit := wr_from out 0 identity16.

Definition mat4_fromQuat (out q : loc) : M unit :=
  qv ← rd_all q; wr_from out 0 (fromQuat_val qv).

Definition mat4_fromTranslation (out v : loc) : M unit :=
  wr_from out 0 [one; zero; zero; zero;  zero; one; zero; zero;
                 zero; zero; one; zero];;
  v0 ← rd v 0; wr out 12 v0;;
  v1 ← rd v 1; wr out 13 v1;;
  v2 ← rd v 2; wr out 14 v2;;
  wr out 15 one.

(** [a] is read whole before anything is written; [b] is read four
    entries at a time, between the writes. *)
Definition mul_step (out : loc) (av : list number) (b : loc) (k : nat) : M unit :=
  b0 ← rd b (4 * k); b1 ← rd b (4 * k + 1);
  b2 ← rd b (4 * k + 2); b3 ← rd b (4 * k + 3);
  wr_from out (4 * k) (mul_col av b0 b1 b2 b3).

Definition mat4_multiply (out a b : loc) : M unit :=
  av ← rd_all a;
  mul_step out av b 0;; mul_step out av b 1;;
  mul_step out av b 2;; mul_step out av b 3.

Definition hyp3 (x y z : number) : number := Math_sqrt (x * x + y * y + z * z)%J.

Definition mat4_lookAt (out eye center up : loc) : M unit :=
  eyex ← rd eye 0; eyey ← rd eye 1; eyez ← rd eye 2;
  upx ← rd up 0; upy ← rd up 1; upz ← rd up 2;
  centerx ← rd center 0; centery ← rd center 1; centerz ← rd center 2;
  if lt (abs (eyex - centerx)%J) EPSILON &&
     lt (abs (eyey - centery)%J) EPSILON &&
     lt (abs (eyez - centerz)%J) EPSILON
  then mat4_identity out
  else
    let z0 := (eyex - centerx)%J in
    let z1 := (eyey - centery)%J in
    let z2 := (eyez - centerz)%J in
    let len := (one / hyp3 z0 z1 z2)%J in
    let z0 := (z0 * len)%J in let z1 := (z1 * len)%J in let z2 := (z2 * len)%J in
    let x0 := (upy * z2 - upz * z1)%J in
    let x1 := (upz * z0 - upx * z2)%J in
    let x2 := (upx * z1 - upy * z0)%J in
    let len := hyp3 x0 x1 x2 in
    let '(x0, x1, x2) :=
      if negb (truthy len) then (zero, zero, zero)
      else let len := (one / len)%J in ((x0 * len)%J, (x1 * len)%J, (x2 * len)%J) in
    let y0 := (z1 * x2 - z2 * x1)%J in
    let y1 := (z2 * x0 - z0 * x2)%J in
    let y2 := (z0 * x1 - z1 * x0)%J in
    let len := hyp3 y0 y1 y2 in
    let '(y0, y1, y2) :=
      if negb (truthy len) then (zero, zero, zero)
      else let len := (one / len)%J in ((y0 * len)%J, (y1 * len)%J, (y2 * len)%J) in
    wr_from out 0
      [ x0; y0; z0; zero;
        x1; y1; z1; zero;
        x2; y2; z2; zero;
        (- (x0 * eyex + x1 * eyey + x2 * eyez))%J;
        (- (y0 * eyex + y1 * eyey + y2 * eyez))%J;
        (- (z0 * eyex + z1 * eyey + z2 * eyez))%J;
        one ].

(** The look-at matrix as a value: what [mat4.lookAt] leaves in [out]
    when [eye], [center] and [up] hold these numbers. *)
Definition lookAt_val (eye center up : list number) : list number :=
  let eyex := el eye 0 in let eyey := el eye 1 in let eyez := el eye 2 in
  let upx := el up 0 in let upy := el up 1 in let upz := el up 2 in
  let centerx := el center 0 in let centery := el center 1 in
  let centerz := el center 2 in
  if lt (abs (eyex - centerx)%J) EPSILON &&
     lt (abs (eyey - centery)%J) EPSILON &&
     lt (abs (eyez - centerz)%J) EPSILON
  then identity16
  else
    let z0 := (eyex - centerx)%J in
    let z1 := (eyey - centery)%J in
    let z2 := (eyez - centerz)%J in
    let len := (one / hyp3 z0 z1 z2)%J in
    let z0 := (z0 * len)%J in let z1 := (z1 * len)%J in let z2 := (z2 * len)%J in
    let x0 := (upy * z2 - upz * z1)%J in
    let x1 := (upz * z0 - upx * z2)%J in
    let x2 := (upx * z1 - upy * z0)%J in
    let len := hyp3 x0 x1 x2 in
    let '(x0, x1, x2) :=
      if negb (truthy len) then (zero, zero, zero)
      else let len := (one / len)%J in ((x0 * len)%J, (x1 * len)%J, (x2 * len)%J) in
    let y0 := (z1 * x2 - z2 * x1)%J in
    let y1 := (z2 * x0 - z0 * x2)%J in
    let y2 := (z0 * x1 - z1 * x0)%J in
    let len := hyp3 y0 y1 y2 in
    let '(y0, y1, y2) :=
      if negb (truthy len) then (zero, zero, zero)
      else let len := (one / len)%J in ((y0 * len)%J, (y1 * len)%J, (y2 * len)%J) in
    [ x0; y0; z0; zero;
      x1; y1; z1; zero;
      x2; y2; z2; zero;
      (- (x0 * eyex + x1 * eyey + x2 * eyez))%J;
      (- (y0 * eyex + y1 * eyey + y2 * eyez))%J;
      (- (z0 * eyex + z1 * eyey + z2 * eyez))%J;
      one ].

End WithMath.

End GlMatrix.

(* ===================================================================== *)
(** * Camera (third source file)                                          *)
(* ===================================================================== *)

Module Camera.

Import Heap GlMatrix.

(** A camera holds references; no method assigns a field after the
    constructor. *)
Record t : Type := mkCamera {
  eyePoint : loc;
  up : loc;
  viewPoint : loc;
  translation : loc;
  rotation : loc;
  lookDirection : loc;
  lookAtMatrix : loc
}.

Section Methods.

Variable Math_sqrt : number -> number.
Variable Math_sin : number -> number.
Variable Math_cos : number -> number.
(** [degToRad] is defined by the page that uses the class. *)
Variable degToRad : number -> number.

Definition constructor (origin lookDirection : loc) : M t :=
  eyePoint ← vec3_clone origin;
  up ← vec3_fromValues zero one zero;
  viewPoint ← vec3_create;
  vec3_add viewPoint eyePoint lookDirection;;
  translation ← vec3_create;
  rotation ← quat_create;
  lookAtMatrix ← mat4_create;
  mat4_lookAt Math_sqrt lookAtMatrix eyePoint viewPoint up;;
  mret (mkCamera eyePoint up viewPoint translation rotation
                 lookDirection lookAtMatrix).

Definition getViewMatrix (this : t) (outMatrix : loc) : M unit :=
  rot ← mat4_create;
  mat4_fromQuat rot (rotation this);;
  trans ← mat4_create;
  mat4_fromTranslation trans (translation this);;
  mat4_multiply outMatrix rot trans;;
  mat4_multiply outMatrix outMatrix (lookAtMatrix this).

Definition getLocalVector (this : t) (x y z : number) : M loc :=
  rotVec ← vec3_fromValues x y z;
  conj ← quat_create;
  quat_conjugate conj (rotation this);;
  vec3_transformQuat rotVec rotVec conj;;
  mret rotVec.

Definition rotateX (this : t) (degrees : number) : M unit :=
  quat_rotateX Math_sin Math_cos (rotation this) (rotation this)
               (- degToRad degrees)%J.

Definition rotateY (this : t) (degrees : number) : M unit :=
  quat_rotateY Math_sin Math_cos (rotation this) (rotation this)
               (- degToRad degrees)%J.

Definition rotateZ (this : t) (degrees : number) : M unit :=
  quat_rotateZ Math_sin Math_cos (rotation this) (rotation this)
               (- degToRad degrees)%J.

Definition rotateLocal (this : t) (x y z degrees : number) : M unit :=
  rotQuat ← quat_create;
  axis ← getLocalVector this x y z;
  quat_setAxisAngle Math_sin Math_cos rotQuat axis (- degToRad degrees)%J;;
  quat_multiply (rotation this) (rotation this) rotQuat.

Definition rotateLocalX (this : t) (degrees : number) : M unit :=
  rotateLocal this one zero zero degrees.

Definition rotateLocalY (this : t) (degrees : number) : M unit :=
  rotateLocal this zero one zero degrees.

Definition rotateLocalZ (this : t) (degrees : number) : M unit :=
  rotateLocal this zero zero one degrees.

Definition setWorldPos (this : t) (x y z : number) : M unit :=
  wr (translation this) 0 x;;
  wr (translation this) 1 y;;
  wr (translation this) 2 z.

Definition translate (this : t) (x y z : number) : M unit :=
  v ← vec3_fromValues x y z;
  vec3_subtract (translation this) (translation this) v.

Definition translateLocal (this : t) (x y z : number) : M unit :=
  amt ← vec3_fromValues x y z;
  conj ← quat_create;
  quat_conjugate conj (rotation this);;
  vec3_transformQuat amt amt conj;;
  vec3_subtract (translation this) (translation this) amt.

(** A call of one of the methods, with its arguments. *)
Inductive call : Type :=
  | RotateX (degrees : number)
  | RotateY (degrees : number)
  | RotateZ (degrees : number)
  | RotateLocalX (degrees : number)
  | RotateLocalY (degrees : number)
  | RotateLocalZ (degrees : number)
  | SetWorldPos (x y z : number)
  | Translate (x y z : number)
  | TranslateLocal (x y z : number)
  | GetViewMatrix (outMatrix : loc)
  | GetLocalVector (x y z : number).

Definition perform (this : t) (c : call) : M unit :=
  match c with
  | RotateX d => rotateX this d
  | RotateY d => rotateY this d
  | RotateZ d => rotateZ this d
  | RotateLocalX d => rotateLocalX this d
  | RotateLocalY d => rotateLocalY this d
  | RotateLocalZ d => rotateLocalZ this d
  | SetWorldPos x y z => setWorldPos this x y z
  | Translate x y z => translate this x y z
  | TranslateLocal x y z => translateLocal this x y z
  | GetViewMatrix out => getViewMatrix this out
  | GetLocalVector x y z => getLocalVector this x y z;; mret tt
  end.

Fixpoint perform_all (this : t) (cs : list call) : M unit :=
  match cs with
  | [] => mret tt
  | c :: cs' => perform this c;; perform_all this cs'
  end.

End Methods.

(** The objects that the fields other than [rotation] and [translation]
    refer to. *)
Definition fixed_fields (c : t) : list loc :=
  [eyePoint c; up c; viewPoint c; lookDirection c; lookAtMatrix c].

End Camera.

(* ===================================================================== *)
(** * Properties of Mesh                                                  *)
(* ===================================================================== *)

Module MeshSpec.

Import Vec3 Mesh.

(** The coordinates along axis [j] of a flat list of vertices. *)
Fixpoint axis_coords (vs : list number) (j : nat) : list number :=
  match vs with
  | x :: y :: z :: vs' =>
      (match j with 0 => x | 1 => y | _ => z end)%nat :: axis_coords vs' j
  | _ => []
  end.

(** The least and the greatest of a list of numbers. *)
Definition least (xs : list number) : option number :=
  match xs with
  | [] => None
  | x :: xs' => Some (foldl (fun m y => if lt y m then y else m) x xs')
  end.

Definition greatest (xs : list number) : option number :=
  match xs with
  | [] => None
  | x :: xs' => Some (foldl (fun m y => if gt y m then y else m) x xs')
  end.

(** The bounding box as the specification words it: per axis, the
    minimum and the maximum of the coordinates of the vertices. *)
Definition true_min (vs : list number) : list (option number) :=
  map (fun j => least (axis_coords vs j)) [0; 1; 2]%nat.
Definition true_max (vs : list number) : list (option number) :=
  map (fun j => greatest (axis_coords vs j)) [0; 1; 2]%nat.

(** ** OBJ text *)

(** The lines of the subset of OBJ that the loader reads: a vertex with
    its three coordinate tokens, a triangular face with its three
    indices, a comment with its text. *)
Inductive line : Type :=
  | V (x y z : string)
  | F (a b c : nat)
  | Comment (text : string).

(** The decimal numeral of a natural number. *)
Definition decimal (n : nat) : string :=
  DecimalString.NilEmpty.string_of_uint (Nat.to_uint n).

Definition render_line (l : line) : string :=
  match l with
  | V x y z => "v " ++ x ++ " " ++ y ++ " " ++ z
  | F a b c => "f " ++ decimal a ++ " " ++ decimal b ++ " " ++ decimal c
  | Comment text => String "#" text
  end%string.

Definition newline : string := String "010" EmptyString.

Definition render (ls : list line) : string :=
  String.concat newline (map render_line ls).

(** Every character of [s] satisfies [f]. *)
Fixpoint all_chars (f : ascii -> bool) (s : string) : bool :=
  match s with
  | EmptyString => true
  | String c s' => f c && all_chars f s'
  end.

Definition is_newline (c : ascii) : bool := Ascii.eqb c "010"%char.

(** A token: not empty, no space, no line break. *)
Definition token (s : string) : bool :=
  negb (String.eqb s "") &&
  all_chars (fun c => negb (is_space c) && negb (is_newline c)) s.

Definition well_formed (l : line) : bool :=
  match l with
  | V x y z => token x && token y && token z
  | F a b c => is_safe_index a && is_safe_index b && is_safe_index c
  | Comment text => all_chars (fun c => negb (is_newline c)) text
  end.

Definition is_V (l : line) : bool := match l with V _ _ _ => true | _ => false end.
Definition is_F (l : line) : bool := match l with F _ _ _ => true | _ => false end.

(** What the lines of a text say the vertex and face arrays are. *)
Definition line_vertices (l : line) : list number :=
  match l with
  | V x y z => [parseFloat (Some x); parseFloat (Some y); parseFloat (Some z)]
  | _ => []
  end.

Definition line_faces (l : line) : list jsint :=
  match l with
  | F a b c => [Int (Z.of_nat a - 1); Int (Z.of_nat b - 1); Int (Z.of_nat c - 1)]
  | _ => []
  end.

(** ** Splitting a text into lines and a line into tokens *)

Section Split.

Variable sep : ascii -> bool.

Lemma all_chars_app f s1 s2 :
  all_chars f (s1 ++ s2)%string = all_chars f s1 && all_chars f s2.
Proof.
  induction s1 as [|c s1 IH]; simpl; [reflexivity|].
  rewrite IH. apply andb_assoc.
Qed.

Lemma all_chars_weaken (f g : ascii -> bool) s :
  (forall c, f c = true -> g c = true) ->
  all_chars f s = true -> all_chars g s = true.
Proof.
  intros Hfg. induction s as [|c s IH]; simpl; [reflexivity|].
  intros [Hc Hs]%andb_true_iff. rewrite (Hfg _ Hc), (IH Hs). reflexivity.
Qed.

(** A piece without separator is one token. *)
Lemma split_on_clean runs b s :
  all_chars (fun c => negb (sep c)) s = true ->
  split_on sep runs b s = [s].
Proof.
  revert b. induction s as [|c s IH]; intros b; simpl; [reflexivity|].
  intros [Hc Hs]%andb_true_iff. apply negb_true_iff in Hc. rewrite Hc.
  rewrite (IH false Hs). reflexivity.
Qed.

(** Cutting at single separators: the piece before the first separator,
    then the pieces of the rest. *)
Lemma split_on_single b s c rest :
  all_chars (fun c => negb (sep c)) s = true ->
  sep c = true ->
  split_on sep false b (s ++ String c rest)
  = s :: split_on sep false true rest.
Proof.
  intros Hs Hc. revert b Hs. induction s as [|a s IH]; intros b; simpl.
  - intros _. rewrite Hc. reflexivity.
  - intros [Ha Hs]%andb_true_iff. apply negb_true_iff in Ha. rewrite Ha.
    rewrite (IH false Hs). reflexivity.
Qed.

(** Cutting at runs of separators: a non-empty piece, a separator, and
    the pieces of the rest. *)
Lemma split_on_run b s c rest :
  s <> EmptyString ->
  all_chars (fun c => negb (sep c)) s = true ->
  sep c = true ->
  split_on sep true b (s ++ String c rest)
  = s :: split_on sep true true rest.
Proof.
  intros Hne Hs Hc. revert b Hne Hs.
  induction s as [|a s IH]; intros b Hne; [congruence|]. simpl.
  intros [Ha Hs]%andb_true_iff. apply negb_true_iff in Ha. rewrite Ha.
  destruct s as [|a' s'].
  - simpl. rewrite Hc. simpl. reflexivity.
  - rewrite (IH false); [reflexivity|discriminate|exact Hs].
Qed.

End Split.

(** The lines of a text that was put together from lines. *)
Lemma split_on_concat b (ls : list string) :
  Forall (fun s => all_chars (fun c => negb (is_newline c)) s = true) ls ->
  ls <> [] ->
  split_on is_newline false b (String.concat newline ls) = ls.
Proof.
  revert b. induction ls as [|s ls IH]; intros b Hall Hne; [congruence|].
  apply Forall_cons in Hall as [Hs Hall]. cbn [String.concat].
  destruct ls as [|s' ls'].
  - apply split_on_clean. exact Hs.
  - change (s ++ newline ++ String.concat newline (s' :: ls'))%string
      with (s ++ String "010"%char (String.concat newline (s' :: ls')))%string.
    rewrite split_on_single; [|exact Hs|reflexivity].
    f_equal. apply IH; [exact Hall|discriminate].
Qed.

Lemma split_lines_concat (ls : list string) :
  Forall (fun s => all_chars (fun c => negb (is_newline c)) s = true) ls ->
  ls <> [] ->
  split_lines (String.concat newline ls) = ls.
Proof. apply split_on_concat. Qed.

(** ** Decimal numerals *)

Import DecimalString.

Lemma uint_nonempty n : Nat.to_uint n <> Decimal.Nil.
Proof.
  intros H. pose proof (DecimalNat.Unsigned.of_to n) as Hn.
  rewrite H in Hn. cbn in Hn. subst n. discriminate H.
Qed.

Definition is_digit (c : ascii) : bool :=
  let n := nat_of_ascii c in ((48 <=? n) && (n <=? 57))%nat.

Lemma digits_only d : all_chars is_digit (NilEmpty.string_of_uint d) = true.
Proof. induction d; cbn; auto. Qed.

Lemma decimal_token n : token (decimal n) = true.
Proof.
  unfold token, decimal. apply andb_true_iff. split.
  - pose proof (uint_nonempty n) as H.
    destruct (Nat.to_uint n); [congruence|reflexivity..].
  - apply (all_chars_weaken is_digit); [|apply digits_only].
    intros c. unfold is_digit, is_space, is_newline.
    destruct c as [[|] [|] [|] [|] [|] [|] [|] [|]]; vm_compute; congruence.
Qed.

(** Reading the digits of a numeral back. *)
Lemma parse_digits_uint d (a : nat) :
  parse_digits 10 (Some (Z.of_nat a)) (NilEmpty.string_of_uint d)
  = Some (Z.of_nat (Nat.of_uint_acc d a)).
Proof.
  revert a. induction d; intros a; cbn [NilEmpty.string_of_uint parse_digits];
    [reflexivity|..];
    cbn [digit_val nat_of_ascii]; cbn -[Z.mul Z.add Nat.of_uint_acc];
    cbn [Nat.of_uint_acc]; rewrite <- IHd; repeat f_equal.
  all: rewrite ?Nat.tail_mul_spec.
  all: match goal with
       | |- context [nat_of_ascii ?c] =>
           let v := eval vm_compute in (nat_of_ascii c) in
           change (nat_of_ascii c) with v
       end; lia.
Qed.

Lemma parseInt_decimal n : parseInt (Some (decimal n)) = Int (Z.of_nat n).
Proof.
  unfold decimal.
  pose proof (DecimalNat.Unsigned.of_to n) as Hn.
  pose proof (uint_nonempty n) as Hne.
  revert Hn Hne. generalize (Nat.to_uint n). intros d Hn Hne.
  assert (Hd : parse_digits 10 None (NilEmpty.string_of_uint d)
               = Some (Z.of_nat n)).
  { rewrite <- Hn. unfold Nat.of_uint.
    destruct d; [congruence|..];
      cbn [NilEmpty.string_of_uint parse_digits];
      cbn [digit_val nat_of_ascii]; cbn -[Z.mul Z.add Nat.of_uint_acc];
      cbn [Nat.of_uint_acc];
      rewrite <- parse_digits_uint; reflexivity. }
  unfold parseInt.
  change (to_string_arg (Some (NilEmpty.string_of_uint d)))
    with (NilEmpty.string_of_uint d).
  assert (Hpre : trim_left (NilEmpty.string_of_uint d) = NilEmpty.string_of_uint d
                 /\ read_sign (NilEmpty.string_of_uint d)
                    = (false, NilEmpty.string_of_uint d)
                 /\ strip_hex (NilEmpty.string_of_uint d) = None).
  { destruct d as [|d|d|d|d|d|d|d|d|d|d]; [congruence|..];
      (split; [reflexivity|split; [reflexivity|]]);
      try reflexivity; destruct d; reflexivity. }
  destruct Hpre as (-> & -> & ->). rewrite Hd. reflexivity.
Qed.

(** ** The loop of [fromObj] over the lines *)

Lemma token_inv s :
  token s = true ->
  s <> EmptyString /\
  all_chars (fun c => negb (is_space c)) s = true /\
  all_chars (fun c => negb (is_newline c)) s = true.
Proof.
  unfold token. intros [Hne Hall]%andb_true_iff. repeat split.
  - intros ->. discriminate Hne.
  - revert Hall. apply all_chars_weaken. intros c [H _]%andb_true_iff. exact H.
  - revert Hall. apply all_chars_weaken. intros c [_ H]%andb_true_iff. exact H.
Qed.

(** The tokens of a line made of a keyword and three tokens. *)
Lemma split_spaces_4 (k a b c : string) :
  token k = true -> token a = true -> token b = true -> token c = true ->
  split_spaces (k ++ " " ++ a ++ " " ++ b ++ " " ++ c)%string = [k; a; b; c].
Proof.
  intros (Hk & Hks & _)%token_inv (Ha & Has & _)%token_inv
         (Hb & Hbs & _)%token_inv (Hc & Hcs & _)%token_inv.
  unfold split_spaces.
  change (k ++ " " ++ a ++ " " ++ b ++ " " ++ c)%string
    with (k ++ String " "%char (a ++ String " "%char (b ++ String " "%char c)))%string.
  rewrite !split_on_run by (assumption || reflexivity).
  rewrite split_on_clean by assumption. reflexivity.
Qed.

Lemma obj_line_V m x y z :
  well_formed (V x y z) = true ->
  obj_line m (render_line (V x y z))
  = set_vertices m (vertices m ++ line_vertices (V x y z)).
Proof.
  cbn [well_formed]. intros [[Hx Hy]%andb_true_iff Hz]%andb_true_iff.
  unfold obj_line, render_line.
  change ("v " ++ x ++ " " ++ y ++ " " ++ z)%string
    with ("v" ++ " " ++ x ++ " " ++ y ++ " " ++ z)%string.
  rewrite split_spaces_4 by (assumption || reflexivity).
  reflexivity.
Qed.

Lemma obj_line_F m a b c :
  obj_line m (render_line (F a b c))
  = set_faces m (faces m ++ line_faces (F a b c)).
Proof.
  unfold obj_line, render_line.
  change ("f " ++ decimal a ++ " " ++ decimal b ++ " " ++ decimal c)%string
    with ("f" ++ " " ++ decimal a ++ " " ++ decimal b ++ " " ++ decimal c)%string.
  rewrite split_spaces_4 by (apply decimal_token || reflexivity).
  cbn -[parseInt]. rewrite !parseInt_decimal. reflexivity.
Qed.

Lemma obj_line_Comment m text : obj_line m (render_line (Comment text)) = m.
Proof. reflexivity. Qed.

Lemma render_line_one_line l :
  well_formed l = true ->
  all_chars (fun c => negb (is_newline c)) (render_line l) = true.
Proof.
  destruct l as [x y z|a b c|text]; cbn [well_formed render_line].
  - intros [[(_ & _ & Hx)%token_inv (_ & _ & Hy)%token_inv]%andb_true_iff
            (_ & _ & Hz)%token_inv]%andb_true_iff.
    rewrite !all_chars_app, Hx, Hy, Hz. reflexivity.
  - intros _.
    destruct (token_inv _ (decimal_token a)) as (_ & _ & Ha).
    destruct (token_inv _ (decimal_token b)) as (_ & _ & Hb).
    destruct (token_inv _ (decimal_token c)) as (_ & _ & Hc).
    rewrite !all_chars_app, Ha, Hb, Hc. reflexivity.
  - intros H. cbn. exact H.
Qed.

(** How many lines of a kind a text has. *)
Fixpoint count (f : line -> bool) (ls : list line) : nat :=
  match ls with
  | [] => 0
  | l :: ls' => (if f l then 1 else 0) + count f ls'
  end.

Lemma obj_lines m ls :
  Forall (fun l => well_formed l = true) ls ->
  let m' := foldl obj_line m (map render_line ls) in
  vertices m' = vertices m ++ flat_map line_vertices ls /\
  faces m' = faces m ++ flat_map line_faces ls.
Proof.
  intros Hall. revert m. induction Hall as [|l ls Hl Hall IH]; intros m.
  - cbn. rewrite !app_nil_r. split; reflexivity.
  - cbn [map foldl flat_map]. cbv zeta in IH |- *.
    destruct (IH (obj_line m (render_line l))) as [Hv Hf].
    rewrite Hv, Hf. clear Hv Hf IH.
    destruct l as [x y z|a b c|text].
    + rewrite obj_line_V by exact Hl. cbn [vertices faces set_vertices].
      rewrite <- app_assoc. split; reflexivity.
    + rewrite obj_line_F. cbn [vertices faces set_faces line_vertices].
      rewrite <- app_assoc. split; reflexivity.
    + rewrite obj_line_Comment. split; reflexivity.
Qed.

Lemma length_line_vertices ls :
  length (flat_map line_vertices ls) = (3 * count is_V ls)%nat.
Proof.
  induction ls as [|[x y z|a b c|text] ls IH]; cbn [flat_map count is_V];
    rewrite ?length_app, ?IH; cbn [length line_vertices]; lia.
Qed.

Lemma length_line_faces ls :
  length (flat_map line_faces ls) = (3 * count is_F ls)%nat.
Proof.
  induction ls as [|[x y z|a b c|text] ls IH]; cbn [flat_map count is_F];
    rewrite ?length_app, ?IH; cbn [length line_faces]; lia.
Qed.

(** ** What the later stages leave alone *)

(** Two meshes with the same vertices, faces and counts. *)
Definition same_geometry (m m' : t) : Prop :=
  vertices m' = vertices m /\ faces m' = faces m /\
  numVertices m' = numVertices m /\ numFaces m' = numFaces m.

Lemma same_geometry_refl m : same_geometry m m.
Proof. repeat split. Qed.

Lemma same_geometry_trans m1 m2 m3 :
  same_geometry m1 m2 -> same_geometry m2 m3 -> same_geometry m1 m3.
Proof.
  intros (?&?&?&?) (?&?&?&?). repeat split; congruence.
Qed.

Lemma aabb_axis_geometry i m j : same_geometry m (aabb_axis i m j).
Proof.
  unfold aabb_axis.
  repeat match goal with |- context [if ?b then _ else _] => destruct b end;
    repeat split.
Qed.

Lemma aabb_vertex_geometry m i : same_geometry m (aabb_vertex m i).
Proof.
  unfold aabb_vertex. cbn [foldl].
  eapply same_geometry_trans; [|apply aabb_axis_geometry].
  eapply same_geometry_trans; [|apply aabb_axis_geometry].
  apply aabb_axis_geometry.
Qed.

Lemma computeAABB_geometry m : same_geometry m (computeAABB m).
Proof.
  unfold computeAABB. generalize (steps_of_3 (length (vertices m))).
  intros l. revert m. induction l as [|i l IH]; intros m; cbn [foldl].
  - apply same_geometry_refl.
  - eapply same_geometry_trans; [apply aabb_vertex_geometry|apply IH].
Qed.

Lemma finish_geometry normalize m : same_geometry m (finish normalize m).
Proof.
  unfold finish.
  destruct (computeAABB_geometry m) as (Hv & Hf & Hnv & Hnf).
  repeat split; cbn; assumption.
Qed.

Lemma finish_vertexBuffer normalize m :
  vertexBuffer (finish normalize m)
  = Some (mkBuffer (numVertices (computeAABB m))
                   (map fround (vertices (computeAABB m)))).
Proof. reflexivity. Qed.

Lemma finish_indexBuffer normalize m :
  indexBuffer (finish normalize m)
  = Some (mkBuffer (numFaces (computeAABB m) * 3)
                   (map to_uint32 (faces (computeAABB m)))).
Proof. reflexivity. Qed.

(** Both arrays that [fromObj] divides by 3 have a multiple of 3
    elements, whatever the text is. *)
Lemma obj_line_lengths m line :
  (length (vertices m) mod 3 = 0)%nat -> (length (faces m) mod 3 = 0)%nat ->
  (length (vertices (obj_line m line)) mod 3 = 0)%nat /\
  (length (faces (obj_line m line)) mod 3 = 0)%nat.
Proof.
  intros Hv Hf. unfold obj_line.
  repeat match goal with |- context [bool_decide ?P] => destruct (bool_decide P) end;
    cbn [vertices faces set_vertices set_faces]; unfold push3;
    rewrite ?length_app; cbn [length]; split; try assumption.
  - rewrite Nat.Div0.add_mod, Hv. reflexivity.
  - rewrite Nat.Div0.add_mod, Hf. reflexivity.
Qed.

Lemma fromObj_lengths (lines : list string) m :
  (length (vertices m) mod 3 = 0)%nat -> (length (faces m) mod 3 = 0)%nat ->
  (length (vertices (foldl obj_line m lines)) mod 3 = 0)%nat /\
  (length (faces (foldl obj_line m lines)) mod 3 = 0)%nat.
Proof.
  revert m. induction lines as [|l lines IH]; intros m Hv Hf; cbn [foldl].
  - split; assumption.
  - destruct (obj_line_lengths m l Hv Hf) as [Hv' Hf']. apply IH; assumption.
Qed.

(** A text with a comment, three vertices and a face. *)
Definition sample_lines : list line :=
  [Comment " one triangle"; V "0" "0" "0"; V "1.5" "0" "0"; V "0" "2" "0";
   F 1 2 3]%string.

(** ** Tokens that are not numerals *)











Lemma point_is_no_digit c : Ascii.eqb c "."%char = true -> digit_val 10 c = None.
Proof. intros ->%Ascii.eqb_eq. reflexivity. Qed.



(** ** What computeAABB computes *)

Definition lower (m y : number) : number := if lt y m then y else m.
Definition raise (m y : number) : number := if gt y m then y else m.

Lemma arr_get_app (pre rest : list number) (j : nat) :
  arr_get (pre ++ rest) (Int (Z.of_nat (length pre + j)))
  = default NaN (rest !! j).
Proof.
  unfold arr_get. destruct (Z.leb_spec 0 (Z.of_nat (length pre + j))); [|lia].
  rewrite Nat2Z.id. rewrite lookup_app_r by lia.
  replace (length pre + j - length pre)%nat with j by lia. reflexivity.
Qed.

Lemma arr_get_corner (a0 a1 a2 : number) (j : nat) :
  (j < 3)%nat ->
  arr_get [a0; a1; a2] (Int (Z.of_nat j)) = nth j [a0; a1; a2] NaN.
Proof. intros Hj. destruct j as [|[|[|j]]]; [reflexivity.. | lia]. Qed.

Lemma arr_set_corner (a0 a1 a2 v : number) (j : nat) :
  (j < 3)%nat ->
  arr_set [a0; a1; a2] (Int (Z.of_nat j)) v = <[j := v]> [a0; a1; a2].
Proof. intros Hj. destruct j as [|[|[|j]]]; [reflexivity.. | lia]. Qed.

(** One turn of the inner loop. *)
Lemma aabb_axis_step (i j : nat) (m : t) v a0 a1 a2 b0 b1 b2 :
  (j < 3)%nat ->
  arr_get (vertices m) (Int (Z.of_nat (i + j))) = v ->
  minXYZ m = [a0; a1; a2] -> maxXYZ m = [b0; b1; b2] ->
  vertices (aabb_axis i m j) = vertices m /\
  minXYZ (aabb_axis i m j) = <[j := lower (nth j [a0; a1; a2] NaN) v]> [a0; a1; a2] /\
  maxXYZ (aabb_axis i m j) = <[j := raise (nth j [b0; b1; b2] NaN) v]> [b0; b1; b2].
Proof.
  intros Hj Hv Hmin Hmax. unfold aabb_axis. rewrite Hv, Hmin.
  rewrite arr_get_corner, arr_set_corner by exact Hj.
  unfold lower, raise.
  destruct (lt v (nth j [a0; a1; a2] NaN));
    cbn [maxXYZ minXYZ vertices set_minXYZ]; rewrite Hmax;
    rewrite arr_get_corner, arr_set_corner by exact Hj;
    destruct (gt v (nth j [b0; b1; b2] NaN));
    cbn [maxXYZ minXYZ vertices set_minXYZ set_maxXYZ];
    rewrite ?Hmin, ?Hmax; repeat split.
  all: destruct j as [|[|[|j]]]; try lia; reflexivity.
Qed.

(** One turn of the outer loop, for the vertex that follows [pre]. *)
Lemma aabb_vertex_step (m : t) pre x y z rest a0 a1 a2 b0 b1 b2 :
  vertices m = pre ++ x :: y :: z :: rest ->
  minXYZ m = [a0; a1; a2] -> maxXYZ m = [b0; b1; b2] ->
  let m' := aabb_vertex m (length pre) in
  vertices m' = vertices m /\
  minXYZ m' = [lower a0 x; lower a1 y; lower a2 z] /\
  maxXYZ m' = [raise b0 x; raise b1 y; raise b2 z].
Proof.
  intros Hv Hmin Hmax. cbn zeta. unfold aabb_vertex. cbn [foldl].
  destruct (aabb_axis_step (length pre) 0 m x a0 a1 a2 b0 b1 b2)
    as (V0 & Mn0 & Mx0); [lia | rewrite Hv, arr_get_app; reflexivity | assumption.. |].
  cbn [nth] in Mn0, Mx0. cbn in Mn0, Mx0.
  set (m0 := aabb_axis (length pre) m 0) in *.
  destruct (aabb_axis_step (length pre) 1 m0 y _ _ _ _ _ _ ltac:(lia)
              ltac:(rewrite V0, Hv, arr_get_app; reflexivity) Mn0 Mx0)
    as (V1 & Mn1 & Mx1).
  cbn in Mn1, Mx1.
  set (m1 := aabb_axis (length pre) m0 1) in *.
  destruct (aabb_axis_step (length pre) 2 m1 z _ _ _ _ _ _ ltac:(lia)
              ltac:(rewrite V1, V0, Hv, arr_get_app; reflexivity) Mn1 Mx1)
    as (V2 & Mn2 & Mx2).
  cbn in Mn2, Mx2.
  repeat split; [congruence | exact Mn2 | exact Mx2].
Qed.

Lemma aabb_loop (n : nat) : forall (m : t) pre rest a0 a1 a2 b0 b1 b2 k,
  vertices m = pre ++ rest -> length pre = (3 * k)%nat ->
  length rest = (3 * n)%nat ->
  minXYZ m = [a0; a1; a2] -> maxXYZ m = [b0; b1; b2] ->
  let m' := foldl aabb_vertex m (map (fun t => (3 * t)%nat) (seq k n)) in
  minXYZ m' = [foldl lower a0 (axis_coords rest 0);
               foldl lower a1 (axis_coords rest 1);
               foldl lower a2 (axis_coords rest 2)] /\
  maxXYZ m' = [foldl raise b0 (axis_coords rest 0);
               foldl raise b1 (axis_coords rest 1);
               foldl raise b2 (axis_coords rest 2)].
Proof.
  induction n as [|n IH]; intros m pre rest a0 a1 a2 b0 b1 b2 k Hv Hpre Hrest Hmin Hmax.
  - destruct rest; [|discriminate]. cbn. split; assumption.
  - destruct rest as [|x [|y [|z rest]]]; try (cbn in Hrest; lia).
    cbn [seq map foldl]. rewrite <- Hpre.
    destruct (aabb_vertex_step m pre x y z rest a0 a1 a2 b0 b1 b2 Hv Hmin Hmax)
      as (V & Mn & Mx).
    cbn zeta in *.
    specialize (IH (aabb_vertex m (length pre)) (pre ++ [x; y; z]) rest
                   (lower a0 x) (lower a1 y) (lower a2 z)
                   (raise b0 x) (raise b1 y) (raise b2 z) (S k)).
    cbn [axis_coords foldl]. apply IH.
    + rewrite V, Hv, <- app_assoc. reflexivity.
    + rewrite length_app. cbn [length]. lia.
    + cbn [length] in Hrest. lia.
    + exact Mn.
    + exact Mx.
Qed.

(** The box that [computeAABB] leaves is the box of the vertices
    together with the corner it started from: on each axis the least of
    the old minimum and the coordinates, and the greatest of the old
    maximum and the coordinates.  The constructor sets both corners to
    the origin. *)
Lemma computeAABB_from (m : t) a0 a1 a2 b0 b1 b2 n :
  length (vertices m) = (3 * n)%nat ->
  minXYZ m = [a0; a1; a2] -> maxXYZ m = [b0; b1; b2] ->
  map Some (minXYZ (computeAABB m))
  = [least (a0 :: axis_coords (vertices m) 0);
     least (a1 :: axis_coords (vertices m) 1);
     least (a2 :: axis_coords (vertices m) 2)] /\
  map Some (maxXYZ (computeAABB m))
  = [greatest (b0 :: axis_coords (vertices m) 0);
     greatest (b1 :: axis_coords (vertices m) 1);
     greatest (b2 :: axis_coords (vertices m) 2)].
Proof.
  intros Hlen Hmin Hmax. unfold computeAABB, steps_of_3. rewrite Hlen.
  replace ((3 * n + 2) / 3)%nat with n
    by (apply Nat.div_unique with 2%nat; lia).
  destruct (aabb_loop n m [] (vertices m) a0 a1 a2 b0 b1 b2 0%nat)
    as [Mn Mx]; try assumption; try reflexivity.
  cbn zeta in *. rewrite Mn, Mx. split; reflexivity.
Qed.

(** A triangle in the positive octant. *)
Definition positive_triangle : string :=
  "v 1 1 1
v 2 1 1
v 1 3 1
f 1 2 3".

Definition three : number := of_Z 3.
Definition two : number := of_Z 2.

(** C1 (the code departs from the claim).  For the OBJ text of a triangle
    whose three vertices are (1,1,1), (2,1,1), (1,3,1), [fromObj] stores
    the box min = (0,0,0), max = (2,3,1), while the coordinate-wise
    minimum of the vertices is (1,1,1): computeAABB starts from the
    (0,0,0) that the constructor stored and only ever lowers it.  In
    general ([computeAABB_from]) the stored box is the box of the
    vertices and of the corners the mesh held before. *)
Theorem computeAABB_keeps_zero_minimum :
  forall (ext : bool) (normalize : vec3 -> vec3),
    let m := fst (fromObj ext normalize positive_triangle) in
    minXYZ m = [zero; zero; zero] /\
    maxXYZ m = [two; three; one] /\
    true_min (vertices m) = [Some one; Some one; Some one] /\
    true_max (vertices m) = [Some two; Some three; Some one].
Proof.
  intros ext normalize m. subst m.
  repeat split; destruct ext; vm_compute; reflexivity.
Qed.

(** ** Lines that are skipped, lines that are read *)








(** ** Whether fromObj returns *)










(** The mesh that [fromPlane] returns for an axis it does not know. *)
Definition unknown_axis (axis : string) : Prop :=
  ~ In axis ["x"; "X"; "y"; "Y"; "z"; "Z"]%string.

(** C10.  For an axis other than x, X, y, Y, z, Z, [fromPlane] returns a
    mesh with no vertex coordinates at all, the six face indices
    0 1 2 0 2 3, numVertices = 4 and numFaces = 2; every coordinate that
    [getVertex] reads for one of those indices is past the end of
    [vertices], so the vertex it returns is (NaN, NaN, NaN). *)
Theorem fromPlane_unknown_axis :
  forall (ext : bool) (normalize : vec3 -> vec3) (axis : string),
    unknown_axis axis ->
    let m := fst (fromPlane ext normalize axis) in
    vertices m = [] /\
    faces m = [Int 0; Int 1; Int 2; Int 0; Int 2; Int 3] /\
    numVertices m = 4%nat /\
    numFaces m = 2%nat /\
    forall id, In id (faces m) ->
      (exists z, id = Int z /\ 0 <= z /\
         forall k, (length (vertices m) <= Z.to_nat (3 * z + k))%nat) /\
      getVertex m id = mk NaN NaN NaN.
Proof.
  intros ext normalize axis Hax m.
  assert (Hm : m = fst (fromPlane ext normalize "?"%string)).
  { subst m. unfold fromPlane.
    unfold unknown_axis in Hax. cbn [In] in Hax.
    rewrite !bool_decide_eq_false_2 by (intros ->; tauto).
    destruct ext; reflexivity. }
  rewrite Hm. clear Hm m.
  assert (Hv : vertices (fst (fromPlane ext normalize "?"%string)) = [])
    by (destruct ext; reflexivity).
  assert (Hf : faces (fst (fromPlane ext normalize "?"%string))
               = [Int 0; Int 1; Int 2; Int 0; Int 2; Int 3])
    by (destruct ext; reflexivity).
  split; [exact Hv|]. split; [exact Hf|].
  split; [destruct ext; reflexivity|]. split; [destruct ext; reflexivity|].
  intros id Hid. rewrite Hf in Hid. unfold getVertex. rewrite Hv.
  cbn [In] in Hid.
  destruct Hid as [<-|[<-|[<-|[<-|[<-|[<-|[]]]]]]];
    (split; [eexists; split; [reflexivity|]; split; [lia|]; intros k; cbn; lia
            | reflexivity]).
Qed.

(** An axis that [fromPlane] does not know. *)
Lemma fromPlane_unknown_axis_witness :
  unknown_axis "w"%string /\
  vertices (fst (fromPlane true (fun v => v) "w"%string)) = [].
Proof.
  assert (H : unknown_axis "w"%string).
  { unfold unknown_axis. cbn [In]. intros H.
    repeat (destruct H as [H|H]; [discriminate H|]). exact H. }
  split; [exact H|].
  exact (proj1 (fromPlane_unknown_axis true (fun v => v) "w"%string H)).
Defined.

End MeshSpec.

(* ===================================================================== *)
(** * Properties of Shader                                                *)
(* ===================================================================== *)

Module ShaderSpec.

Import Shader.
Local Open Scope string_scope.

Section Host.

Variable getElementById : string -> option (list node).
Variable compile_status : glShader -> bool.
Variable link_status : glProgram -> bool.
Variable shaderInfoLog : glShader -> string.
Variable programInfoLog : glProgram -> string.

(** A compile failure is a null. *)
Lemma compileShader_failure source type :
  compile_status (mkGlShader type source) = false ->
  fst (compileShader compile_status shaderInfoLog source type) = None.
Proof. intros H. unfold compileShader. rewrite H. reflexivity. Qed.

(** A link failure is a null. *)
Lemma linkShaderProgram_failure v f :
  link_status (mkGlProgram v f) = false ->
  fst (linkShaderProgram link_status programInfoLog v f) = None.
Proof. intros H. unfold linkShaderProgram. rewrite H. reflexivity. Qed.

(** When one of the two shaders does not compile, [fromDOM] returns
    null. *)
Lemma fromDOM_compile_failure vertElem fragElem vsrc fsrc :
  loadDOMScriptSource getElementById vertElem = Returns vsrc ->
  loadDOMScriptSource getElementById fragElem = Returns fsrc ->
  compile_status (mkGlShader VERTEX_SHADER vsrc) = false \/
  compile_status (mkGlShader FRAGMENT_SHADER fsrc) = false ->
  fst (fromDOM getElementById compile_status link_status
               shaderInfoLog programInfoLog vertElem fragElem)
  = Returns None.
Proof.
  intros Hv Hf H. unfold fromDOM, compileShader. rewrite Hv, Hf.
  destruct (compile_status (mkGlShader VERTEX_SHADER vsrc)),
           (compile_status (mkGlShader FRAGMENT_SHADER fsrc));
    cbn; try reflexivity.
  destruct H; discriminate.
Qed.

(** When both compile and the link fails, [fromDOM] returns a Shader
    object whose program is null. *)
Lemma fromDOM_link_failure vertElem fragElem vsrc fsrc :
  loadDOMScriptSource getElementById vertElem = Returns vsrc ->
  loadDOMScriptSource getElementById fragElem = Returns fsrc ->
  compile_status (mkGlShader VERTEX_SHADER vsrc) = true ->
  compile_status (mkGlShader FRAGMENT_SHADER fsrc) = true ->
  link_status (mkGlProgram (mkGlShader VERTEX_SHADER vsrc)
                           (mkGlShader FRAGMENT_SHADER fsrc)) = false ->
  fst (fromDOM getElementById compile_status link_status
               shaderInfoLog programInfoLog vertElem fragElem)
  = Returns (Some (mkShader None)).
Proof.
  intros Hv Hf Hcv Hcf Hl. unfold fromDOM, compileShader, linkShaderProgram.
  rewrite Hv, Hf, Hcv, Hcf. cbn. rewrite Hl. reflexivity.
Qed.

End Host.

(** A page with two script elements, each holding one text node, on a
    context where every shader compiles and no program links. *)
Definition page (id : string) : option (list node) :=
  if String.eqb id "vs" then Some [mkNode 3 "void main() { gl_Position = vec4(0.0); }"]
  else if String.eqb id "fs" then Some [mkNode 3 "void main() { }"]
  else None.

(** C3 (the code departs from the claim).  On a context where both
    shaders compile and the program does not link, [fromDOM] alerts and
    logs, and returns a Shader object (whose [program] is null), not
    null. *)
Theorem fromDOM_link_failure_not_null :
  fromDOM page (fun _ => true) (fun _ => false) (fun _ => "") (fun _ => "log")
          "vs" "fs"
  = (Returns (Some (mkShader None)),
     [Alert "Failed to link shader!"; ConsoleLog "Error linking shader: log"]).
Proof. reflexivity. Qed.

End ShaderSpec.

(* ===================================================================== *)
(** * Properties of Texture                                               *)
(* ===================================================================== *)

Module TextureSpec.

Import Texture.

#[local] Instance event_eq_dec : EqDecision event.
Proof. solve_decision. Defined.

(** Whether the browser has told image [k] that it loaded. *)
Definition loaded (es : list event) (k : nat) : bool :=
  bool_decide (Load k ∈ es).

(** The images with their promises after the events [es]. *)
Definition after (imgs : list image) (es : list event)
  : list (image * promise image) :=
  imap (fun k img => (img, if loaded es k then Resolved img else Pending)) imgs.

(** The state in which [cubemapFromUrl] would leave images made by
    [imageFromUrl]. *)
Definition start (imgs : list image) : state :=
  mkState (map (fun img => (img, Pending)) imgs) Pending [] [].

(** An image as [imageFromUrl] makes it: [onload] resolves, [onerror]
    is not set. *)
Definition from_imageFromUrl (img : image) : Prop :=
  onload img = Some ResolveWithImage /\ onerror img = None.

Definition all_loaded (n : nat) (es : list event) : bool :=
  forallb (loaded es) (seq 0 n).

(** What the callback of [then] does to the context. *)
Definition calls_of (imgs : list image) : list glcall :=
  [CreateTexture; BindTexture TEXTURE_CUBE_MAP] ++
  map (fun v => TexImage2D (extra v) v) imgs ++
  [TexParameteri TEXTURE_CUBE_MAP TEXTURE_MAG_FILTER LINEAR;
   TexParameteri TEXTURE_CUBE_MAP TEXTURE_MIN_FILTER LINEAR;
   TexParameteri TEXTURE_CUBE_MAP TEXTURE_WRAP_S CLAMP_TO_EDGE;
   TexParameteri TEXTURE_CUBE_MAP TEXTURE_WRAP_T CLAMP_TO_EDGE].

Lemma run_snoc s es e : run s (es ++ [e]) = step (run s es) e.
Proof. unfold run. rewrite foldl_app. reflexivity. Qed.

Lemma loaded_nil k : loaded [] k = false.
Proof. unfold loaded. apply bool_decide_eq_false_2. apply not_elem_of_nil. Qed.

Lemma loaded_snoc es e k :
  loaded (es ++ [e]) k = loaded es k || bool_decide (e = Load k).
Proof.
  unfold loaded.
  destruct (bool_decide (Load k ∈ es)) eqn:H1;
    destruct (bool_decide (e = Load k)) eqn:H2; cbn;
    [apply bool_decide_eq_true_2..|apply bool_decide_eq_false_2];
    rewrite elem_of_app, list_elem_of_singleton;
    try apply bool_decide_eq_true in H1; try apply bool_decide_eq_true in H2;
    try apply bool_decide_eq_false in H1; try apply bool_decide_eq_false in H2;
    intuition congruence.
Qed.

Lemma loaded_mono es e k : loaded es k = true -> loaded (es ++ [e]) k = true.
Proof. intros H. rewrite loaded_snoc, H. reflexivity. Qed.

Lemma settle_images s : images (settle s) = images s.
Proof.
  unfold settle. destruct (result s); [|reflexivity..].
  destruct (promise_all _); reflexivity.
Qed.

(** The promises follow the [Load] events, and nothing else. *)
Lemma images_run imgs es :
  Forall from_imageFromUrl imgs ->
  images (run (start imgs) es) = after imgs es.
Proof.
  intros Himgs. induction es as [|e es IH] using rev_ind.
  - cbn. unfold after. apply list_eq. intros i.
    rewrite list_lookup_imap, list_lookup_fmap.
    destruct (imgs !! i); cbn; [rewrite loaded_nil|]; reflexivity.
  - rewrite run_snoc. unfold step. rewrite settle_images. cbn [images].
    rewrite IH. apply list_eq. intros i.
    remember (event_target e) as k eqn:Hke.
    assert (Hi : after imgs (es ++ [e]) !! i
                 = (fun img => (img, if loaded (es ++ [e]) i then Resolved img
                                     else Pending)) <$> imgs !! i)
      by (unfold after; apply list_lookup_imap).
    assert (Hi' : forall j, after imgs es !! j
                 = (fun img => (img, if loaded es j then Resolved img
                                     else Pending)) <$> imgs !! j)
      by (intros j; unfold after; apply list_lookup_imap).
    rewrite Hi. clear Hi.
    destruct (after imgs es !! k) as [ip|] eqn:Hk.
    + rewrite list_lookup_insert. rewrite Hi'.
      rewrite Hi' in Hk.
      destruct (imgs !! k) as [img|] eqn:Himg; [|discriminate].
      cbn in Hk. injection Hk as <-.
      assert (Hfrom : from_imageFromUrl img).
      { rewrite Forall_lookup in Himgs. exact (Himgs _ _ Himg). }
      destruct Hfrom as [Hon Herr].
      case_decide as Hcase.
      * destruct Hcase as [-> Hlt]. rewrite Himg. cbn [fmap option_fmap option_map].
        f_equal. rewrite loaded_snoc. unfold dispatch.
        destruct e as [j|j]; cbn [event_target] in Hke; subst j.
        -- rewrite Hon. rewrite bool_decide_eq_true_2 by reflexivity.
           rewrite orb_true_r. destruct (loaded es i); reflexivity.
        -- rewrite Herr. rewrite bool_decide_eq_false_2 by discriminate.
           rewrite orb_false_r. destruct (loaded es i); reflexivity.
      * destruct (imgs !! i) as [img'|] eqn:Himg'; [|reflexivity].
        cbn [fmap option_fmap option_map]. do 2 f_equal.
        rewrite loaded_snoc.
        assert (Hne : bool_decide (e = Load i) = false).
        { apply bool_decide_eq_false_2. intros ->. apply Hcase.
          split; [exact Hke|].
          unfold after. rewrite length_imap.
          apply lookup_lt_Some in Himg. exact Himg. }
        rewrite Hne, orb_false_r. reflexivity.
    + rewrite Hi'. rewrite Hi' in Hk.
      destruct (imgs !! i) as [img'|] eqn:Himg'; [|reflexivity].
      cbn [fmap option_fmap option_map]. do 2 f_equal.
      rewrite loaded_snoc.
      assert (Hne : bool_decide (e = Load i) = false).
      { apply bool_decide_eq_false_2. intros ->. cbn in Hke. subst k.
        rewrite Himg' in Hk. discriminate. }
      rewrite Hne, orb_false_r. reflexivity.
Qed.

Lemma forallb_seq_S (p : nat -> bool) n :
  forallb p (seq 0 (S n)) = p 0%nat && forallb (fun k => p (S k)) (seq 0 n).
Proof.
  cbn [seq forallb]. f_equal. rewrite <- seq_shift.
  induction (seq 0 n) as [|a l IH]; cbn; [reflexivity|]. rewrite IH. reflexivity.
Qed.

(** The join is fulfilled, with the images in the order of the array,
    exactly when every image has loaded. *)
Lemma promise_all_imap (p : nat -> bool) (imgs : list image) :
  promise_all
    (map snd (imap (fun k img => (img, if p k then Resolved img else Pending)) imgs))
  = if forallb p (seq 0 (length imgs)) then Resolved imgs else Pending.
Proof.
  revert p. induction imgs as [|img imgs IH]; intros p; [reflexivity|].
  cbn [imap map snd promise_all length]. rewrite forallb_seq_S.
  change (imap ((fun k img0 => (img0, if p k then Resolved img0 else Pending)) ∘ S) imgs)
    with (imap (fun k img0 => (img0, if p (S k) then Resolved img0 else Pending)) imgs).
  rewrite (IH (fun k => p (S k))).
  destruct (p 0%nat); cbn [andb]; [|destruct (forallb _ _); reflexivity].
  destruct (forallb _ _); reflexivity.
Qed.

Lemma all_loaded_mono n es e :
  all_loaded n es = true -> all_loaded n (es ++ [e]) = true.
Proof.
  unfold all_loaded. rewrite !forallb_forall.
  intros H k Hk. apply loaded_mono. apply H. exact Hk.
Qed.

(** The returned promise and the calls on the context, after any
    events. *)
Lemma state_run imgs es :
  Forall from_imageFromUrl imgs ->
  imgs <> [] ->
  let s := run (start imgs) es in
  if all_loaded (length imgs) es
  then result s = Resolved (mkTexture (Some TEXTURE_CUBE_MAP)) /\
       glcalls s = calls_of imgs /\ logged s = imgs
  else result s = Pending /\ glcalls s = [] /\ logged s = [].
Proof.
  intros Himgs Hne. induction es as [|e es IH] using rev_ind.
  - cbn zeta. destruct imgs as [|img imgs]; [congruence|].
    unfold all_loaded. cbn [length]. rewrite forallb_seq_S, loaded_nil.
    repeat split.
  - cbn zeta in *.
    pose proof (images_run imgs (es ++ [e]) Himgs) as Himages.
    rewrite run_snoc in *. unfold step in *.
    rewrite settle_images in Himages. cbn [images] in Himages.
    rewrite Himages. unfold settle. cbn [result images glcalls logged].
    unfold after. rewrite promise_all_imap. fold (all_loaded (length imgs) (es ++ [e])).
    destruct (all_loaded (length imgs) es) eqn:Hall.
    + destruct IH as (Hr & Hg & Hl). rewrite Hr.
      rewrite (all_loaded_mono _ _ e Hall). cbn. auto.
    + destruct IH as (Hr & Hg & Hl). rewrite Hr.
      destruct (all_loaded (length imgs) (es ++ [e])).
      * unfold on_all. cbn. rewrite Hg, Hl. repeat split.
      * cbn. auto.
Qed.

(** ** cubemapFromUrl *)

Section Cubemap.

Variables negX negY negZ posX posY posZ : string.

Definition face_images : list image :=
  [mkImage negX (Some TEXTURE_CUBE_MAP_NEGATIVE_X) (Some ResolveWithImage) None;
   mkImage negY (Some TEXTURE_CUBE_MAP_NEGATIVE_Y) (Some ResolveWithImage) None;
   mkImage negZ (Some TEXTURE_CUBE_MAP_NEGATIVE_Z) (Some ResolveWithImage) None;
   mkImage posX (Some TEXTURE_CUBE_MAP_POSITIVE_X) (Some ResolveWithImage) None;
   mkImage posY (Some TEXTURE_CUBE_MAP_POSITIVE_Y) (Some ResolveWithImage) None;
   mkImage posZ (Some TEXTURE_CUBE_MAP_POSITIVE_Z) (Some ResolveWithImage) None].

Lemma cubemap_start :
  cubemapFromUrl negX negY negZ posX posY posZ = start face_images.
Proof. reflexivity. Qed.

Lemma face_images_from : Forall from_imageFromUrl face_images.
Proof. repeat constructor. Qed.

Lemma all_loaded_6 es :
  all_loaded 6 es = true <-> forall k, (k < 6)%nat -> Load k ∈ es.
Proof.
  unfold all_loaded. rewrite forallb_forall. split.
  - intros H k Hk. specialize (H k). unfold loaded in H.
    apply bool_decide_eq_true in H; [exact H|]. apply in_seq. lia.
  - intros H k Hk%in_seq. unfold loaded. apply bool_decide_eq_true_2.
    apply H. lia.
Qed.

(** The six uploads, in the order in which the faces were asked for. *)
Definition uploads_in_order : list (option target * string) :=
  [(Some TEXTURE_CUBE_MAP_NEGATIVE_X, negX);
   (Some TEXTURE_CUBE_MAP_NEGATIVE_Y, negY);
   (Some TEXTURE_CUBE_MAP_NEGATIVE_Z, negZ);
   (Some TEXTURE_CUBE_MAP_POSITIVE_X, posX);
   (Some TEXTURE_CUBE_MAP_POSITIVE_Y, posY);
   (Some TEXTURE_CUBE_MAP_POSITIVE_Z, posZ)].

Definition is_resolved {A} (p : promise A) : Prop := exists v, p = Resolved v.

(** C5.  Whatever events reach the six images and in whatever order, the
    promise that [cubemapFromUrl] returned is fulfilled exactly when
    each of the six images has loaded; until then nothing is uploaded,
    and from then on the uploads are the six faces in the order -X, -Y,
    -Z, +X, +Y, +Z, each with the image of its own url. *)
Theorem cubemap_resolves_after_all_in_order :
  forall es : list event,
    let s := run (cubemapFromUrl negX negY negZ posX posY posZ) es in
    (is_resolved (result s) <-> forall k, (k < 6)%nat -> Load k ∈ es) /\
    (is_resolved (result s) -> uploads s = uploads_in_order) /\
    (~ is_resolved (result s) -> uploads s = []).
Proof.
  intros es s. subst s. rewrite cubemap_start.
  pose proof (state_run face_images es face_images_from) as H.
  cbn zeta in H. specialize (H ltac:(discriminate)).
  change (length face_images) with 6%nat in H.
  rewrite <- all_loaded_6.
  destruct (all_loaded 6 es); destruct H as (Hr & Hg & _).
  - split; [|split].
    + split; [reflexivity|]. intros _. eexists. exact Hr.
    + intros _. unfold uploads. rewrite Hg. reflexivity.
    + intros Hn. exfalso. apply Hn. eexists. exact Hr.
  - split; [|split].
    + split; [|discriminate]. intros [v Hv]. rewrite Hr in Hv. discriminate.
    + intros [v Hv]. rewrite Hr in Hv. discriminate.
    + intros _. unfold uploads. rewrite Hg. reflexivity.
Qed.

(** C8.  No promise of the six is ever rejected, nor is the promise that
    [cubemapFromUrl] returned.  An image that has not loaded (the
    browser fires [error], for which no handler is installed, not
    [load]) leaves its promise pending, and with it the promise that
    [cubemapFromUrl] returned, whatever happens to the other images. *)
Theorem image_failure_never_settles :
  forall es : list event,
    let s := run (cubemapFromUrl negX negY negZ posX posY posZ) es in
    result s <> Rejected /\
    (forall k img p, images s !! k = Some (img, p) -> p <> Rejected) /\
    (forall k, (k < 6)%nat -> Load k ∉ es ->
       (exists img, images s !! k = Some (img, Pending)) /\ result s = Pending).
Proof.
  intros es s. subst s. rewrite cubemap_start.
  pose proof (state_run face_images es face_images_from) as H.
  cbn zeta in H. specialize (H ltac:(discriminate)).
  change (length face_images) with 6%nat in H.
  pose proof (images_run face_images es face_images_from) as Himg.
  split; [|split].
  - destruct (all_loaded 6 es); destruct H as (Hr & _); rewrite Hr; discriminate.
  - intros k img p. rewrite Himg. unfold after. rewrite list_lookup_imap.
    destruct (face_images !! k) as [img'|]; [|discriminate].
    cbn. intros [= <- <-]. destruct (loaded es k); discriminate.
  - intros k Hk Hnot. split.
    + rewrite Himg. unfold after. rewrite list_lookup_imap.
      destruct (lookup_lt_is_Some_2 face_images k Hk) as [img' Himg'].
      rewrite Himg'. cbn. exists img'.
      unfold loaded. rewrite bool_decide_eq_false_2 by exact Hnot. reflexivity.
    + destruct (all_loaded 6 es) eqn:Hall; [|apply H].
      exfalso. apply Hnot. apply all_loaded_6; assumption.
Qed.

End Cubemap.

(** The image of +X fails to load; the others load, in some order. *)
Definition one_failure : list event :=
  [Load 2; Load 0; Error 3; Load 5; Load 1; Load 4].

Lemma image_failure_never_settles_witness :
  (Load 3 ∉ one_failure) /\
  result (run (cubemapFromUrl "nx" "ny" "nz" "px" "py" "pz") one_failure)
  = Pending.
Proof.
  assert (H : Load 3 ∉ one_failure).
  { unfold one_failure. rewrite !not_elem_of_cons.
    repeat split; try discriminate. apply not_elem_of_nil. }
  split; [exact H|].
  destruct (image_failure_never_settles "nx" "ny" "nz" "px" "py" "pz" one_failure)
    as (_ & _ & Hk).
  assert (H3 : (3 < 6)%nat) by lia.
  exact (proj2 (Hk 3%nat H3 H)).
Defined.

(** All six load, +Z first and -X last. *)
Definition all_load : list event :=
  [Load 5; Load 4; Load 3; Error 7; Load 2; Load 1; Load 0].

Lemma cubemap_resolves_after_all_in_order_witness :
  uploads (run (cubemapFromUrl "nx" "ny" "nz" "px" "py" "pz") all_load)
  = uploads_in_order "nx" "ny" "nz" "px" "py" "pz".
Proof.
  destruct (cubemap_resolves_after_all_in_order
              "nx" "ny" "nz" "px" "py" "pz" all_load) as (Hiff & Hup & _).
  apply Hup. apply Hiff. intros k Hk. unfold all_load.
  do 6 (destruct k as [|k]; [repeat constructor|]). lia.
Defined.

End TextureSpec.

(* ===================================================================== *)
(** * Properties of Mesh.generateNormals                                  *)
(* ===================================================================== *)

Module NormalsSpec.

Import Vec3 Mesh.

#[local] Instance jsint_eq_dec : EqDecision jsint.
Proof. solve_decision. Defined.

Section Spec.

Variable normalize : vec3 -> vec3.

(** ** The algorithm as the specification words it *)

(** The corners of face [i]. *)
Definition corners (m : t) (i : nat) : list jsint :=
  [int_get (faces m) (3 * i); int_get (faces m) (3 * i + 1);
   int_get (faces m) (3 * i + 2)].

(** The cross product of the two edge vectors v2 - v1 and v3 - v1 of
    face [i]: its unnormalised normal. *)
Definition unnormalized (m : t) (i : nat) : vec3 :=
  let v1 := getVertex m (int_get (faces m) (3 * i)) in
  let v2 := getVertex m (int_get (faces m) (3 * i + 1)) in
  let v3 := getVertex m (int_get (faces m) (3 * i + 2)) in
  cross (subtract v2 v1) (subtract v3 v1).

(** Adding the normal [n] into the slot of vertex [k] for each corner
    that is [k]. *)
Definition add_for_corner (k : nat) (n : vec3) (acc : vec3) (c : jsint) : vec3 :=
  if decide (c = Int (Z.of_nat k)) then Vec3.add acc n else acc.

(** What vertex [k] has accumulated after the first [count] faces. *)
Definition accumulated (m : t) (count k : nat) : vec3 :=
  foldl (fun acc i => foldl (add_for_corner k (unnormalized m i)) acc (corners m i))
        (mk zero zero zero) (seq 0 count).

(** The normal of vertex [k]. *)
Definition vertex_normal (m : t) (k : nat) : vec3 :=
  normalize (accumulated m (numFaces m) k).

Definition normals_spec (m : t) : list number :=
  flat_map (fun k => to_list (vertex_normal m k)) (seq 0 (numVertices m)).

End Spec.

(** ** Reading and writing an element that is there *)

(** [new Array(n)] takes a length below 2^32. *)
Definition array_length (n : nat) : Prop := (Z.of_nat n <= 4294967295)%Z.

Lemma arr_get_lookup (a : list number) (s : nat) x :
  a !! s = Some x -> arr_get a (Int (Z.of_nat s)) = x.
Proof.
  intros H. unfold arr_get.
  destruct (Z.leb_spec 0 (Z.of_nat s)); [|lia].
  rewrite Nat2Z.id, H. reflexivity.
Qed.

Lemma arr_set_length (a : list number) k x : (length a <= length (arr_set a k x))%nat.
Proof.
  unfold arr_set. destruct k as [|z]; [lia|].
  destruct (is_array_index z); [|lia].
  destruct (Nat.ltb_spec (Z.to_nat z) (length a)).
  - rewrite length_insert. lia.
  - rewrite length_app. lia.
Qed.

Lemma arr_set_lookup (a : list number) k x (s : nat) :
  (s < length a)%nat -> array_length (length a) ->
  arr_set a k x !! s
  = if decide (k = Int (Z.of_nat s)) then Some x else a !! s.
Proof.
  intros Hs Hlen. unfold array_length in Hlen. unfold arr_set.
  destruct k as [|z].
  { rewrite decide_False by discriminate. reflexivity. }
  unfold is_array_index.
  destruct (Z.leb_spec 0 z); cbn [andb].
  2:{ rewrite decide_False by (intros [= ->]; lia). reflexivity. }
  destruct (Z.ltb_spec z 4294967295).
  2:{ rewrite decide_False by (intros [= ->]; lia). reflexivity. }
  destruct (Nat.ltb_spec (Z.to_nat z) (length a)).
  - destruct (decide (Int z = Int (Z.of_nat s))) as [[= ->]|Hne].
    + rewrite Nat2Z.id. apply list_lookup_insert_eq. exact Hs.
    + apply list_lookup_insert_ne. intros Heq. apply Hne. f_equal. lia.
  - rewrite decide_False by (intros [= ->]; lia).
    apply lookup_app_l. exact Hs.
Qed.

Lemma add_at_length (a : list number) k x : (length a <= length (add_at a k x))%nat.
Proof. apply arr_set_length. Qed.

Lemma add_at_lookup (a : list number) k x (s : nat) v :
  a !! s = Some v -> array_length (length a) ->
  add_at a k x !! s
  = Some (if decide (k = Int (Z.of_nat s)) then Js.add v x else v).
Proof.
  intros Hv Hlen. unfold add_at.
  rewrite arr_set_lookup by (eauto using lookup_lt_Some).
  destruct (decide (k = Int (Z.of_nat s))) as [->|]; [|exact Hv].
  rewrite (arr_get_lookup a s v Hv). reflexivity.
Qed.

Lemma arr_set_array_length (a : list number) k x :
  array_length (length a) -> array_length (length (arr_set a k x)).
Proof.
  unfold array_length, arr_set. intros H. destruct k as [|z]; [exact H|].
  unfold is_array_index.
  destruct (Z.leb_spec 0 z); cbn [andb]; [|exact H].
  destruct (Z.ltb_spec z 4294967295); [|exact H].
  destruct (Nat.ltb_spec (Z.to_nat z) (length a)).
  - rewrite length_insert. exact H.
  - rewrite !length_app, length_replicate. cbn [length]. lia.
Qed.

(** ** The accumulation loop *)

(** The key [3 * v + j] names the slot [3 * k + j'] only for [v = k] and
    [j = j']. *)
Lemma key_names_slot v (j k j' : nat) :
  (j < 3)%nat -> (j' < 3)%nat ->
  iadd (imul (Int 3) v) (Int (Z.of_nat j)) = Int (Z.of_nat (3 * k + j'))
  <-> v = Int (Z.of_nat k) /\ j = j'.
Proof.
  intros Hj Hj'. destruct v as [|z]; cbn [imul iadd].
  - split; [discriminate|intros [? _]; discriminate].
  - split.
    + intros [= H]. split; [f_equal|]; lia.
    + intros [[= ->] ->]. f_equal. lia.
Qed.

(** What the three [+=] of one face and one axis add to a number that
    sits in the slot of vertex [k]. *)
Definition bump (k : nat) (cs : list jsint) (x nj : number) : number :=
  foldl (fun x c => if decide (c = Int (Z.of_nat k)) then Js.add x nj else x) x cs.

Lemma accumulate_axis_lookup v1 v2 v3 n (a : list number) (j k j' : nat) x :
  (j < 3)%nat -> (j' < 3)%nat ->
  a !! (3 * k + j')%nat = Some x -> array_length (length a) ->
  accumulate_axis v1 v2 v3 n a j !! (3 * k + j')%nat
  = Some (if decide (j = j') then bump k [v1; v2; v3] x (get n j) else x).
Proof.
  intros Hj Hj' Hx Hlen. unfold accumulate_axis, bump. cbn [foldl].
  pose proof (key_names_slot v1 j k j' Hj Hj') as K1.
  pose proof (key_names_slot v2 j k j' Hj Hj') as K2.
  pose proof (key_names_slot v3 j k j' Hj Hj') as K3.
  erewrite add_at_lookup;
    [|erewrite add_at_lookup;
       [reflexivity|erewrite add_at_lookup; [reflexivity|exact Hx|exact Hlen]|]|].
  2:{ apply arr_set_array_length. exact Hlen. }
  2:{ do 2 apply arr_set_array_length. exact Hlen. }
  f_equal.
  destruct (decide (j = j')) as [->|Hne].
  - repeat match goal with
           | |- context [decide (iadd ?a ?b = ?c)] =>
               destruct (decide (iadd a b = c)) as [?H|?H]
           | |- context [decide (?v = Int (Z.of_nat k))] =>
               destruct (decide (v = Int (Z.of_nat k))) as [?H|?H]
           end; try reflexivity; exfalso; tauto.
  - repeat match goal with
           | |- context [decide (iadd ?a ?b = ?c)] =>
               destruct (decide (iadd a b = c)) as [?H|?H]
           end; try reflexivity; exfalso; tauto.
Qed.

Lemma accumulate_axis_length v1 v2 v3 n (a : list number) j :
  (length a <= length (accumulate_axis v1 v2 v3 n a j))%nat /\
  (array_length (length a) ->
   array_length (length (accumulate_axis v1 v2 v3 n a j))).
Proof.
  unfold accumulate_axis, add_at. split.
  - repeat (etransitivity; [|apply arr_set_length]). reflexivity.
  - intros H. do 3 apply arr_set_array_length. exact H.
Qed.

(** A slot of a vertex holds a component of a vector. *)
Definition holds (a : list number) (k : nat) (v : vec3) : Prop :=
  forall j, (j < 3)%nat -> a !! (3 * k + j)%nat = Some (get v j).

Lemma get_add_for_corner k n acc cs j :
  (j < 3)%nat ->
  get (foldl (add_for_corner k n) acc cs) j = bump k cs (get acc j) (get n j).
Proof.
  intros Hj. unfold bump. revert acc.
  induction cs as [|c cs IH]; intros acc; [reflexivity|].
  cbn [foldl]. rewrite IH. f_equal. unfold add_for_corner.
  destruct (decide (c = Int (Z.of_nat k))); [|reflexivity].
  destruct j as [|[|[|j]]]; try reflexivity; lia.
Qed.

Lemma accumulate_face_holds m (a : list number) i k acc :
  array_length (length a) -> holds a k acc ->
  holds (accumulate_face m a i) k
        (foldl (add_for_corner k (unnormalized m i)) acc (corners m i)).
Proof.
  intros Hlen H j Hj. unfold accumulate_face. cbn [foldl].
  fold (unnormalized m i).
  change (cross _ _) with (unnormalized m i).
  set (v1 := int_get (faces m) (3 * i)).
  set (v2 := int_get (faces m) (3 * i + 1)).
  set (v3 := int_get (faces m) (3 * i + 2)).
  set (n := face_normal m v1 v2 v3).
  assert (Hn : n = unnormalized m i) by reflexivity.
  pose proof (accumulate_axis_length v1 v2 v3 n a 0) as [_ L0].
  pose proof (accumulate_axis_length v1 v2 v3 n
                (accumulate_axis v1 v2 v3 n a 0) 1) as [_ L1].
  rewrite get_add_for_corner by exact Hj.
  erewrite accumulate_axis_lookup;
    [|lia|exact Hj|
      erewrite accumulate_axis_lookup;
        [reflexivity|lia|exact Hj|
         erewrite accumulate_axis_lookup; [reflexivity|lia|exact Hj|apply H; exact Hj|exact Hlen]|
         apply L0; exact Hlen]|
      apply L1; apply L0; exact Hlen].
  f_equal. rewrite <- Hn. fold (corners m i).
  change (corners m i) with [v1; v2; v3].
  destruct j as [|[|[|j]]]; [| | |lia];
    repeat match goal with
           | |- context [decide (?x = ?y :> nat)] =>
               destruct (decide (x = y)); try lia
           end; reflexivity.
Qed.

Lemma accumulate_face_length m (a : list number) i :
  (length a <= length (accumulate_face m a i))%nat /\
  (array_length (length a) -> array_length (length (accumulate_face m a i))).
Proof.
  unfold accumulate_face. cbn [foldl].
  set (v1 := int_get (faces m) (3 * i)).
  set (v2 := int_get (faces m) (3 * i + 1)).
  set (v3 := int_get (faces m) (3 * i + 2)).
  set (n := face_normal m v1 v2 v3).
  pose proof (accumulate_axis_length v1 v2 v3 n a 0) as [A0 L0].
  pose proof (accumulate_axis_length v1 v2 v3 n
                (accumulate_axis v1 v2 v3 n a 0) 1) as [A1 L1].
  pose proof (accumulate_axis_length v1 v2 v3 n
                (accumulate_axis v1 v2 v3 n
                   (accumulate_axis v1 v2 v3 n a 0) 1) 2) as [A2 L2].
  split; [lia|]. intros H. apply L2, L1, L0, H.
Qed.

(** After the loop over the first [count] faces, the slots of every
    vertex hold what the vertex has accumulated. *)
Lemma accumulate_loop m (nv count : nat) :
  array_length (nv * 3) ->
  let a := foldl (accumulate_face m) (replicate (nv * 3) zero) (seq 0 count) in
  (nv * 3 <= length a)%nat /\ array_length (length a) /\
  forall k, (k < nv)%nat -> holds a k (accumulated m count k).
Proof.
  intros Hlen. induction count as [|count IH].
  - cbn. rewrite length_replicate. split; [lia|]. split; [exact Hlen|].
    intros k Hk j Hj. rewrite lookup_replicate_2 by lia.
    destruct j as [|[|[|j]]]; try reflexivity; lia.
  - cbn zeta in *. rewrite seq_S, foldl_app. cbn [foldl Nat.add].
    destruct IH as (Hge & Hal & Hh).
    set (a := foldl (accumulate_face m) (replicate (nv * 3) zero) (seq 0 count)) in *.
    pose proof (accumulate_face_length m a count) as [A L].
    split; [lia|]. split; [apply L; exact Hal|].
    intros k Hk. unfold accumulated. rewrite seq_S, foldl_app. cbn [foldl Nat.add].
    apply accumulate_face_holds; [exact Hal|]. apply Hh. exact Hk.
Qed.

(** ** The normalisation loop *)

Lemma arr_set_in_range (a : list number) (s : nat) x :
  (s < length a)%nat -> array_length (length a) ->
  arr_set a (Int (Z.of_nat s)) x = <[s := x]> a.
Proof.
  intros Hs Hlen. unfold array_length in Hlen. unfold arr_set, is_array_index.
  destruct (Z.leb_spec 0 (Z.of_nat s)); [|lia].
  destruct (Z.ltb_spec (Z.of_nat s) 4294967295); [|lia]. cbn [andb].
  rewrite Nat2Z.id.
  destruct (Nat.ltb_spec s (length a)); [reflexivity|lia].
Qed.

Lemma vec3_eta v : mk (get v 0) (get v 1) (get v 2) = v.
Proof. destruct v. reflexivity. Qed.

Section Normalize.

Variable normalize : vec3 -> vec3.

Lemma normalize_vertex_spec (a : list number) i v :
  (3 * i + 2 < length a)%nat -> array_length (length a) -> holds a i v ->
  normalize_vertex normalize a i
  = <[(3 * i + 2)%nat := get (normalize v) 2]>
      (<[(3 * i + 1)%nat := get (normalize v) 1]>
         (<[(3 * i)%nat := get (normalize v) 0]> a)).
Proof.
  intros Hi Hlen H. unfold normalize_vertex.
  replace (Z.of_nat (3 * i) + 1) with (Z.of_nat (3 * i + 1)) by lia.
  replace (Z.of_nat (3 * i) + 2) with (Z.of_nat (3 * i + 2)) by lia.
  pose proof (H 0%nat ltac:(lia)) as H0. rewrite Nat.add_0_r in H0.
  rewrite (arr_get_lookup a _ _ H0).
  rewrite (arr_get_lookup a _ _ (H 1%nat ltac:(lia))).
  rewrite (arr_get_lookup a _ _ (H 2%nat ltac:(lia))).
  unfold fromValues. rewrite vec3_eta.
  rewrite (arr_set_in_range a) by (assumption || lia).
  rewrite (arr_set_in_range (<[_ := _]> a))
    by (rewrite length_insert; assumption || lia).
  rewrite (arr_set_in_range (<[_ := _]> (<[_ := _]> a)))
    by (rewrite !length_insert; assumption || lia).
  reflexivity.
Qed.

Lemma normalize_vertex_holds (a : list number) i v :
  (3 * i + 2 < length a)%nat -> array_length (length a) -> holds a i v ->
  length (normalize_vertex normalize a i) = length a /\
  holds (normalize_vertex normalize a i) i (normalize v) /\
  forall k w, k <> i -> holds a k w -> holds (normalize_vertex normalize a i) k w.
Proof.
  intros Hi Hlen H. rewrite (normalize_vertex_spec a i v Hi Hlen H).
  split; [rewrite !length_insert; reflexivity|]. split.
  - intros j Hj. destruct j as [|[|[|j]]]; [| | |lia].
    + rewrite Nat.add_0_r.
      rewrite !list_lookup_insert_ne by lia.
      apply list_lookup_insert_eq. lia.
    + rewrite list_lookup_insert_ne by lia.
      apply list_lookup_insert_eq. rewrite length_insert. lia.
    + apply list_lookup_insert_eq. rewrite !length_insert. lia.
  - intros k w Hk Hw j Hj.
    rewrite !list_lookup_insert_ne by lia. apply Hw. exact Hj.
Qed.

Lemma normalize_loop (a : list number) (nv : nat) (acc : nat -> vec3) count :
  (nv * 3 <= length a)%nat -> array_length (length a) ->
  (forall k, (k < nv)%nat -> holds a k (acc k)) ->
  (count <= nv)%nat ->
  let a' := foldl (normalize_vertex normalize) a (seq 0 count) in
  length a' = length a /\
  forall k, (k < nv)%nat ->
    holds a' k (if (k <? count)%nat then normalize (acc k) else acc k).
Proof.
  intros Hge Hlen Hacc. induction count as [|count IH]; intros Hc.
  - cbn. split; [reflexivity|]. intros k Hk. apply Hacc. exact Hk.
  - cbn zeta in *. rewrite seq_S, foldl_app. cbn [foldl Nat.add].
    destruct (IH ltac:(lia)) as [Hl Hh].
    set (a1 := foldl (normalize_vertex normalize) a (seq 0 count)) in *.
    assert (Hcount : holds a1 count (acc count)).
    { specialize (Hh count ltac:(lia)). rewrite Nat.ltb_irrefl in Hh. exact Hh. }
    destruct (normalize_vertex_holds a1 count (acc count))
      as (Hl' & Hown & Hother); [lia|rewrite Hl; exact Hlen|exact Hcount|].
    split; [lia|]. intros k Hk.
    destruct (Nat.eq_dec k count) as [->|Hne].
    + rewrite (proj2 (Nat.ltb_lt count (S count))) by lia. exact Hown.
    + apply Hother; [exact Hne|].
      specialize (Hh k Hk).
      destruct (Nat.ltb_spec k count), (Nat.ltb_spec k (S count));
        try lia; exact Hh.
Qed.

(** [generateNormals], vertex by vertex. *)
Lemma generateNormals_holds (m : t) :
  array_length (numVertices m * 3) ->
  (numVertices m * 3 <= length (normals (generateNormals normalize m)))%nat /\
  forall k, (k < numVertices m)%nat ->
    holds (normals (generateNormals normalize m)) k (vertex_normal normalize m k).
Proof.
  intros Hlen. unfold generateNormals.
  cbn [normals set_normals numNormals set_numNormals numFaces].
  change (accumulate_face (set_numNormals m (numVertices m)))
    with (accumulate_face m).
  destruct (accumulate_loop m (numVertices m) (numFaces m) Hlen)
    as (Hge & Hal & Hh).
  cbn zeta in *.
  set (a := foldl (accumulate_face m) (replicate (numVertices m * 3) zero)
                  (seq 0 (numFaces m))) in *.
  destruct (normalize_loop a (numVertices m)
              (accumulated m (numFaces m)) (numVertices m) Hge Hal Hh)
    as [Hl Hn]; [lia|].
  split; [lia|]. intros k Hk. specialize (Hn k Hk).
  rewrite (proj2 (Nat.ltb_lt k (numVertices m)) Hk) in Hn. exact Hn.
Qed.

End Normalize.

(** ** The whole array, and the single triangle *)

Lemma holds_take (a : list number) (v : nat -> vec3) (nv : nat) :
  (forall k, (k < nv)%nat -> holds a k (v k)) ->
  take (nv * 3) a = flat_map (fun k => to_list (v k)) (seq 0 nv).
Proof.
  induction nv as [|nv IH]; intros H; [reflexivity|].
  rewrite seq_S, flat_map_app. cbn [flat_map Nat.add]. rewrite app_nil_r.
  rewrite <- IH by (intros k Hk; apply H; lia).
  pose proof (H nv ltac:(lia)) as Hnv.
  pose proof (Hnv 0%nat ltac:(lia)) as H0.
  pose proof (Hnv 1%nat ltac:(lia)) as H1.
  pose proof (Hnv 2%nat ltac:(lia)) as H2.
  replace (S nv * 3)%nat with (S (S (S (nv * 3)))) by lia.
  replace (3 * nv + 0)%nat with (nv * 3)%nat in H0 by lia.
  replace (3 * nv + 1)%nat with (S (nv * 3)) in H1 by lia.
  replace (3 * nv + 2)%nat with (S (S (nv * 3))) in H2 by lia.
  rewrite (take_S_r _ _ _ H2), (take_S_r _ _ _ H1), (take_S_r _ _ _ H0).
  rewrite <- !app_assoc. reflexivity.
Qed.

Lemma add_zero_l x : Js.add zero x = x.
Proof.
  destruct x as [| | |q]; try reflexivity.
  cbn. f_equal. ring.
Qed.

Lemma vec3_add_zero_l n : Vec3.add (mk zero zero zero) n = n.
Proof.
  destruct n as [a b c]. unfold Vec3.add. cbn [Vec3.x Vec3.y Vec3.z].
  rewrite !add_zero_l. reflexivity.
Qed.

Lemma arr_set_same_length (a : list number) z x :
  0 <= z < Z.of_nat (length a) -> array_length (length a) ->
  length (arr_set a (Int z) x) = length a.
Proof.
  intros Hz Hlen. unfold array_length in Hlen. unfold arr_set, is_array_index.
  destruct (Z.leb_spec 0 z); [|lia].
  destruct (Z.ltb_spec z 4294967295); [|lia]. cbn [andb].
  destruct (Nat.ltb_spec (Z.to_nat z) (length a)); [|lia].
  apply length_insert.
Qed.

Lemma add_at_same_length (a : list number) z x :
  0 <= z < Z.of_nat (length a) -> array_length (length a) ->
  length (add_at a (Int z) x) = length a.
Proof. apply arr_set_same_length. Qed.

Lemma accumulate_axis_same_length z1 z2 z3 n (a : list number) (j : nat) :
  (j < 3)%nat -> 0 <= z1 -> 0 <= z2 -> 0 <= z3 ->
  3 * z1 + 2 < Z.of_nat (length a) ->
  3 * z2 + 2 < Z.of_nat (length a) ->
  3 * z3 + 2 < Z.of_nat (length a) ->
  array_length (length a) ->
  length (accumulate_axis (Int z1) (Int z2) (Int z3) n a j) = length a.
Proof.
  intros Hj P1 P2 P3 B1 B2 B3 Hlen. unfold accumulate_axis. cbn [imul iadd].
  set (a1 := add_at a _ _).
  assert (L1 : length a1 = length a)
    by (apply add_at_same_length; [lia|exact Hlen]).
  set (a2 := add_at a1 _ _).
  assert (L2 : length a2 = length a).
  { subst a2. rewrite add_at_same_length;
      [exact L1|rewrite L1; lia|rewrite L1; exact Hlen]. }
  rewrite add_at_same_length;
    [exact L2|rewrite L2; lia|rewrite L2; exact Hlen].
Qed.

(** A face whose corners are vertices of the mesh does not lengthen the
    array. *)
Lemma accumulate_face_same_length m (a : list number) i z1 z2 z3 :
  corners m i = [Int z1; Int z2; Int z3] ->
  0 <= z1 -> 0 <= z2 -> 0 <= z3 ->
  3 * z1 + 2 < Z.of_nat (length a) ->
  3 * z2 + 2 < Z.of_nat (length a) ->
  3 * z3 + 2 < Z.of_nat (length a) ->
  array_length (length a) ->
  length (accumulate_face m a i) = length a.
Proof.
  unfold corners, accumulate_face.
  set (v1 := int_get (faces m) (3 * i)).
  set (v2 := int_get (faces m) (3 * i + 1)).
  set (v3 := int_get (faces m) (3 * i + 2)).
  intros [= E1 E2 E3] P1 P2 P3 B1 B2 B3 Hlen.
  rewrite E1, E2, E3. cbn [foldl].
  set (n := face_normal m _ _ _).
  set (a1 := accumulate_axis _ _ _ n a 0).
  assert (L1 : length a1 = length a)
    by (apply accumulate_axis_same_length; assumption || lia).
  set (a2 := accumulate_axis _ _ _ n a1 1).
  assert (L2 : length a2 = length a).
  { subst a2. rewrite accumulate_axis_same_length;
      rewrite ?L1; assumption || lia. }
  rewrite accumulate_axis_same_length; rewrite ?L2; assumption || lia.
Qed.

Section Triangle.

Variable normalize : vec3 -> vec3.

(** The corners of the one face are the three vertices, in some
    order. *)
Definition single_triangle (m : t) (a b c : nat) : Prop :=
  numVertices m = 3%nat /\ numFaces m = 1%nat /\
  faces m = [Int (Z.of_nat a); Int (Z.of_nat b); Int (Z.of_nat c)] /\
  (a < 3)%nat /\ (b < 3)%nat /\ (c < 3)%nat /\ a <> b /\ b <> c /\ a <> c.

(** The normalised cross product of the two edge vectors of the triangle
    whose corners are [a b c]. *)
Definition triangle_normal (m : t) (a b c : nat) : vec3 :=
  let v1 := getVertex m (Int (Z.of_nat a)) in
  let v2 := getVertex m (Int (Z.of_nat b)) in
  let v3 := getVertex m (Int (Z.of_nat c)) in
  normalize (cross (subtract v2 v1) (subtract v3 v1)).

Lemma triangle_vertex_normal m a b c k :
  single_triangle m a b c -> (k < 3)%nat ->
  vertex_normal normalize m k = triangle_normal m a b c.
Proof.
  intros (Hnv & Hnf & Hf & Ha & Hb & Hc & Hab & Hbc & Hac) Hk.
  unfold vertex_normal, triangle_normal, accumulated. rewrite Hnf.
  cbn [seq foldl]. unfold corners, unnormalized. rewrite Hf.
  cbn [int_get lookup list_lookup Nat.mul Nat.add default]. unfold id.
  f_equal. cbn [foldl]. unfold add_for_corner.
  repeat match goal with
         | |- context [decide (Int (Z.of_nat ?x) = Int (Z.of_nat k))] =>
             destruct (decide (Int (Z.of_nat x) = Int (Z.of_nat k)))
               as [[= ?%Nat2Z.inj]|?]
         end; subst; try congruence; try apply vec3_add_zero_l.
  exfalso.
  assert (a <> k) by congruence. assert (b <> k) by congruence.
  assert (c <> k) by congruence. lia.
Qed.

Lemma triangle_length m a b c :
  single_triangle m a b c ->
  length (normals (generateNormals normalize m)) = 9%nat.
Proof.
  intros (Hnv & Hnf & Hf & Ha & Hb & Hc & _).
  unfold generateNormals.
  cbn [normals set_normals numNormals set_numNormals numFaces].
  change (accumulate_face (set_numNormals m (numVertices m)))
    with (accumulate_face m).
  rewrite Hnv, Hnf.
  change (foldl (accumulate_face m) (replicate (3 * 3) zero) (seq 0 1))
    with (accumulate_face m (replicate (3 * 3) zero) 0).
  assert (Hacc : length (accumulate_face m (replicate (3 * 3) zero) 0) = 9%nat).
  { erewrite accumulate_face_same_length; [reflexivity| | | | | | | |].
    - unfold corners. rewrite Hf. reflexivity.
    - lia.
    - lia.
    - lia.
    - rewrite length_replicate. lia.
    - rewrite length_replicate. lia.
    - rewrite length_replicate. lia.
    - rewrite length_replicate. unfold array_length. lia. }
  set (acc := accumulate_face m (replicate (3 * 3) zero) 0) in *.
  assert (Hl : length (foldl (normalize_vertex normalize) acc (seq 0 3))
               = length acc).
  { apply (normalize_loop normalize acc 3
             (fun k => mk (default NaN (acc !! (3 * k)%nat))
                          (default NaN (acc !! (3 * k + 1)%nat))
                          (default NaN (acc !! (3 * k + 2)%nat))) 3).
    - rewrite Hacc. lia.
    - rewrite Hacc. unfold array_length. lia.
    - intros k Hk j Hj.
      destruct (lookup_lt_is_Some_2 acc (3 * k + j)) as [x Hx]; [lia|].
      rewrite Hx. f_equal.
      destruct j as [|[|[|j]]]; [| | |lia]; cbn [get Vec3.x Vec3.y Vec3.z];
        rewrite ?Nat.add_0_r in Hx; rewrite Hx; reflexivity.
    - lia. }
  rewrite Hl. exact Hacc.
Qed.

End Triangle.

(** A mesh with one triangle, listed from its second vertex. *)
Definition one_triangle : t :=
  mkMesh [zero; zero; zero;  one; zero; zero;  zero; one; zero]
         [Int 1; Int 2; Int 0] [] 1 3 [zero; zero; zero] [zero; zero; zero]
         0 None None None.

(** C2.  For every mesh whose normals array has a valid length,
    [generateNormals] leaves in the three slots of each vertex [k] the
    components of [normalize] applied to the sum, taken face by face and
    corner by corner, of the cross products (v2 - v1) x (v3 - v1) of the
    faces that have [k] as a corner; the first 3 * numVertices entries
    of the array are the normals so specified, vertex after vertex.  For
    a mesh of a single triangle the array is, three times over, the
    normalised cross product of the two edge vectors of the triangle. *)
Theorem generateNormals_accumulates_and_normalizes :
  forall (normalize : vec3 -> vec3) (m : t),
    array_length (numVertices m * 3) ->
    let result := normals (generateNormals normalize m) in
    (forall k, (k < numVertices m)%nat ->
       holds result k (vertex_normal normalize m k)) /\
    take (numVertices m * 3) result = normals_spec normalize m /\
    (forall a b c, single_triangle m a b c ->
       let n := triangle_normal normalize m a b c in
       result = to_list n ++ to_list n ++ to_list n).
Proof.
  intros normalize m Hlen result. subst result.
  destruct (generateNormals_holds normalize m Hlen) as [Hge Hh].
  split; [exact Hh|]. split.
  - unfold normals_spec. apply holds_take. exact Hh.
  - intros a b c Htri n. subst n.
    pose proof (triangle_length normalize m a b c Htri) as Hl.
    pose proof Htri as (Hnv & _).
    assert (Hall : normals (generateNormals normalize m)
                   = take (numVertices m * 3) (normals (generateNormals normalize m))).
    { symmetry. apply take_ge. rewrite Hl, Hnv. lia. }
    rewrite Hall.
    rewrite (holds_take _ (vertex_normal normalize m) _ Hh). rewrite Hnv.
    cbn [seq flat_map]. rewrite app_nil_r.
    rewrite !(triangle_vertex_normal normalize m a b c) by (exact Htri || lia).
    reflexivity.
Qed.

Lemma generateNormals_accumulates_and_normalizes_witness :
  array_length (numVertices one_triangle * 3) /\
  single_triangle one_triangle 1 2 0 /\
  normals (generateNormals (fun v => v) one_triangle)
  = [zero; zero; one;  zero; zero; one;  zero; zero; one].
Proof.
  assert (Hlen : array_length (numVertices one_triangle * 3))
    by (unfold array_length; cbn; lia).
  assert (Htri : single_triangle one_triangle 1 2 0)
    by (unfold single_triangle; cbn; repeat split; lia).
  split; [exact Hlen|]. split; [exact Htri|].
  destruct (generateNormals_accumulates_and_normalizes (fun v => v) one_triangle Hlen)
    as (_ & _ & H).
  rewrite (H 1%nat 2%nat 0%nat Htri).
  unfold triangle_normal, to_list. cbn.
  repeat f_equal; apply Qc_is_canon; reflexivity.
Defined.

End NormalsSpec.

(* ===================================================================== *)
(** * Which arrays a computation writes                                   *)
(* ===================================================================== *)

Module Frame.

Import Heap.

(** From [s] to [s'] every array that existed and is not in [W] is
    what it was. *)
Definition preserves (W : list loc) (s s' : store) : Prop :=
  (length s <= length s')%nat /\
  forall l, (l < length s)%nat -> l ∉ W -> s' !! l = s !! l.

(** [m] writes, among the arrays that exist when it starts, only those
    of [W]. *)
Definition modifies {A} (W : list loc) (m : M A) : Prop :=
  forall s, preserves W s (snd (m s)).

(** [m] returns an array that did not exist when it started. *)
Definition returns_fresh (m : M loc) : Prop :=
  forall s, (length s <= fst (m s))%nat.

Lemma preserves_refl W s : preserves W s s.
Proof. split; [lia|auto]. Qed.

Lemma preserves_trans W s1 s2 s3 :
  preserves W s1 s2 -> preserves W s2 s3 -> preserves W s1 s3.
Proof.
  intros [L1 H1] [L2 H2]. split; [lia|].
  intros l Hl HW. rewrite H2 by (lia || exact HW). apply H1; assumption.
Qed.

Lemma modifies_weaken {A} W W' (m : M A) :
  (forall l, l ∈ W -> l ∈ W') -> modifies W m -> modifies W' m.
Proof.
  intros Hsub H s. destruct (H s) as [L P]. split; [exact L|].
  intros l Hl HW. apply P; [exact Hl|]. intros Hin. apply HW, Hsub, Hin.
Qed.

Lemma modifies_ret {A} W (a : A) : modifies W (mret a).
Proof. intros s. apply preserves_refl. Qed.

Lemma modifies_rd W l i : modifies W (rd l i).
Proof. intros s. apply preserves_refl. Qed.

Lemma modifies_rd_all W l : modifies W (rd_all l).
Proof. intros s. apply preserves_refl. Qed.

Lemma modifies_wr W l i x : l ∈ W -> modifies W (wr l i x).
Proof.
  intros Hin s. unfold wr. cbn [snd].
  destruct (s !! l) as [a|] eqn:Hl; [|apply preserves_refl].
  split; [rewrite length_insert; lia|].
  intros l' Hl' HW. apply list_lookup_insert_ne. intros ->. exact (HW Hin).
Qed.

Lemma modifies_alloc W init : modifies W (alloc init).
Proof.
  intros s. unfold alloc. cbn [snd]. split; [rewrite length_app; lia|].
  intros l Hl _. apply lookup_app_l. exact Hl.
Qed.

Lemma alloc_fresh init : returns_fresh (alloc init).
Proof. intros s. cbn. lia. Qed.

Lemma modifies_bind {A B} W (m : M A) (f : A -> M B) :
  modifies W m -> (forall a, modifies W (f a)) -> modifies W (m ≫= f).
Proof.
  intros Hm Hf s. unfold mbind, M_bind, bind.
  specialize (Hm s). destruct (m s) as [a s1]. cbn [snd] in Hm.
  eapply preserves_trans; [exact Hm|apply Hf].
Qed.

(** What is done to a fresh array does not count. *)
Lemma modifies_bind_fresh {B} W (m : M loc) (f : loc -> M B) :
  modifies W m -> returns_fresh m ->
  (forall t, modifies (t :: W) (f t)) -> modifies W (m ≫= f).
Proof.
  intros Hm Hfresh Hf s. unfold mbind, M_bind, bind.
  specialize (Hm s). specialize (Hfresh s).
  destruct (m s) as [t s1]. cbn [fst snd] in *.
  destruct Hm as [L1 P1]. destruct (Hf t s1) as [L2 P2].
  split; [lia|]. intros l Hl HW.
  rewrite P2; [apply P1; assumption|lia|].
  rewrite not_elem_of_cons. split; [lia|exact HW].
Qed.

Lemma modifies_wr_from W l i xs : l ∈ W -> modifies W (wr_from l i xs).
Proof.
  intros Hin. revert i. induction xs as [|x xs IH]; intros i; cbn [wr_from].
  - apply modifies_ret.
  - apply modifies_bind; [apply modifies_wr; exact Hin|intros _; apply IH].
Qed.

Lemma modifies_if {A} W (b : bool) (m1 m2 : M A) :
  modifies W m1 -> modifies W m2 -> modifies W (if b then m1 else m2).
Proof. destruct b; auto. Qed.

(** [m] allocates nothing. *)
Definition keeps_length {A} (m : M A) : Prop :=
  forall s, length (snd (m s)) = length s.

Lemma keeps_length_ret {A} (a : A) : keeps_length (mret a).
Proof. intros s. reflexivity. Qed.

Lemma keeps_length_rd l i : keeps_length (rd l i).
Proof. intros s. reflexivity. Qed.

Lemma keeps_length_rd_all l : keeps_length (rd_all l).
Proof. intros s. reflexivity. Qed.

Lemma keeps_length_wr l i x : keeps_length (wr l i x).
Proof.
  intros s. unfold wr. cbn [snd].
  destruct (s !! l); [apply length_insert|reflexivity].
Qed.

Lemma keeps_length_bind {A B} (m : M A) (f : A -> M B) :
  keeps_length m -> (forall a, keeps_length (f a)) -> keeps_length (m ≫= f).
Proof.
  intros Hm Hf s. unfold mbind, M_bind, bind.
  specialize (Hm s). destruct (m s) as [a s1]. cbn [snd] in Hm.
  rewrite Hf. exact Hm.
Qed.

Lemma keeps_length_wr_from l i xs : keeps_length (wr_from l i xs).
Proof.
  revert i. induction xs as [|x xs IH]; intros i; cbn [wr_from].
  - apply keeps_length_ret.
  - apply keeps_length_bind; [apply keeps_length_wr|intros _; apply IH].
Qed.

(** Running a bind whose first part is known. *)
Lemma run_bind {A B} (m : M A) (f : A -> M B) s a s' :
  m s = (a, s') -> (m ≫= f) s = f a s'.
Proof. intros H. unfold mbind, M_bind, bind. rewrite H. reflexivity. Qed.

Lemma run_alloc {B} init (f : loc -> M B) s :
  (alloc init ≫= f) s = f (length s) (s ++ [init]).
Proof. reflexivity. Qed.

Lemma run_rd {B} l i (f : number -> M B) s :
  (rd l i ≫= f) s = f (el (default [] (s !! l)) i) s.
Proof. reflexivity. Qed.

Lemma run_rd_all {B} l (f : list number -> M B) s :
  (rd_all l ≫= f) s = f (default [] (s !! l)) s.
Proof. reflexivity. Qed.

(** Membership in a list that is written out. *)
Ltac solve_elem :=
  solve [repeat first [assumption
                      | apply list_elem_of_here
                      | apply list_elem_of_further]].

(** One step of a proof that a computation writes only [W] or keeps the
    length of the store, chosen by the shape of the computation. *)
Ltac frame_step :=
  lazymatch goal with
  | |- modifies _ (mret _) => apply modifies_ret
  | |- modifies _ (rd _ _) => apply modifies_rd
  | |- modifies _ (rd_all _) => apply modifies_rd_all
  | |- modifies _ (alloc _) => apply modifies_alloc
  | |- modifies _ (wr _ _ _) => apply modifies_wr; solve_elem
  | |- modifies _ (wr_from _ _ _) => apply modifies_wr_from; solve_elem
  | |- modifies _ (if ?b then _ else _) => destruct b
  | |- modifies _ (match (if ?b then _ else _) with _ => _ end) => destruct b
  | |- modifies _ (alloc _ ≫= _) =>
      apply modifies_bind_fresh;
        [apply modifies_alloc | apply alloc_fresh | intros ?]
  | |- modifies _ (_ ≫= _) => apply modifies_bind; [|intros ?]
  | |- keeps_length (mret _) => apply keeps_length_ret
  | |- keeps_length (rd _ _) => apply keeps_length_rd
  | |- keeps_length (rd_all _) => apply keeps_length_rd_all
  | |- keeps_length (wr _ _ _) => apply keeps_length_wr
  | |- keeps_length (wr_from _ _ _) => apply keeps_length_wr_from
  | |- keeps_length (if ?b then _ else _) => destruct b
  | |- keeps_length (match (if ?b then _ else _) with _ => _ end) => destruct b
  | |- keeps_length (_ ≫= _) => apply keeps_length_bind; [|intros ?]
  end.

Ltac frame := cbv zeta; repeat frame_step.

End Frame.

(* ===================================================================== *)
(** * Properties of Camera                                                *)
(* ===================================================================== *)

Module CameraSpec.

Import Heap GlMatrix Camera Frame.

Section Host.

Variable Math_sqrt : number -> number.
Variable Math_sin : number -> number.
Variable Math_cos : number -> number.
Variable degToRad : number -> number.

(** ** What gl-matrix writes: its [out] *)

Lemma vec3_add_modifies W out a b : out ∈ W -> modifies W (vec3_add out a b).
Proof. intros H. unfold vec3_add. frame. Qed.

Lemma vec3_subtract_modifies W out a b :
  out ∈ W -> modifies W (vec3_subtract out a b).
Proof. intros H. unfold vec3_subtract. frame. Qed.

Lemma vec3_transformQuat_modifies W out a q :
  out ∈ W -> modifies W (vec3_transformQuat out a q).
Proof. intros H. unfold vec3_transformQuat. frame. Qed.

Lemma quat_conjugate_modifies W out a :
  out ∈ W -> modifies W (quat_conjugate out a).
Proof. intros H. unfold quat_conjugate. frame. Qed.

Lemma quat_rotateX_modifies W out a rad :
  out ∈ W -> modifies W (quat_rotateX Math_sin Math_cos out a rad).
Proof. intros H. unfold quat_rotateX. frame. Qed.

Lemma quat_rotateY_modifies W out a rad :
  out ∈ W -> modifies W (quat_rotateY Math_sin Math_cos out a rad).
Proof. intros H. unfold quat_rotateY. frame. Qed.

Lemma quat_rotateZ_modifies W out a rad :
  out ∈ W -> modifies W (quat_rotateZ Math_sin Math_cos out a rad).
Proof. intros H. unfold quat_rotateZ. frame. Qed.

Lemma quat_setAxisAngle_modifies W out axis rad :
  out ∈ W -> modifies W (quat_setAxisAngle Math_sin Math_cos out axis rad).
Proof. intros H. unfold quat_setAxisAngle. frame. Qed.

Lemma quat_multiply_modifies W out a b :
  out ∈ W -> modifies W (quat_multiply out a b).
Proof. intros H. unfold quat_multiply. frame. Qed.

Lemma mat4_fromQuat_modifies W out q :
  out ∈ W -> modifies W (mat4_fromQuat out q).
Proof. intros H. unfold mat4_fromQuat. frame. Qed.

Lemma mat4_fromTranslation_modifies W out v :
  out ∈ W -> modifies W (mat4_fromTranslation out v).
Proof. intros H. unfold mat4_fromTranslation. frame. Qed.

Lemma mat4_multiply_modifies W out a b :
  out ∈ W -> modifies W (mat4_multiply out a b).
Proof. intros H. unfold mat4_multiply, mul_step. frame. Qed.

Lemma mat4_lookAt_modifies W out eye center up :
  out ∈ W -> modifies W (mat4_lookAt Math_sqrt out eye center up).
Proof. intros H. unfold mat4_lookAt, mat4_identity. frame. Qed.

Lemma vec3_add_keeps_length out a b : keeps_length (vec3_add out a b).
Proof. unfold vec3_add. frame. Qed.

Lemma mat4_lookAt_keeps_length out eye center up :
  keeps_length (mat4_lookAt Math_sqrt out eye center up).
Proof. unfold mat4_lookAt, mat4_identity. frame. Qed.

(** ** What the methods write *)

Ltac glmatrix_step :=
  lazymatch goal with
  | |- modifies _ (vec3_add _ _ _) => apply vec3_add_modifies; solve_elem
  | |- modifies _ (vec3_subtract _ _ _) => apply vec3_subtract_modifies; solve_elem
  | |- modifies _ (vec3_transformQuat _ _ _) =>
      apply vec3_transformQuat_modifies; solve_elem
  | |- modifies _ (quat_conjugate _ _) => apply quat_conjugate_modifies; solve_elem
  | |- modifies _ (quat_rotateX _ _ _ _ _) => apply quat_rotateX_modifies; solve_elem
  | |- modifies _ (quat_rotateY _ _ _ _ _) => apply quat_rotateY_modifies; solve_elem
  | |- modifies _ (quat_rotateZ _ _ _ _ _) => apply quat_rotateZ_modifies; solve_elem
  | |- modifies _ (quat_setAxisAngle _ _ _ _ _) =>
      apply quat_setAxisAngle_modifies; solve_elem
  | |- modifies _ (quat_multiply _ _ _) => apply quat_multiply_modifies; solve_elem
  | |- modifies _ (mat4_fromQuat _ _) => apply mat4_fromQuat_modifies; solve_elem
  | |- modifies _ (mat4_fromTranslation _ _) =>
      apply mat4_fromTranslation_modifies; solve_elem
  | |- modifies _ (mat4_multiply _ _ _) => apply mat4_multiply_modifies; solve_elem
  | |- modifies _ (mat4_lookAt _ _ _ _ _) => apply mat4_lookAt_modifies; solve_elem
  | |- _ => frame_step
  end.

Ltac camera_frame :=
  unfold vec3_create, vec3_fromValues, quat_create, mat4_create;
  cbv zeta; repeat glmatrix_step.

Lemma getViewMatrix_modifies W this out :
  out ∈ W -> modifies W (getViewMatrix this out).
Proof. intros H. unfold getViewMatrix. camera_frame. Qed.

Lemma getLocalVector_modifies W this x y z :
  modifies W (getLocalVector this x y z).
Proof. unfold getLocalVector. camera_frame. Qed.

Lemma getLocalVector_fresh this x y z :
  returns_fresh (getLocalVector this x y z).
Proof.
  intros s. unfold getLocalVector, vec3_fromValues, quat_create.
  rewrite !run_alloc.
  unfold mbind, M_bind, bind.
  destruct (quat_conjugate _ _ _) as [u1 s1].
  destruct (vec3_transformQuat _ _ _ _) as [u2 s2]. cbn. lia.
Qed.

Lemma rotateX_modifies W this d :
  rotation this ∈ W -> modifies W (rotateX Math_sin Math_cos degToRad this d).
Proof. intros H. unfold rotateX. camera_frame. Qed.

Lemma rotateY_modifies W this d :
  rotation this ∈ W -> modifies W (rotateY Math_sin Math_cos degToRad this d).
Proof. intros H. unfold rotateY. camera_frame. Qed.

Lemma rotateZ_modifies W this d :
  rotation this ∈ W -> modifies W (rotateZ Math_sin Math_cos degToRad this d).
Proof. intros H. unfold rotateZ. camera_frame. Qed.

Lemma rotateLocal_modifies W this x y z d :
  rotation this ∈ W ->
  modifies W (rotateLocal Math_sin Math_cos degToRad this x y z d).
Proof.
  intros H. unfold rotateLocal, quat_create.
  apply modifies_bind_fresh; [apply modifies_alloc|apply alloc_fresh|intros rotQuat].
  apply modifies_bind_fresh;
    [apply getLocalVector_modifies|apply getLocalVector_fresh|intros axis].
  camera_frame.
Qed.

Lemma setWorldPos_modifies W this x y z :
  translation this ∈ W -> modifies W (setWorldPos this x y z).
Proof. intros H. unfold setWorldPos. camera_frame. Qed.

Lemma translate_modifies W this x y z :
  translation this ∈ W -> modifies W (translate this x y z).
Proof. intros H. unfold translate. camera_frame. Qed.

Lemma translateLocal_modifies W this x y z :
  translation this ∈ W -> modifies W (translateLocal this x y z).
Proof. intros H. unfold translateLocal. camera_frame. Qed.

(** The arrays that a sequence of calls is given to write into. *)
Definition outputs (cs : list call) : list loc :=
  flat_map (fun c => match c with GetViewMatrix out => [out] | _ => [] end) cs.

(** A method writes the rotation, the translation, or the matrix it was
    handed. *)
Lemma perform_modifies this c cs :
  modifies (rotation this :: translation this :: outputs (c :: cs))
           (perform Math_sin Math_cos degToRad this c).
Proof.
  destruct c; cbn [perform outputs flat_map app];
    unfold rotateLocalX, rotateLocalY, rotateLocalZ.
  - apply rotateX_modifies. solve_elem.
  - apply rotateY_modifies. solve_elem.
  - apply rotateZ_modifies. solve_elem.
  - apply rotateLocal_modifies. solve_elem.
  - apply rotateLocal_modifies. solve_elem.
  - apply rotateLocal_modifies. solve_elem.
  - apply setWorldPos_modifies. solve_elem.
  - apply translate_modifies. solve_elem.
  - apply translateLocal_modifies. solve_elem.
  - apply getViewMatrix_modifies. solve_elem.
  - apply modifies_bind; [apply getLocalVector_modifies|intros ?; apply modifies_ret].
Qed.

Lemma perform_all_modifies this cs :
  modifies (rotation this :: translation this :: outputs cs)
           (perform_all Math_sin Math_cos degToRad this cs).
Proof.
  induction cs as [|c cs IH]; cbn [perform_all].
  - apply modifies_ret.
  - apply modifies_bind; [apply perform_modifies|intros _].
    eapply modifies_weaken; [|exact IH].
    intros l. rewrite !elem_of_cons. unfold outputs. cbn [flat_map].
    rewrite elem_of_app. tauto.
Qed.

(** ** The constructor *)

(** The camera that the constructor returns when the store holds [n]
    arrays: six new arrays, and the caller's own [lookDirection]. *)
Lemma constructor_spec origin dir s0 :
  exists s,
    constructor Math_sqrt origin dir s0
    = (mkCamera (length s0) (length s0 + 1)%nat (length s0 + 2)%nat
                (length s0 + 3)%nat (length s0 + 4)%nat dir
                (length s0 + 5)%nat, s) /\
    length s = (length s0 + 6)%nat.
Proof.
  unfold constructor.
  erewrite run_bind by (unfold vec3_clone; rewrite !run_rd; reflexivity).
  erewrite run_bind by reflexivity.
  erewrite run_bind by reflexivity.
  match goal with |- context [vec3_add ?o ?a ?b] =>
    pose proof (vec3_add_keeps_length o a b) as L1 end.
  match goal with |- exists _, (_ ≫= _) ?s = _ /\ _ => specialize (L1 s) end.
  unfold mbind at 1, M_bind at 1, bind at 1.
  destruct (vec3_add _ _ _ _) as [u1 s1]. cbn [snd] in L1.
  erewrite run_bind by reflexivity.
  erewrite run_bind by reflexivity.
  erewrite run_bind by reflexivity.
  match goal with |- context [mat4_lookAt Math_sqrt ?o ?e ?c ?u] =>
    pose proof (mat4_lookAt_keeps_length o e c u) as L2 end.
  match goal with |- exists _, (_ ≫= _) ?s = _ /\ _ => specialize (L2 s) end.
  unfold mbind at 1, M_bind at 1, bind at 1.
  destruct (mat4_lookAt _ _ _ _ _ _) as [u2 s2]. cbn [snd] in L2.
  eexists. split.
  - unfold mret, M_ret, ret. f_equal.
    rewrite ?length_app, ?L1, ?length_app. cbn [length]. f_equal; lia.
  - rewrite L2, !length_app, L1, !length_app. cbn [length]. lia.
Qed.

(** C9, as the code has it.  For the camera that the constructor
    returns and every sequence of calls of its methods in which
    [getViewMatrix] is never handed one of the five arrays that the
    fields eyePoint, up, viewPoint, lookDirection and lookAtMatrix refer
    to, those five arrays are afterwards what they were when the
    constructor returned.  (The fields themselves are never assigned: a
    camera is the same record of references throughout.) *)
Theorem fixed_fields_unchanged :
  forall (origin dir : loc) (s0 : store) (cs : list call),
    (dir < length s0)%nat ->
    let this := fst (constructor Math_sqrt origin dir s0) in
    let s := snd (constructor Math_sqrt origin dir s0) in
    (forall out, out ∈ outputs cs -> out ∉ fixed_fields this) ->
    forall l, l ∈ fixed_fields this ->
      snd (perform_all Math_sin Math_cos degToRad this cs s) !! l = s !! l.
Proof.
  intros origin dir s0 cs Hdir this s Hout l Hl. subst this s.
  destruct (constructor_spec origin dir s0) as (s & Heq & Hlen).
  rewrite Heq in *. clear Heq. cbn [fst snd] in *.
  destruct (perform_all_modifies
              (mkCamera (length s0) (length s0 + 1)%nat (length s0 + 2)%nat
                        (length s0 + 3)%nat (length s0 + 4)%nat dir
                        (length s0 + 5)%nat)
              cs s) as [_ Hpres].
  unfold fixed_fields in Hl, Hout. cbn [eyePoint up viewPoint lookDirection
    lookAtMatrix rotation translation] in *.
  assert (Hcases : l = length s0 \/ l = (length s0 + 1)%nat \/
                   l = (length s0 + 2)%nat \/ l = dir \/ l = (length s0 + 5)%nat).
  { rewrite !elem_of_cons in Hl. pose proof (not_elem_of_nil l). tauto. }
  apply Hpres.
  - rewrite Hlen. lia.
  - rewrite !not_elem_of_cons. split; [lia|]. split; [lia|].
    intros Hin. exact (Hout l Hin Hl).
Qed.

End Host.

(** Equality of arrays, decided. *)
Definition array_eqb (a b : list number) : bool :=
  (length a =? length b)%nat && forallb (fun p => number_eqb (fst p) (snd p)) (combine a b).

Lemma number_eqb_eq x y : number_eqb x y = true -> x = y.
Proof.
  destruct x, y; cbn; try discriminate; try reflexivity.
  intros H. f_equal. apply Qc_eq_bool_correct. exact H.
Qed.

Lemma array_eqb_eq a b : array_eqb a b = true -> a = b.
Proof.
  unfold array_eqb. intros [Hl H]%andb_true_iff. apply Nat.eqb_eq in Hl.
  revert b Hl H. induction a as [|x a IH]; intros [|y b] Hl H;
    try discriminate; [reflexivity|].
  cbn in H. apply andb_true_iff in H as [Hx H].
  f_equal; [apply number_eqb_eq; exact Hx|apply IH; [cbn in Hl; lia|exact H]].
Qed.

(** ** Running gl-matrix on an array of known length *)

Lemma run_wr_upd {B} (l : loc) i x (f : unit -> M B) (s : store) o :
  (l < length s)%nat ->
  (wr l i x ≫= f) (<[l := o]> s) = f tt (<[l := <[i := x]> o]> s).
Proof.
  intros Hl. unfold mbind, M_bind, bind, wr.
  rewrite list_lookup_insert_eq by exact Hl.
  rewrite list_insert_insert_eq. reflexivity.
Qed.

Lemma run_wr_upd_last (l : loc) i x (s : store) o :
  (l < length s)%nat ->
  wr l i x (<[l := o]> s) = (tt, <[l := <[i := x]> o]> s).
Proof.
  intros Hl. unfold wr.
  rewrite list_lookup_insert_eq by exact Hl.
  rewrite list_insert_insert_eq. reflexivity.
Qed.

Lemma run_rd_upd_other {B} (l l' : loc) i (f : number -> M B) (s : store) o :
  l' <> l ->
  (rd l' i ≫= f) (<[l := o]> s)
  = f (el (default [] (s !! l')) i) (<[l := o]> s).
Proof.
  intros Hne. rewrite run_rd.
  rewrite list_lookup_insert_ne by congruence. reflexivity.
Qed.

(** What [mat4.fromTranslation] leaves in [out]. *)
Definition fromTranslation_val (v : list number) : list number :=
  [one; zero; zero; zero;  zero; one; zero; zero;
   zero; zero; one; zero;  el v 0; el v 1; el v 2; one].

(** A list of sixteen elements, written out. *)
Ltac sixteen o H :=
  do 16 (destruct o as [|? o]; [discriminate H|]);
  destruct o; [|discriminate H].

Lemma mat4_create_run s : mat4_create s = (length s, s ++ [identity16]).
Proof. reflexivity. Qed.

(** Writing a run of elements into an array that is long enough. *)
Lemma wr_from_upd (l : loc) i xs (s : store) o :
  (l < length s)%nat -> (i + length xs <= length o)%nat ->
  wr_from l i xs (<[l := o]> s)
  = (tt, <[l := take i o ++ xs ++ drop (i + length xs) o]> s).
Proof.
  intros Hl. revert i o. induction xs as [|x xs IH]; intros i o Hi.
  - cbn [wr_from length app]. rewrite Nat.add_0_r, take_drop. reflexivity.
  - cbn [wr_from length] in *. rewrite run_wr_upd by exact Hl.
    rewrite IH by (rewrite length_insert; lia).
    rewrite (take_S_r _ _ x) by (apply list_lookup_insert_eq; lia).
    rewrite take_insert_ge by lia. rewrite drop_insert_lt by lia.
    rewrite <- app_assoc. cbn [app].
    replace (S i + length xs)%nat with (i + S (length xs))%nat by lia.
    reflexivity.
Qed.

Lemma wr_from_whole (l : loc) xs (s : store) o :
  s !! l = Some o -> length o = length xs ->
  wr_from l 0 xs s = (tt, <[l := xs]> s).
Proof.
  intros Ho Hlen. pose proof (lookup_lt_Some _ _ _ Ho) as Hlt.
  rewrite <- (list_insert_id s l _ Ho) at 1.
  rewrite wr_from_upd by (exact Hlt || lia).
  cbn [take app Nat.add]. rewrite <- Hlen, drop_all, app_nil_r. reflexivity.
Qed.

Lemma length_fromQuat_val q : length (fromQuat_val q) = 16%nat.
Proof. reflexivity. Qed.

Lemma mat4_fromQuat_run (out q : loc) (s : store) o :
  s !! out = Some o -> length o = 16%nat ->
  mat4_fromQuat out q s
  = (tt, <[out := fromQuat_val (default [] (s !! q))]> s).
Proof.
  intros Ho Hlen. unfold mat4_fromQuat. rewrite run_rd_all.
  apply (wr_from_whole out _ s o Ho).
  rewrite Hlen, length_fromQuat_val. reflexivity.
Qed.

Lemma mat4_fromTranslation_run (out v : loc) (s : store) o :
  s !! out = Some o -> length o = 16%nat -> v <> out ->
  mat4_fromTranslation out v s
  = (tt, <[out := fromTranslation_val (default [] (s !! v))]> s).
Proof.
  intros Ho Hlen Hne. pose proof (lookup_lt_Some _ _ _ Ho) as Hlt.
  unfold mat4_fromTranslation.
  rewrite <- (list_insert_id s out _ Ho) at 1.
  erewrite run_bind by (apply wr_from_upd; [exact Hlt|rewrite Hlen; cbn; lia]).
  rewrite run_rd_upd_other by exact Hne. rewrite run_wr_upd by exact Hlt.
  rewrite run_rd_upd_other by exact Hne. rewrite run_wr_upd by exact Hlt.
  rewrite run_rd_upd_other by exact Hne. rewrite run_wr_upd by exact Hlt.
  rewrite run_wr_upd_last by exact Hlt.
  sixteen o Hlen. reflexivity.
Qed.

(** The four columns are written one after the other; [b] is not the
    array written, so what is read from it is what it held. *)
Lemma mul_step_run (out b : loc) (av : list number) (k : nat) (s : store) o :
  (out < length s)%nat -> (4 * k + 4 <= length o)%nat -> b <> out ->
  mul_step out av b k (<[out := o]> s)
  = (tt, <[out := take (4 * k) o ++
                  mul_col av (el (default [] (s !! b)) (4 * k))
                             (el (default [] (s !! b)) (4 * k + 1))
                             (el (default [] (s !! b)) (4 * k + 2))
                             (el (default [] (s !! b)) (4 * k + 3)) ++
                  drop (4 * k + 4) o]> s).
Proof.
  intros Hlt Hk Hne. unfold mul_step.
  rewrite !run_rd_upd_other by exact Hne.
  rewrite wr_from_upd by (exact Hlt || (cbn [length mul_col]; lia)).
  reflexivity.
Qed.

Lemma mat4_multiply_run (out a b : loc) (s : store) o :
  s !! out = Some o -> length o = 16%nat -> b <> out ->
  mat4_multiply out a b s
  = (tt, <[out := mul_val (default [] (s !! a)) (default [] (s !! b))]> s).
Proof.
  intros Ho Hlen Hne. pose proof (lookup_lt_Some _ _ _ Ho) as Hlt.
  unfold mat4_multiply. rewrite run_rd_all.
  generalize (default [] (s !! a)). intros av.
  rewrite <- (list_insert_id s out _ Ho) at 1.
  erewrite run_bind by (apply mul_step_run; [exact Hlt|lia|exact Hne]).
  erewrite run_bind
    by (apply mul_step_run;
        [exact Hlt|rewrite !length_app, length_take, length_drop; cbn; lia
        |exact Hne]).
  erewrite run_bind
    by (apply mul_step_run;
        [exact Hlt
        |rewrite !length_app, !length_take, !length_drop, !length_app,
           !length_take, !length_drop; cbn; lia
        |exact Hne]).
  rewrite mul_step_run;
    [|exact Hlt
     |rewrite !length_app, !length_take, !length_drop, !length_app,
        !length_take, !length_drop, !length_app, !length_take, !length_drop;
      cbn; lia
     |exact Hne].
  sixteen o Hlen. reflexivity.
Qed.

(** ** The view matrix of a camera that was not moved *)

Lemma fromQuat_identity : fromQuat_val [zero; zero; zero; one] = identity16.
Proof. apply array_eqb_eq. vm_compute. reflexivity. Qed.

Lemma fromTranslation_zero : fromTranslation_val [zero; zero; zero] = identity16.
Proof. reflexivity. Qed.

Lemma mul_identity_identity : mul_val identity16 identity16 = identity16.
Proof. apply array_eqb_eq. vm_compute. reflexivity. Qed.

Lemma finite_inv x : is_finite x = true -> exists q, x = Fin q.
Proof. destruct x; try discriminate. eexists. reflexivity. Qed.

(** The identity times a matrix of finite numbers is that matrix. *)
Lemma mul_identity_l (m : list number) :
  length m = 16%nat -> Forall (fun x => is_finite x = true) m ->
  mul_val identity16 m = m.
Proof.
  intros Hlen Hfin. sixteen m Hlen.
  repeat match goal with
         | H : Forall _ (_ :: _) |- _ =>
             apply Forall_cons in H as [[? ->]%finite_inv H]
         end.
  unfold mul_val, mul_col, identity16, el. cbn.
  repeat (f_equal; [f_equal; ring|]). do 2 f_equal. ring.
Qed.

(** For a camera whose rotation is the identity quaternion and whose
    translation is the zero vector, whose look-at matrix holds finite
    numbers, and an output matrix that is not the camera's own
    [lookAtMatrix], [getViewMatrix] leaves in the output matrix exactly
    the entries of the look-at matrix. *)
Lemma view_matrix_unmoved :
  forall (this : Camera.t) (outMatrix : loc) (s : store) (look o : list number),
    s !! rotation this = Some [zero; zero; zero; one] ->
    s !! translation this = Some [zero; zero; zero] ->
    s !! lookAtMatrix this = Some look ->
    length look = 16%nat ->
    Forall (fun x => is_finite x = true) look ->
    s !! outMatrix = Some o ->
    length o = 16%nat ->
    outMatrix <> lookAtMatrix this ->
    snd (getViewMatrix this outMatrix s) !! outMatrix = Some look.
Proof.
  intros this out s look o Hrot Htr Hlook Hlen Hfin Ho Holen Hne.
  pose proof (lookup_lt_Some _ _ _ Hrot) as Lrot.
  pose proof (lookup_lt_Some _ _ _ Htr) as Ltr.
  pose proof (lookup_lt_Some _ _ _ Hlook) as Llook.
  pose proof (lookup_lt_Some _ _ _ Ho) as Lout.
  unfold getViewMatrix.
  (* rot = mat4.create(); mat4.fromQuat(rot, this.rotation) *)
  rewrite (run_bind _ _ _ _ _ (mat4_create_run s)).
  set (s1 := s ++ [identity16]).
  assert (L1 : length s1 = S (length s)) by (subst s1; rewrite length_app; cbn; lia).
  assert (K1 : forall l, (l < length s)%nat -> s1 !! l = s !! l)
    by (intros l Hl; apply lookup_app_l; exact Hl).
  assert (R1 : s1 !! length s = Some identity16).
  { subst s1. rewrite lookup_app_r by lia. rewrite Nat.sub_diag. reflexivity. }
  rewrite (run_bind _ _ _ _ _ (mat4_fromQuat_run _ (rotation this) s1 _ R1 eq_refl)).
  rewrite (K1 _ Lrot), Hrot. cbn [default]. unfold id. rewrite fromQuat_identity.
  set (s2 := <[length s := identity16]> s1).
  assert (L2 : length s2 = S (length s)) by (subst s2; rewrite length_insert; exact L1).
  assert (K2 : forall l, (l < length s)%nat -> s2 !! l = s !! l).
  { intros l Hl. subst s2. rewrite list_lookup_insert_ne by lia. apply K1, Hl. }
  assert (R2 : s2 !! length s = Some identity16)
    by (subst s2; apply list_lookup_insert_eq; lia).
  (* trans = mat4.create(); mat4.fromTranslation(trans, this.translation) *)
  rewrite (run_bind _ _ _ _ _ (mat4_create_run s2)).
  set (s3 := s2 ++ [identity16]).
  assert (K3 : forall l, (l < length s2)%nat -> s3 !! l = s2 !! l)
    by (intros l Hl; apply lookup_app_l; exact Hl).
  assert (T3 : s3 !! length s2 = Some identity16).
  { subst s3. rewrite lookup_app_r by lia. rewrite Nat.sub_diag. reflexivity. }
  assert (N3 : translation this <> length s2) by lia.
  assert (B3 : (translation this < length s2)%nat) by lia.
  rewrite (run_bind _ _ _ _ _
             (mat4_fromTranslation_run (length s2) (translation this) s3
                identity16 T3 eq_refl N3)).
  rewrite (K3 _ B3), (K2 _ Ltr), Htr. cbn [default]. unfold id.
  rewrite fromTranslation_zero.
  set (s4 := <[length s2 := identity16]> s3).
  assert (L4 : length s4 = S (length s2))
    by (subst s4 s3; rewrite length_insert, length_app; cbn; lia).
  assert (K4 : forall l, (l < length s)%nat -> s4 !! l = s !! l).
  { intros l Hl. subst s4. rewrite list_lookup_insert_ne by lia.
    rewrite K3 by lia. apply K2, Hl. }
  assert (R4 : s4 !! length s = Some identity16).
  { subst s4. rewrite list_lookup_insert_ne by lia. rewrite K3 by lia. exact R2. }
  assert (T4 : s4 !! length s2 = Some identity16).
  { subst s4. apply list_lookup_insert_eq. subst s3. rewrite length_app. cbn. lia. }
  (* mat4.multiply(outMatrix, rot, trans) *)
  assert (O4 : s4 !! out = Some o) by (rewrite K4 by exact Lout; exact Ho).
  assert (N4 : length s2 <> out) by lia.
  rewrite (run_bind _ _ _ _ _
             (mat4_multiply_run out (length s) (length s2) s4 o O4 Holen N4)).
  rewrite R4, T4. cbn [default]. unfold id. rewrite mul_identity_identity.
  set (s5 := <[out := identity16]> s4).
  assert (O5 : s5 !! out = Some identity16).
  { subst s5. apply list_lookup_insert_eq. rewrite L4, L2. lia. }
  assert (K5 : s5 !! lookAtMatrix this = Some look).
  { subst s5. rewrite list_lookup_insert_ne by exact Hne.
    rewrite K4 by exact Llook. exact Hlook. }
  (* mat4.multiply(outMatrix, outMatrix, this.lookAtMatrix) *)
  assert (N5 : lookAtMatrix this <> out) by congruence.
  rewrite (mat4_multiply_run out out (lookAtMatrix this) s5 identity16 O5
             eq_refl N5).
  rewrite O5, K5. cbn [default snd]. unfold id.
  rewrite (mul_identity_l look Hlen Hfin).
  apply list_lookup_insert_eq. subst s5. rewrite length_insert, L4, L2. lia.
Qed.

(** ** A camera to run *)

(** A square root for running the examples: exact on the squares of
    rationals, rounded down on numerator and denominator otherwise. *)
Definition sqrt_floor (x : number) : number :=
  match x with
  | NaN | NInf => NaN
  | PInf => PInf
  | Fin q =>
      match qsign q with
      | Lt => NaN
      | _ => Fin (Q2Qc (Z.sqrt (Qnum q) # Pos.sqrt (Qden q)))
      end
  end.

(** The calls of the examples use no trigonometry; this stands where
    [Math.sin], [Math.cos] and [degToRad] are expected. *)
Definition not_called (x : number) : number := NaN.

(** A store with the origin (0, 0, 5), the direction (0, 0, -1) and a
    matrix of the caller. *)
Definition example_store : store :=
  [[zero; zero; of_Z 5]; [zero; zero; of_Z (-1)]; identity16].

Definition example_camera : Camera.t :=
  fst (constructor sqrt_floor 0 1 example_store).

Definition example_state : store :=
  snd (constructor sqrt_floor 0 1 example_store).

(** The look-at matrix of the example: the translation by (0, 0, -5). *)
Definition example_lookAt : list number :=
  [one; zero; zero; zero;  zero; one; zero; zero;
   zero; zero; one; zero;  zero; zero; of_Z (-5); one].

Lemma example_camera_fields :
  example_camera = mkCamera 3 4 5 6 7 1 8.
Proof. reflexivity. Qed.

Lemma example_lookAt_built : example_state !! 8%nat = Some example_lookAt.
Proof.
  assert (H : array_eqb (default [] (example_state !! 8%nat)) example_lookAt = true)
    by (vm_compute; reflexivity).
  apply array_eqb_eq in H. rewrite <- H.
  assert (Hs : is_Some (example_state !! 8%nat))
    by (apply lookup_lt_is_Some_2; vm_compute; lia).
  destruct Hs as [a ->]. reflexivity.
Qed.

Lemma example_lookAt_not_identity : example_lookAt <> identity16.
Proof.
  intros H. apply (f_equal (fun a => el a 14)) in H.
  cbn in H. injection H as H. discriminate H.
Qed.

(** Handed the camera's own [lookAtMatrix], [getViewMatrix] leaves the
    identity in it. *)
Lemma lookAtMatrix_as_output :
  snd (getViewMatrix example_camera 8 example_state) !! 8%nat = Some identity16.
Proof.
  match goal with |- ?s !! 8%nat = _ =>
    assert (H : array_eqb (default [] (s !! 8%nat)) identity16 = true)
      by (vm_compute; reflexivity);
    apply array_eqb_eq in H; rewrite <- H;
    assert (Hs : is_Some (s !! 8%nat))
      by (apply lookup_lt_is_Some_2; vm_compute; lia);
    destruct Hs as [a ->]; reflexivity
  end.
Qed.

Lemma perform_all_single sin cos rad this c s :
  snd (perform_all sin cos rad this [c] s) = snd (perform sin cos rad this c s).
Proof.
  cbn [perform_all]. unfold mbind, M_bind, bind.
  destruct (perform sin cos rad this c s). reflexivity.
Qed.

(** C9 as the claim words it fails: [getViewMatrix] handed the camera's
    own [lookAtMatrix] overwrites it; the translation by (0, 0, -5)
    that the constructor built becomes the identity. *)
Lemma getViewMatrix_overwrites_lookAtMatrix :
  lookAtMatrix example_camera ∈ fixed_fields example_camera /\
  example_state !! lookAtMatrix example_camera = Some example_lookAt /\
  snd (perform_all not_called not_called not_called example_camera
         [GetViewMatrix (lookAtMatrix example_camera)] example_state)
    !! lookAtMatrix example_camera
  = Some identity16 /\
  example_lookAt <> identity16.
Proof.
  split; [|split; [|split]].
  - rewrite example_camera_fields. cbn. repeat constructor.
  - rewrite example_camera_fields. exact example_lookAt_built.
  - rewrite perform_all_single. rewrite example_camera_fields.
    exact lookAtMatrix_as_output.
  - exact example_lookAt_not_identity.
Qed.

(** Calls that move and turn nothing but the translation, and a view
    matrix written into the caller's matrix. *)
Definition example_calls : list call :=
  [SetWorldPos one zero zero; GetViewMatrix 2; Translate zero one zero;
   GetLocalVector one zero zero; GetViewMatrix 2].

Lemma fixed_fields_unchanged_witness :
  (1 < length example_store)%nat /\
  (forall out, out ∈ outputs example_calls -> out ∉ fixed_fields example_camera) /\
  snd (perform_all not_called not_called not_called example_camera
         example_calls example_state) !! 8%nat
  = Some example_lookAt.
Proof.
  assert (H1 : (1 < length example_store)%nat) by (cbn; lia).
  assert (H2 : forall out, out ∈ outputs example_calls ->
                           out ∉ fixed_fields example_camera).
  { rewrite example_camera_fields. intros out Hin Hfix.
    change (outputs example_calls) with [2%nat; 2%nat] in Hin.
    unfold fixed_fields in Hfix.
    cbn [eyePoint up viewPoint lookDirection lookAtMatrix] in Hfix.
    rewrite !elem_of_cons, elem_of_nil in Hin.
    rewrite !elem_of_cons, elem_of_nil in Hfix. lia. }
  split; [exact H1|]. split; [exact H2|].
  rewrite <- example_lookAt_built.
  apply (fixed_fields_unchanged sqrt_floor not_called not_called not_called
           0%nat 1%nat example_store example_calls H1 H2).
  fold example_camera. rewrite example_camera_fields. cbn. repeat constructor.
Defined.

(** The state of the example is the state that the claim speaks of. *)
Lemma example_not_moved :
  example_state !! rotation example_camera = Some [zero; zero; zero; one] /\
  example_state !! translation example_camera = Some [zero; zero; zero].
Proof. split; reflexivity. Qed.

Lemma example_lookAt_finite : Forall (fun x => is_finite x = true) example_lookAt.
Proof. repeat constructor. Qed.

(** A camera whose origin has a coordinate that is not a number. *)
Definition nan_store : store :=
  [[NaN; zero; zero]; [zero; zero; of_Z (-1)]; identity16].

Definition nan_camera : Camera.t :=
  fst (constructor sqrt_floor 0 1 nan_store).

Definition nan_state : store :=
  snd (constructor sqrt_floor 0 1 nan_store).

(** C6 as the claim words it fails, in two ways.  Handed the camera's
    own [lookAtMatrix] as output, [getViewMatrix] leaves the identity in
    it, not the translation by (0, 0, -5) that the constructor built.
    And for a camera built at an origin with a NaN coordinate, whose
    look-at matrix begins with 0, the view matrix written to a matrix
    of the caller begins with NaN. *)
Lemma view_matrix_differs_from_lookAt :
  (example_state !! rotation example_camera = Some [zero; zero; zero; one] /\
   example_state !! translation example_camera = Some [zero; zero; zero] /\
   example_state !! lookAtMatrix example_camera = Some example_lookAt /\
   snd (getViewMatrix example_camera (lookAtMatrix example_camera) example_state)
     !! lookAtMatrix example_camera = Some identity16 /\
   example_lookAt <> identity16) /\
  (nan_state !! rotation nan_camera = Some [zero; zero; zero; one] /\
   nan_state !! translation nan_camera = Some [zero; zero; zero] /\
   el (default [] (nan_state !! lookAtMatrix nan_camera)) 0 = zero /\
   el (default [] (snd (getViewMatrix nan_camera 2 nan_state) !! 2%nat)) 0 = NaN).
Proof.
  split.
  - destruct example_not_moved as [Hrot Htr].
    split; [exact Hrot|]. split; [exact Htr|].
    rewrite example_camera_fields. cbn [lookAtMatrix].
    split; [exact example_lookAt_built|].
    split; [exact lookAtMatrix_as_output|exact example_lookAt_not_identity].
  - repeat split; vm_compute; reflexivity.
Qed.

End CameraSpec.

(* ===================================================================== *)
(** * Strings put together                                                *)
(* ===================================================================== *)

Module StringFacts.

Local Open Scope string_scope.

Lemma append_cons c (s t : string) : String c s ++ t = String c (s ++ t).
Proof. reflexivity. Qed.

Lemma append_nil_l (t : string) : "" ++ t = t.
Proof. reflexivity. Qed.

Lemma append_nil_r (s : string) : s ++ "" = s.
Proof.
  induction s as [|x s IH]; [reflexivity|]. rewrite append_cons, IH. reflexivity.
Qed.

Lemma append_assoc (a b c : string) : (a ++ b) ++ c = a ++ (b ++ c).
Proof.
  induction a as [|x a IH]; [reflexivity|]. rewrite !append_cons, IH. reflexivity.
Qed.

End StringFacts.

(* ===================================================================== *)
(** * The order of numbers                                                *)
(* ===================================================================== *)

Module NumberOrder.

(** Comparisons of rationals, read as statements about their fractions. *)
Ltac qc_facts :=
  repeat match goal with
         | H : (_ ?= _)%Qc = Lt |- _ => apply Qclt_alt in H; unfold Qclt in H
         | H : (_ ?= _)%Qc = Gt |- _ => apply Qcgt_alt in H; unfold Qclt in H
         | H : (_ ?= _)%Qc = Eq |- _ => apply Qceq_alt in H
         end.

Lemma lt_irrefl x : lt x x = false.
Proof.
  destruct x as [| | |q]; try reflexivity. cbn.
  destruct (q ?= q)%Qc eqn:H; try reflexivity. qc_facts. lra.
Qed.

Lemma lt_asym x y : lt x y = true -> lt y x = false.
Proof.
  destruct x as [| | |a], y as [| | |b]; cbn; try discriminate; try reflexivity.
  destruct (a ?= b)%Qc eqn:H1; try discriminate.
  destruct (b ?= a)%Qc eqn:H2; try reflexivity. qc_facts. lra.
Qed.

(** [a <= b] and [b <= c] give [a <= c], each read as "not greater". *)
Lemma le_trans a b c :
  is_nan b = false -> lt b a = false -> lt c b = false -> lt c a = false.
Proof.
  destruct a as [| | |a], b as [| | |b], c as [| | |c]; cbn;
    try discriminate; try reflexivity.
  intros _.
  destruct (b ?= a)%Qc eqn:H1; try discriminate;
    destruct (c ?= b)%Qc eqn:H2; try discriminate;
    destruct (c ?= a)%Qc eqn:H3; try reflexivity; intros _ _;
    qc_facts; subst; lra.
Qed.

(** Two numbers neither of which is below the other are the same. *)
Lemma le_antisym x y :
  is_nan x = false -> is_nan y = false ->
  lt x y = false -> lt y x = false -> x = y.
Proof.
  destruct x as [| | |a], y as [| | |b]; cbn; try discriminate; try reflexivity.
  intros _ _.
  destruct (a ?= b)%Qc eqn:H1; try discriminate;
    destruct (b ?= a)%Qc eqn:H2; try discriminate; intros _ _;
    qc_facts; subst; try reflexivity; lra.
Qed.

Lemma lt_not_nan x y : lt x y = true -> is_nan x = false /\ is_nan y = false.
Proof. destruct x, y; cbn; try discriminate; auto. Qed.

End NumberOrder.

(* ===================================================================== *)
(** * Numbers of the binary32 format                                      *)
(* ===================================================================== *)

Module Float32.

Lemma two_to_pos e : (0 < two_to e)%Q.
Proof. unfold two_to. apply Qpower_0_lt. reflexivity. Qed.

Lemma round_half_even_nonneg q : (0 <= q)%Q -> 0 <= round_half_even q.
Proof.
  intros Hq. unfold round_half_even.
  assert (H : 0 <= Qfloor q).
  { change 0 with (Qfloor 0). apply Qfloor_resp_le. exact Hq. }
  destruct (q - inject_Z (Qfloor q) ?= 1 # 2)%Q; [destruct (Z.even _)| |]; lia.
Qed.

(** A positive number is rounded to a number that is not negative. *)
Lemma round_positive_sign prec emin emax q :
  (0 < q)%Q ->
  let r := round_positive prec emin emax q in
  is_nan r = false /\ lt r zero = false.
Proof.
  intros Hq. unfold round_positive. cbv zeta.
  set (ulp := two_to (Z.max (exponent q) emin - prec + 1)).
  destruct (Qle_bool _ _); [split; reflexivity|].
  split; [reflexivity|].
  assert (Hu : (0 < ulp)%Q) by apply two_to_pos.
  assert (Hn : 0 <= round_half_even (q / ulp)).
  { apply round_half_even_nonneg. apply Qlt_le_weak.
    apply Qlt_shift_div_l; [exact Hu|]. rewrite Qmult_0_l. exact Hq. }
  assert (Hr : (0 <= inject_Z (round_half_even (q / ulp)) * ulp)%Q).
  { apply Qmult_le_0_compat; [|apply Qlt_le_weak; exact Hu].
    change 0%Q with (inject_Z 0). rewrite <- Zle_Qle. exact Hn. }
  cbn [lt zero].
  destruct (Q2Qc _ ?= 0)%Qc eqn:Hc; try reflexivity.
  apply Qclt_alt in Hc. unfold Qclt in Hc. cbn [this Q2Qc] in Hc.
  rewrite !Qred_correct in Hc. apply Qlt_not_le in Hc. contradiction.
Qed.

(** Storing a number in a Float32Array keeps it a number, and keeps it
    from being negative. *)
Lemma fround_keeps_sign x :
  is_nan x = false -> lt x zero = false ->
  is_nan (fround x) = false /\ lt (fround x) zero = false.
Proof.
  destruct x as [| | |q]; cbn [is_nan lt fround round_to]; try discriminate; auto.
  intros _ Hlt. unfold fround, round_to.
  destruct (qsign q) eqn:Hs.
  - split; [reflexivity|exact Hlt].
  - unfold qsign in Hs. cbn [lt zero] in Hlt. rewrite Hs in Hlt. discriminate.
  - apply round_positive_sign. unfold qsign in Hs.
    apply Qcgt_alt in Hs. exact Hs.
Qed.

Lemma number_eqb_true x y : number_eqb x y = true -> x = y.
Proof.
  destruct x, y; cbn; try discriminate; try reflexivity.
  intros H. f_equal. apply Qc_eq_bool_correct. exact H.
Qed.

Lemma is_float32_eq x : is_float32 x = true -> fround x = x.
Proof. apply number_eqb_true. Qed.

Lemma map_fround_eq (xs : list number) :
  Forall (fun x => is_float32 x = true) xs -> map fround xs = xs.
Proof.
  induction 1 as [|x xs Hx _ IH]; [reflexivity|].
  cbn [map]. rewrite IH, (is_float32_eq x Hx). reflexivity.
Qed.

(** 0.1 is not a number of the format; what is stored for it is
    13421773 / 2^27, and 16777217 = 2^24 + 1 is stored as 2^24. *)
Lemma fround_examples :
  is_float32 (Fin (Q2Qc (1 # 10))) = false /\
  fround (Fin (Q2Qc (1 # 10))) = Fin (Q2Qc (13421773 # 134217728)) /\
  fround (of_Z 16777217) = of_Z 16777216 /\
  is_float32 half = true /\ is_float32 NaN = true /\
  fround (Fin (Q2Qc (two_to 128))) = PInf.
Proof.
  repeat split; try (apply number_eqb_true); vm_compute; reflexivity.
Qed.

End Float32.

(* ===================================================================== *)
(** * More on the bounding box                                            *)
(* ===================================================================== *)

Module BoxSpec.

Import Vec3 Mesh MeshMethods MeshSpec NumberOrder.

(** ** The least and the greatest of a list *)

Lemma lower_fold a cs :
  is_nan a = false ->
  let r := foldl lower a cs in
  is_nan r = false /\ r ∈ a :: cs /\ forall c, c ∈ a :: cs -> lt c r = false.
Proof.
  revert a. induction cs as [|c cs IH]; intros a Ha; cbn [foldl].
  - split; [exact Ha|]. split; [apply list_elem_of_here|].
    intros c Hc. apply list_elem_of_singleton in Hc as ->. apply lt_irrefl.
  - assert (Hl : is_nan (lower a c) = false).
    { unfold lower. destruct (lt c a) eqn:E; [|exact Ha].
      apply lt_not_nan in E. tauto. }
    destruct (IH (lower a c) Hl) as (Hn & Hin & Hle). cbn zeta in *.
    set (r := foldl lower (lower a c) cs) in *.
    assert (Hr : lt (lower a c) r = false) by (apply Hle, list_elem_of_here).
    split; [exact Hn|]. split.
    + apply elem_of_cons in Hin as [Hin|Hin].
      * rewrite Hin. unfold lower. destruct (lt c a).
        -- apply list_elem_of_further, list_elem_of_here.
        -- apply list_elem_of_here.
      * do 2 apply list_elem_of_further. exact Hin.
    + intros x Hx. unfold lower in Hr, Hl.
      apply elem_of_cons in Hx as [->|Hx]; [|apply elem_of_cons in Hx as [->|Hx]].
      * destruct (lt c a) eqn:E; [|exact Hr].
        apply (le_trans r c a Hl Hr). apply lt_asym. exact E.
      * destruct (lt c a) eqn:E; [exact Hr|].
        apply (le_trans r a c Ha Hr E).
      * apply Hle, list_elem_of_further, Hx.
Qed.

Lemma raise_fold a cs :
  is_nan a = false ->
  let r := foldl raise a cs in
  is_nan r = false /\ r ∈ a :: cs /\ forall c, c ∈ a :: cs -> gt c r = false.
Proof.
  unfold gt.
  revert a. induction cs as [|c cs IH]; intros a Ha; cbn [foldl].
  - split; [exact Ha|]. split; [apply list_elem_of_here|].
    intros c Hc. apply list_elem_of_singleton in Hc as ->. apply lt_irrefl.
  - assert (Hl : is_nan (raise a c) = false).
    { unfold raise, gt. destruct (lt a c) eqn:E; [|exact Ha].
      apply lt_not_nan in E. tauto. }
    destruct (IH (raise a c) Hl) as (Hn & Hin & Hle). cbn zeta in *.
    set (r := foldl raise (raise a c) cs) in *.
    assert (Hr : lt r (raise a c) = false) by (apply Hle, list_elem_of_here).
    split; [exact Hn|]. split.
    + apply elem_of_cons in Hin as [Hin|Hin].
      * rewrite Hin. unfold raise, gt. destruct (lt a c).
        -- apply list_elem_of_further, list_elem_of_here.
        -- apply list_elem_of_here.
      * do 2 apply list_elem_of_further. exact Hin.
    + intros x Hx. unfold raise, gt in Hr, Hl.
      apply elem_of_cons in Hx as [->|Hx]; [|apply elem_of_cons in Hx as [->|Hx]].
      * destruct (lt a c) eqn:E; [|exact Hr].
        apply (le_trans a c r Hl); [apply lt_asym; exact E|exact Hr].
      * destruct (lt a c) eqn:E; [exact Hr|].
        apply (le_trans c a r Ha E Hr).
      * apply Hle, list_elem_of_further, Hx.
Qed.

(** A number of the list that none is below is its least. *)
Lemma lower_fold_unique a cs r :
  is_nan a = false -> is_nan r = false ->
  r ∈ a :: cs -> (forall c, c ∈ a :: cs -> lt c r = false) ->
  foldl lower a cs = r.
Proof.
  intros Ha Hr Hin Hle.
  destruct (lower_fold a cs Ha) as (Hn & Hin' & Hle'). cbn zeta in *.
  apply le_antisym; auto.
Qed.

Lemma raise_fold_unique a cs r :
  is_nan a = false -> is_nan r = false ->
  r ∈ a :: cs -> (forall c, c ∈ a :: cs -> gt c r = false) ->
  foldl raise a cs = r.
Proof.
  intros Ha Hr Hin Hle.
  destruct (raise_fold a cs Ha) as (Hn & Hin' & Hle'). cbn zeta in *.
  unfold gt in *. apply le_antisym; auto.
Qed.

(** ** The coordinates along an axis *)

Lemma axis_coords_lookup (vs : list number) (j k : nat) :
  (j < 3)%nat -> (3 * k + 2 < length vs)%nat ->
  axis_coords vs j !! k = vs !! (3 * k + j)%nat.
Proof.
  intros Hj. revert vs. induction k as [|k IH]; intros vs Hk.
  - destruct vs as [|x [|y [|z vs]]]; cbn in Hk; try lia.
    destruct j as [|[|[|j]]]; try lia; reflexivity.
  - destruct vs as [|x [|y [|z vs]]]; cbn in Hk; try lia.
    cbn [axis_coords]. rewrite lookup_cons_ne_0 by lia. cbn [Nat.pred].
    rewrite IH by lia.
    replace (3 * S k + j)%nat with (S (S (S (3 * k + j)))) by lia.
    reflexivity.
Qed.

(** The corners that [computeAABB] leaves, given the corners it found. *)
Lemma computeAABB_corners (m : t) a0 a1 a2 b0 b1 b2 n :
  length (vertices m) = (3 * n)%nat ->
  minXYZ m = [a0; a1; a2] -> maxXYZ m = [b0; b1; b2] ->
  minXYZ (computeAABB m)
  = [foldl lower a0 (axis_coords (vertices m) 0);
     foldl lower a1 (axis_coords (vertices m) 1);
     foldl lower a2 (axis_coords (vertices m) 2)] /\
  maxXYZ (computeAABB m)
  = [foldl raise b0 (axis_coords (vertices m) 0);
     foldl raise b1 (axis_coords (vertices m) 1);
     foldl raise b2 (axis_coords (vertices m) 2)].
Proof.
  intros Hlen Hmin Hmax.
  destruct (computeAABB_from m a0 a1 a2 b0 b1 b2 n Hlen Hmin Hmax) as [Mn Mx].
  unfold least, greatest in Mn, Mx.
  fold lower in Mn. fold raise in Mx.
  destruct (minXYZ (computeAABB m)) as [|p0 [|p1 [|p2 [|? ?]]]]; try discriminate.
  destruct (maxXYZ (computeAABB m)) as [|q0 [|q1 [|q2 [|? ?]]]]; try discriminate.
  cbn in Mn, Mx. injection Mn as -> -> ->. injection Mx as -> -> ->.
  split; reflexivity.
Qed.

Lemma axis_coords_elem (vs : list number) (j : nat) c :
  c ∈ axis_coords vs j -> c ∈ vs.
Proof.
  remember (length vs) as n eqn:Hn. revert vs Hn.
  induction n as [n IH] using lt_wf_ind. intros vs Hn.
  destruct vs as [|x [|y [|z vs]]]; cbn [axis_coords];
    try (intros H; inversion H; fail).
  intros [->|H]%elem_of_cons.
  - destruct j as [|[|j]]; repeat constructor.
  - do 3 apply list_elem_of_further.
    apply (IH (length vs)); [subst n; cbn; lia|reflexivity|exact H].
Qed.

(** A bound that nothing is below stays where it is. *)
Lemma lower_fold_fixed r cs :
  (forall c, c ∈ cs -> lt c r = false) -> foldl lower r cs = r.
Proof.
  induction cs as [|c cs IH]; intros H; [reflexivity|]. cbn [foldl].
  unfold lower at 2. rewrite (H c) by apply list_elem_of_here.
  apply IH. intros x Hx. apply H, list_elem_of_further, Hx.
Qed.

Lemma raise_fold_fixed r cs :
  (forall c, c ∈ cs -> gt c r = false) -> foldl raise r cs = r.
Proof.
  induction cs as [|c cs IH]; intros H; [reflexivity|]. cbn [foldl].
  unfold raise at 2. rewrite (H c) by apply list_elem_of_here.
  apply IH. intros x Hx. apply H, list_elem_of_further, Hx.
Qed.

Lemma lower_fold_below a cs c : c ∈ cs -> lt c (foldl lower a cs) = false.
Proof.
  intros Hc. destruct (is_nan a) eqn:Ha.
  - destruct a; try discriminate.
    rewrite lower_fold_fixed by (intros x _; destruct x; reflexivity).
    destruct c; reflexivity.
  - apply (lower_fold a cs Ha), list_elem_of_further, Hc.
Qed.

Lemma raise_fold_above a cs c : c ∈ cs -> gt c (foldl raise a cs) = false.
Proof.
  intros Hc. destruct (is_nan a) eqn:Ha.
  - destruct a; try discriminate.
    rewrite raise_fold_fixed by (intros x _; destruct x; reflexivity).
    destruct c; reflexivity.
  - apply (raise_fold a cs Ha), list_elem_of_further, Hc.
Qed.

Lemma lower_fold_idem a cs : foldl lower (foldl lower a cs) cs = foldl lower a cs.
Proof. apply lower_fold_fixed. intros c Hc. apply lower_fold_below, Hc. Qed.

Lemma raise_fold_idem a cs : foldl raise (foldl raise a cs) cs = foldl raise a cs.
Proof. apply raise_fold_fixed. intros c Hc. apply raise_fold_above, Hc. Qed.

(** A mesh as the constructor and a factory leave it before the box is
    computed: both corners at the origin, whole vertices only. *)
Definition fresh_box (m : t) (n : nat) : Prop :=
  length (vertices m) = (3 * n)%nat /\
  minXYZ m = [zero; zero; zero] /\ maxXYZ m = [zero; zero; zero].

(** A mesh with three vertices on both sides of the origin. *)
Definition straddling : t :=
  mkMesh [of_Z (-1); of_Z (-2); zero;  one; zero; of_Z 3;  zero; of_Z 2; of_Z (-1)]
         [Int 0; Int 1; Int 2] [] 1 3 [zero; zero; zero] [zero; zero; zero]
         0 None None None.

Lemma straddling_fresh : fresh_box straddling 3.
Proof. repeat split. Qed.

(** X1.  [computeAABB] leaves, on each axis, the least of the minimum it
    found and the coordinates of the vertices, and the greatest of the
    maximum it found and the coordinates, both taken with the
    comparisons of the code (a NaN never replaces a bound). *)
Theorem computeAABB_extends_corners :
  forall (m : t) (a0 a1 a2 b0 b1 b2 : number) (n : nat),
    length (vertices m) = (3 * n)%nat ->
    minXYZ m = [a0; a1; a2] -> maxXYZ m = [b0; b1; b2] ->
    getAABB (computeAABB m)
    = ([foldl lower a0 (axis_coords (vertices m) 0);
        foldl lower a1 (axis_coords (vertices m) 1);
        foldl lower a2 (axis_coords (vertices m) 2)],
       [foldl raise b0 (axis_coords (vertices m) 0);
        foldl raise b1 (axis_coords (vertices m) 1);
        foldl raise b2 (axis_coords (vertices m) 2)]).
Proof.
  intros m a0 a1 a2 b0 b1 b2 n Hlen Hmin Hmax. unfold getAABB.
  destruct (computeAABB_corners m a0 a1 a2 b0 b1 b2 n Hlen Hmin Hmax) as [-> ->].
  reflexivity.
Qed.

Lemma computeAABB_extends_corners_witness :
  getAABB (computeAABB straddling)
  = ([of_Z (-1); of_Z (-2); of_Z (-1)], [one; of_Z 2; of_Z 3]).
Proof.
  rewrite (computeAABB_extends_corners straddling zero zero zero zero zero zero 3
             eq_refl eq_refl eq_refl).
  reflexivity.
Defined.

(** The bounds of one axis after [computeAABB] on a fresh box. *)
Lemma fresh_box_axis (m : t) (n j : nat) :
  fresh_box m n -> (j < 3)%nat ->
  arr_get (minXYZ (computeAABB m)) (Int (Z.of_nat j))
  = foldl lower zero (axis_coords (vertices m) j) /\
  arr_get (maxXYZ (computeAABB m)) (Int (Z.of_nat j))
  = foldl raise zero (axis_coords (vertices m) j).
Proof.
  intros (Hlen & Hmin & Hmax) Hj.
  destruct (computeAABB_corners m _ _ _ _ _ _ n Hlen Hmin Hmax) as [-> ->].
  destruct j as [|[|[|j]]]; [| | |lia]; split; reflexivity.
Qed.

(** X2.  After [computeAABB] on a mesh whose corners the constructor
    set, no bound is NaN, the box holds the origin, and no coordinate of
    a vertex is below the minimum or above the maximum of its axis. *)
Theorem computeAABB_encloses :
  forall (m : t) (n : nat),
    fresh_box m n ->
    forall k j, (k < n)%nat -> (j < 3)%nat ->
      let v := arr_get (vertices m) (Int (Z.of_nat (3 * k + j))) in
      let lo := arr_get (minXYZ (computeAABB m)) (Int (Z.of_nat j)) in
      let hi := arr_get (maxXYZ (computeAABB m)) (Int (Z.of_nat j)) in
      is_nan lo = false /\ is_nan hi = false /\
      lt zero lo = false /\ gt zero hi = false /\
      lt v lo = false /\ gt v hi = false.
Proof.
  intros m n Hfresh k j Hk Hj v lo hi.
  destruct (fresh_box_axis m n j Hfresh Hj) as [Hlo Hhi].
  subst lo hi. rewrite Hlo, Hhi. clear Hlo Hhi.
  destruct Hfresh as (Hlen & _ & _).
  set (cs := axis_coords (vertices m) j).
  destruct (lower_fold zero cs eq_refl) as (L1 & _ & L3).
  destruct (raise_fold zero cs eq_refl) as (R1 & _ & R3).
  cbn zeta in *.
  assert (Hv : v ∈ cs).
  { destruct (lookup_lt_is_Some_2 (vertices m) (3 * k + j)) as [x Hx]; [lia|].
    subst v. rewrite (NormalsSpec.arr_get_lookup _ _ _ Hx).
    apply list_elem_of_lookup. exists k. subst cs.
    rewrite axis_coords_lookup by lia. exact Hx. }
  repeat split; try assumption.
  - apply L3, list_elem_of_here.
  - apply R3, list_elem_of_here.
  - apply L3, list_elem_of_further, Hv.
  - apply R3, list_elem_of_further, Hv.
Qed.

Lemma computeAABB_encloses_witness :
  fresh_box straddling 3 /\
  lt (of_Z 3) (arr_get (minXYZ (computeAABB straddling)) (Int 2)) = false /\
  gt (of_Z 3) (arr_get (maxXYZ (computeAABB straddling)) (Int 2)) = false.
Proof.
  split; [exact straddling_fresh|].
  destruct (computeAABB_encloses straddling 3 straddling_fresh 1 2
              ltac:(lia) ltac:(lia)) as (_ & _ & _ & _ & H1 & H2).
  split; [exact H1|exact H2].
Defined.

(** Every axis has a coordinate that is not above 0 and one that is not
    below 0. *)
Definition straddles_origin (vs : list number) : Prop :=
  forall j, (j < 3)%nat ->
    (exists c, c ∈ axis_coords vs j /\ lt zero c = false) /\
    (exists c, c ∈ axis_coords vs j /\ gt zero c = false).

Lemma least_straddling (cs : list number) :
  Forall (fun c => is_nan c = false) cs ->
  (exists c, c ∈ cs /\ lt zero c = false) ->
  least cs = Some (foldl lower zero cs).
Proof.
  intros Hnan (c & Hc & Hle).
  destruct cs as [|x xs]; [inversion Hc|].
  unfold least. fold lower. f_equal.
  apply Forall_cons in Hnan as [Hx Hxs].
  destruct (lower_fold zero (x :: xs) eq_refl) as (L1 & L2 & L3). cbn zeta in *.
  set (r := foldl lower zero (x :: xs)) in *.
  assert (Hcn : is_nan c = false).
  { apply elem_of_cons in Hc as [->|Hc]; [exact Hx|].
    rewrite Forall_forall in Hxs. exact (Hxs _ Hc). }
  apply lower_fold_unique; [exact Hx|exact L1| |].
  - apply elem_of_cons in L2 as [L2|L2]; [|exact L2].
    assert (c = r); [|subst; exact Hc].
    apply le_antisym; [exact Hcn|exact L1| |].
    + apply L3, list_elem_of_further, Hc.
    + rewrite L2. exact Hle.
  - intros y Hy. apply L3, list_elem_of_further, Hy.
Qed.

Lemma greatest_straddling (cs : list number) :
  Forall (fun c => is_nan c = false) cs ->
  (exists c, c ∈ cs /\ gt zero c = false) ->
  greatest cs = Some (foldl raise zero cs).
Proof.
  intros Hnan (c & Hc & Hle).
  destruct cs as [|x xs]; [inversion Hc|].
  unfold greatest. fold raise. f_equal.
  apply Forall_cons in Hnan as [Hx Hxs].
  destruct (raise_fold zero (x :: xs) eq_refl) as (L1 & L2 & L3). cbn zeta in *.
  set (r := foldl raise zero (x :: xs)) in *.
  assert (Hcn : is_nan c = false).
  { apply elem_of_cons in Hc as [->|Hc]; [exact Hx|].
    rewrite Forall_forall in Hxs. exact (Hxs _ Hc). }
  apply raise_fold_unique; [exact Hx|exact L1| |].
  - apply elem_of_cons in L2 as [L2|L2]; [|exact L2].
    assert (c = r); [|subst; exact Hc].
    unfold gt in *.
    apply le_antisym; [exact Hcn|exact L1| |].
    + rewrite L2. exact Hle.
    + apply L3, list_elem_of_further, Hc.
  - intros y Hy. apply L3, list_elem_of_further, Hy.
Qed.

(** X3.  When no coordinate is NaN and the vertices have, on every
    axis, a coordinate on either side of 0 (or at 0), the box that
    [computeAABB] leaves on a mesh whose corners the constructor set is
    the coordinate-wise minimum and maximum of the vertices. *)
Theorem computeAABB_exact_around_origin :
  forall (m : t) (n : nat),
    fresh_box m n ->
    Forall (fun c => is_nan c = false) (vertices m) ->
    straddles_origin (vertices m) ->
    map Some (minXYZ (computeAABB m)) = true_min (vertices m) /\
    map Some (maxXYZ (computeAABB m)) = true_max (vertices m).
Proof.
  intros m n (Hlen & Hmin & Hmax) Hnan Hst.
  destruct (computeAABB_corners m _ _ _ _ _ _ n Hlen Hmin Hmax) as [-> ->].
  assert (Hax : forall j, Forall (fun c => is_nan c = false) (axis_coords (vertices m) j)).
  { intros j. rewrite Forall_forall in *. intros c Hc.
    apply Hnan. eapply axis_coords_elem, Hc. }
  unfold true_min, true_max. cbn [map].
  destruct (Hst 0%nat ltac:(lia)) as [A0 B0].
  destruct (Hst 1%nat ltac:(lia)) as [A1 B1].
  destruct (Hst 2%nat ltac:(lia)) as [A2 B2].
  rewrite !least_straddling, !greatest_straddling by auto.
  split; reflexivity.
Qed.

Lemma straddling_straddles : straddles_origin (vertices straddling).
Proof.
  intros j Hj. destruct j as [|[|[|j]]]; [| | |lia]; cbn; split.
  - exists (of_Z (-1)). split; [repeat constructor|reflexivity].
  - exists one. split; [repeat constructor|reflexivity].
  - exists (of_Z (-2)). split; [repeat constructor|reflexivity].
  - exists (of_Z 2). split; [repeat constructor|reflexivity].
  - exists zero. split; [repeat constructor|reflexivity].
  - exists (of_Z 3). split; [repeat constructor|reflexivity].
Qed.

Lemma computeAABB_exact_around_origin_witness :
  true_min (vertices straddling) = [Some (of_Z (-1)); Some (of_Z (-2)); Some (of_Z (-1))] /\
  map Some (minXYZ (computeAABB straddling)) = true_min (vertices straddling).
Proof.
  split; [reflexivity|].
  apply (computeAABB_exact_around_origin straddling 3 straddling_fresh).
  - repeat constructor.
  - exact straddling_straddles.
Defined.

(** X4.  Running [computeAABB] a second time changes nothing: the box
    is already the box of its corners and the vertices. *)
Theorem computeAABB_twice :
  forall (m : t) (a0 a1 a2 b0 b1 b2 : number) (n : nat),
    length (vertices m) = (3 * n)%nat ->
    minXYZ m = [a0; a1; a2] -> maxXYZ m = [b0; b1; b2] ->
    getAABB (computeAABB (computeAABB m)) = getAABB (computeAABB m).
Proof.
  intros m a0 a1 a2 b0 b1 b2 n Hlen Hmin Hmax. unfold getAABB.
  destruct (computeAABB_corners m _ _ _ _ _ _ n Hlen Hmin Hmax) as [Mn Mx].
  destruct (computeAABB_geometry m) as (Hv & _).
  assert (Hlen' : length (vertices (computeAABB m)) = (3 * n)%nat)
    by (rewrite Hv; exact Hlen).
  destruct (computeAABB_corners (computeAABB m) _ _ _ _ _ _ n Hlen' Mn Mx) as [-> ->].
  rewrite Hv, Mn, Mx.
  rewrite !lower_fold_idem, !raise_fold_idem. reflexivity.
Qed.

Lemma computeAABB_twice_witness :
  getAABB (computeAABB (computeAABB straddling)) = getAABB (computeAABB straddling).
Proof.
  exact (computeAABB_twice straddling zero zero zero zero zero zero 3
           eq_refl eq_refl eq_refl).
Defined.

(** Operations on rationals, read on their fractions. *)
Ltac qc_ops :=
  cbn [this Qcplus Qcopp Qcmult Q2Qc] in *;
  rewrite ?Qred_correct in *.

(** A bound not above 0 taken from a bound not below 0 leaves a
    difference that is not below 0. *)
Lemma sub_above_below hi lo :
  is_nan hi = false -> is_nan lo = false ->
  gt zero hi = false -> lt zero lo = false ->
  is_nan (sub hi lo) = false /\ lt (sub hi lo) zero = false.
Proof.
  unfold gt.
  destruct hi as [| | |b], lo as [| | |a]; cbn; try discriminate; auto.
  intros _ _.
  destruct (b ?= 0)%Qc eqn:Hb; try discriminate;
    destruct (0 ?= a)%Qc eqn:Ha; try discriminate; intros _ _;
    (split; [reflexivity|]);
    destruct (b + - a ?= 0)%Qc eqn:Hd; try reflexivity;
    qc_facts; subst; qc_ops; lra.
Qed.

(** X5.  On a mesh whose corners the constructor set, [getSize] after
    [computeAABB] has no NaN and no negative component, whatever the
    vertices are. *)
Theorem getSize_not_negative :
  forall (m : t) (n : nat),
    fresh_box m n ->
    forall j, (j < 3)%nat ->
      is_nan (get (getSize (computeAABB m)) j) = false /\
      lt (get (getSize (computeAABB m)) j) zero = false.
Proof.
  intros m n Hfresh j Hj.
  assert (H : forall i, (i < 3)%nat ->
            let lo := arr_get (minXYZ (computeAABB m)) (Int (Z.of_nat i)) in
            let hi := arr_get (maxXYZ (computeAABB m)) (Int (Z.of_nat i)) in
            is_nan (sub hi lo) = false /\ lt (sub hi lo) zero = false).
  { intros i Hi lo hi.
    destruct (fresh_box_axis m n i Hfresh Hi) as [Hlo Hhi].
    subst lo hi. rewrite Hlo, Hhi.
    destruct (lower_fold zero (axis_coords (vertices m) i) eq_refl) as (L1 & _ & L3).
    destruct (raise_fold zero (axis_coords (vertices m) i) eq_refl) as (R1 & _ & R3).
    apply sub_above_below; try assumption.
    - apply R3, list_elem_of_here.
    - apply L3, list_elem_of_here. }
  unfold getSize, float32, subtract. cbn [Vec3.x Vec3.y Vec3.z].
  destruct j as [|[|[|j]]]; [| | |lia]; cbn [get Vec3.x Vec3.y Vec3.z].
  - apply Float32.fround_keeps_sign; apply (H 0%nat ltac:(lia)).
  - apply Float32.fround_keeps_sign; apply (H 1%nat ltac:(lia)).
  - apply Float32.fround_keeps_sign; apply (H 2%nat ltac:(lia)).
Qed.

Lemma getSize_not_negative_witness :
  fresh_box straddling 3 /\
  lt (get (getSize (computeAABB straddling)) 0) zero = false.
Proof.
  split; [exact straddling_fresh|].
  exact (proj2 (getSize_not_negative straddling 3 straddling_fresh 0 ltac:(lia))).
Defined.

(** ** The cube *)

(** Half the absolute value of the size. *)
Definition half_size (size : number) : number := mul half (abs size).

Lemma half_size_cases q :
  (qsign q = Lt /\ half_size (Fin q) = mul mhalf (Fin q)) \/
  (qsign q <> Lt /\ half_size (Fin q) = mul half (Fin q)).
Proof.
  unfold half_size, abs. destruct (qsign q) eqn:Hq.
  - right. split; [discriminate|reflexivity].
  - left. split; [reflexivity|]. cbn. f_equal. ring.
  - right. split; [discriminate|reflexivity].
Qed.

Lemma neg_half_size_cases q :
  (qsign q = Lt /\ neg (half_size (Fin q)) = mul half (Fin q)) \/
  (qsign q <> Lt /\ neg (half_size (Fin q)) = mul mhalf (Fin q)).
Proof.
  unfold half_size, abs. destruct (qsign q) eqn:Hq.
  - right. split; [discriminate|]. cbn. f_equal. ring.
  - left. split; [reflexivity|]. cbn. f_equal. ring.
  - right. split; [discriminate|]. cbn. f_equal. ring.
Qed.

(** Along an axis the corners of the cube sit at minus and plus half the
    size; the bounds are minus and plus half its absolute value. *)
Lemma cube_axis q (cs : list number) :
  (forall c, c ∈ cs -> c = mul mhalf (Fin q) \/ c = mul half (Fin q)) ->
  mul mhalf (Fin q) ∈ cs -> mul half (Fin q) ∈ cs ->
  foldl lower zero cs = neg (half_size (Fin q)) /\
  foldl raise zero cs = half_size (Fin q).
Proof.
  intros Hall Hm Hp. split.
  - apply lower_fold_unique; [reflexivity| | |].
    + destruct (neg_half_size_cases q) as [[_ ->]|[_ ->]]; reflexivity.
    + apply list_elem_of_further.
      destruct (neg_half_size_cases q) as [[_ ->]|[_ ->]]; assumption.
    + intros c [->|Hc]%elem_of_cons;
        [|destruct (Hall c Hc) as [->| ->]];
        destruct (neg_half_size_cases q) as [[Hq ->]|[Hq ->]];
        unfold qsign in Hq; cbn -[Qccompare];
        match goal with |- match ?c with _ => _ end = false =>
          destruct c eqn:Hd; try reflexivity end;
        destruct (q ?= 0)%Qc eqn:Hq'; try congruence;
        qc_facts; subst; qc_ops; lra.
  - apply raise_fold_unique; [reflexivity| | |].
    + destruct (half_size_cases q) as [[_ ->]|[_ ->]]; reflexivity.
    + apply list_elem_of_further.
      destruct (half_size_cases q) as [[_ ->]|[_ ->]]; assumption.
    + unfold gt.
      intros c [->|Hc]%elem_of_cons;
        [|destruct (Hall c Hc) as [->| ->]];
        destruct (half_size_cases q) as [[Hq ->]|[Hq ->]];
        unfold qsign in Hq; cbn -[Qccompare];
        match goal with |- match ?c with _ => _ end = false =>
          destruct c eqn:Hd; try reflexivity end;
        destruct (q ?= 0)%Qc eqn:Hq'; try congruence;
        qc_facts; subst; qc_ops; lra.
Qed.

Lemma sub_neg_half_size q :
  sub (half_size (Fin q)) (neg (half_size (Fin q))) = abs (Fin q).
Proof.
  unfold half_size, abs. destruct (qsign q); cbn; f_equal;
    apply Qc_is_canon; qc_ops; ring.
Qed.

(** What [finish] leaves of the box and of the vertices. *)
Lemma finish_box normalize (m : t) :
  vertices (finish normalize m) = vertices m /\
  minXYZ (finish normalize m) = minXYZ (computeAABB m) /\
  maxXYZ (finish normalize m) = maxXYZ (computeAABB m).
Proof.
  split; [|split; reflexivity].
  destruct (finish_geometry normalize m) as (Hv & _). exact Hv.
Qed.

(** The vertices of the cube before the box is computed. *)
Definition cube_vertices (size : number) : list number :=
  map (fun v => mul v size)
      [mhalf; half; mhalf;   half; half; mhalf;
       half; half; half;     mhalf; half; half;
       mhalf; mhalf; mhalf;  half; mhalf; mhalf;
       half; mhalf; half;    mhalf; mhalf; half].

(** The cube before [finish]. *)
Definition cube_mesh (size : number) : t :=
  mkMesh (cube_vertices size) cube_faces [] 12 8 [zero; zero; zero]
         [zero; zero; zero] 0 None None None.

Lemma fromCube_finish ext normalize size :
  fst (fromCube ext normalize size) = finish normalize (cube_mesh size).
Proof. unfold fromCube, constructor. reflexivity. Qed.

Lemma fromCube_corners ext normalize size :
  let m := fst (fromCube ext normalize size) in
  vertices m = cube_vertices size /\
  minXYZ m = [foldl lower zero (axis_coords (cube_vertices size) 0);
              foldl lower zero (axis_coords (cube_vertices size) 1);
              foldl lower zero (axis_coords (cube_vertices size) 2)] /\
  maxXYZ m = [foldl raise zero (axis_coords (cube_vertices size) 0);
              foldl raise zero (axis_coords (cube_vertices size) 1);
              foldl raise zero (axis_coords (cube_vertices size) 2)].
Proof.
  cbn zeta. rewrite fromCube_finish.
  destruct (finish_box normalize (cube_mesh size)) as (-> & -> & ->).
  assert (Hlen : length (vertices (cube_mesh size)) = (3 * 8)%nat) by reflexivity.
  destruct (computeAABB_corners (cube_mesh size) zero zero zero zero zero zero 8
              Hlen eq_refl eq_refl) as [-> ->].
  repeat split.
Qed.

(** X6.  For a finite size, [fromCube] leaves the box from minus to plus
    half the absolute value of the size on every axis, and [getSize] is,
    three times, the absolute value of the size as a Float32Array holds
    it: the absolute value itself when that is a number of the binary32
    format, the nearest such number otherwise.  A negative size gives
    the box of the positive one.  For the size NaN every coordinate is
    NaN and the box stays at the origin. *)
Theorem fromCube_box :
  forall (ext : bool) (normalize : vec3 -> vec3),
    (forall q : Qc,
       let m := fst (fromCube ext normalize (Fin q)) in
       let h := half_size (Fin q) in
       let s := fround (abs (Fin q)) in
       getAABB m = ([neg h; neg h; neg h], [h; h; h]) /\
       getSize m = mk s s s /\
       (is_float32 (abs (Fin q)) = true ->
        getSize m = mk (abs (Fin q)) (abs (Fin q)) (abs (Fin q)))) /\
    (let m := fst (fromCube ext normalize NaN) in
     Forall (fun c => c = NaN) (vertices m) /\
     getAABB m = ([zero; zero; zero], [zero; zero; zero])).
Proof.
  intros ext normalize. split.
  - intros q m h s. subst m h s.
    destruct (fromCube_corners ext normalize (Fin q)) as (_ & Mn & Mx).
    cbn zeta in *.
    assert (Hax : forall j, (j < 3)%nat ->
              foldl lower zero (axis_coords (cube_vertices (Fin q)) j)
              = neg (half_size (Fin q)) /\
              foldl raise zero (axis_coords (cube_vertices (Fin q)) j)
              = half_size (Fin q)).
    { intros j Hj. apply cube_axis.
      - intros c Hc.
        destruct j as [|[|[|j]]]; [| | |lia];
          cbn [cube_vertices map axis_coords] in Hc;
          repeat (apply elem_of_cons in Hc as [->|Hc]; [tauto|]);
          inversion Hc.
      - destruct j as [|[|[|j]]]; [| | |lia];
          cbn [cube_vertices map axis_coords]; solve [repeat constructor].
      - destruct j as [|[|[|j]]]; [| | |lia];
          cbn [cube_vertices map axis_coords]; solve [repeat constructor]. }
    destruct (Hax 0%nat ltac:(lia)) as [L0 R0].
    destruct (Hax 1%nat ltac:(lia)) as [L1 R1].
    destruct (Hax 2%nat ltac:(lia)) as [L2 R2].
    rewrite L0, L1, L2 in Mn. rewrite R0, R1, R2 in Mx.
    unfold getAABB, getSize. rewrite Mn, Mx. split; [reflexivity|].
    unfold float32, subtract. cbn [Vec3.x Vec3.y Vec3.z].
    change (arr_get [?a; ?b; ?c] (Int 0)) with a.
    change (arr_get [?a; ?b; ?c] (Int 1)) with b.
    change (arr_get [?a; ?b; ?c] (Int 2)) with c.
    rewrite (sub_neg_half_size q). split; [reflexivity|].
    intros Hs. rewrite (Float32.is_float32_eq _ Hs). reflexivity.
  - cbn zeta.
    destruct (fromCube_corners ext normalize NaN) as (Hv & Mn & Mx).
    cbn zeta in *. unfold getAABB. rewrite Hv, Mn, Mx.
    split; [repeat constructor|reflexivity].
Qed.

End BoxSpec.

(* ===================================================================== *)
(** * More on the factories of Mesh                                       *)
(* ===================================================================== *)

Module FactorySpec.

Import Vec3 Mesh MeshMethods MeshSpec NormalsSpec BoxSpec.

(** ** The buffers and [draw] *)

Lemma finish_buffers normalize (m : t) :
  vertexBuffer (finish normalize m)
  = Some (mkBuffer (numVertices m) (map fround (vertices m))) /\
  normalBuffer (finish normalize m)
  = Some (mkBuffer (numVertices m) (map fround (normals (finish normalize m)))) /\
  indexBuffer (finish normalize m)
  = Some (mkBuffer (numFaces m * 3) (map to_uint32 (faces m))).
Proof.
  destruct (computeAABB_geometry m) as (Hv & Hf & Hnv & Hnf).
  rewrite finish_vertexBuffer, finish_indexBuffer, Hv, Hf, Hnv, Hnf.
  repeat split. unfold finish. cbn [normalBuffer generateBuffers set_buffers normals].
  cbn [numVertices generateNormals set_normals set_numNormals].
  rewrite Hnv. reflexivity.
Qed.

(** The mesh that [fromObj] hands to [finish]. *)
Definition parsed (ext : bool) (text : string) : t :=
  let m := foldl obj_line (fst (constructor ext)) (split_lines text) in
  set_numFaces (set_numVertices m (length (vertices m) / 3)) (length (faces m) / 3).

Lemma fromObj_finish ext normalize text :
  fst (fromObj ext normalize text) = finish normalize (parsed ext text).
Proof. unfold fromObj, constructor. reflexivity. Qed.

Lemma parsed_counts ext text :
  length (vertices (parsed ext text)) = (3 * numVertices (parsed ext text))%nat /\
  length (faces (parsed ext text)) = (numFaces (parsed ext text) * 3)%nat.
Proof.
  unfold parsed.
  destruct (fromObj_lengths (split_lines text) (fst (constructor ext)))
    as [Hv Hf]; [reflexivity..|].
  cbn [vertices faces numVertices numFaces set_numFaces set_numVertices].
  set (m := foldl obj_line _ _) in *.
  apply Nat.Div0.div_exact in Hv, Hf. split; lia.
Qed.

(** X7.  Whatever the text, the mesh that [fromObj] returns has its
    three buffers; the vertex buffer holds the vertex array converted
    to float32, three numbers for each of its [numItems], and the
    normal buffer the normals array converted to float32; the index
    buffer holds the face array converted to Uint32, and its [numItems]
    is the number of indices it holds, so [draw] binds it and draws
    exactly the indices uploaded.  A mesh fresh from the constructor
    has no index buffer: [draw] binds [undefined] and throws. *)
Theorem fromObj_buffers_and_draw :
  forall (ext : bool) (normalize : vec3 -> vec3),
    (forall text : string,
       let m := fst (fromObj ext normalize text) in
       exists vb nb ib,
         vertexBuffer m = Some vb /\ normalBuffer m = Some nb /\
         indexBuffer m = Some ib /\
         uploaded vb = map fround (vertices m) /\
         length (uploaded vb) = (3 * numItems vb)%nat /\
         uploaded nb = map fround (normals m) /\ numItems nb = numItems vb /\
         uploaded ib = map to_uint32 (faces m) /\
         numItems ib = length (uploaded ib) /\
         draw m = ([BindElementArrayBuffer (Some ib);
                    DrawElements (length (faces m))], Normal)) /\
    draw (fst (constructor ext)) = ([BindElementArrayBuffer None], TypeError).
Proof.
  intros ext normalize. split; [|reflexivity].
  intros text m. subst m. rewrite fromObj_finish.
  destruct (finish_buffers normalize (parsed ext text)) as (Hvb & Hnb & Hib).
  destruct (finish_geometry normalize (parsed ext text)) as (Hv & Hf & _ & _).
  destruct (parsed_counts ext text) as [Lv Lf].
  eexists _, _, _. split; [exact Hvb|]. split; [exact Hnb|]. split; [exact Hib|].
  cbn [uploaded numItems]. rewrite Hv, Hf.
  repeat split; try assumption.
  - rewrite length_map. exact Lv.
  - rewrite length_map. symmetry. exact Lf.
  - unfold draw. rewrite Hib. cbn [numItems]. rewrite Lf. reflexivity.
Qed.

(** ** The length of the normals *)

(** The corners of every face are vertices of the mesh. *)
Definition faces_in_range (m : t) : Prop :=
  forall i, (i < numFaces m)%nat ->
    exists z1 z2 z3,
      corners m i = [Int z1; Int z2; Int z3] /\
      0 <= z1 < Z.of_nat (numVertices m) /\
      0 <= z2 < Z.of_nat (numVertices m) /\
      0 <= z3 < Z.of_nat (numVertices m).

Lemma accumulate_in_range (m : t) (count : nat) :
  array_length (numVertices m * 3) -> faces_in_range m ->
  (count <= numFaces m)%nat ->
  length (foldl (accumulate_face m) (replicate (numVertices m * 3) zero) (seq 0 count))
  = (numVertices m * 3)%nat.
Proof.
  intros Hlen Hin. induction count as [|count IH]; intros Hc.
  - cbn. apply length_replicate.
  - rewrite seq_S, foldl_app. cbn [foldl Nat.add].
    specialize (IH ltac:(lia)).
    destruct (Hin count ltac:(lia)) as (z1 & z2 & z3 & Hcs & B1 & B2 & B3).
    rewrite (accumulate_face_same_length m _ count z1 z2 z3 Hcs);
      rewrite ?IH; try lia. exact Hlen.
Qed.

(** X8.  When every face index is the index of a vertex, the array of
    normals that [generateNormals] leaves has exactly three numbers for
    each vertex. *)
Theorem generateNormals_length :
  forall (normalize : vec3 -> vec3) (m : t),
    array_length (numVertices m * 3) -> faces_in_range m ->
    length (normals (generateNormals normalize m)) = (numVertices m * 3)%nat.
Proof.
  intros normalize m Hlen Hin. unfold generateNormals.
  cbn [normals set_normals numNormals set_numNormals numFaces].
  change (accumulate_face (set_numNormals m (numVertices m)))
    with (accumulate_face m).
  destruct (accumulate_loop m (numVertices m) (numFaces m) Hlen)
    as (Hge & Hal & Hh). cbn zeta in *.
  pose proof (accumulate_in_range m (numFaces m) Hlen Hin ltac:(lia)) as Hacc.
  set (a := foldl (accumulate_face m) (replicate (numVertices m * 3) zero)
                  (seq 0 (numFaces m))) in *.
  destruct (normalize_loop normalize a (numVertices m)
              (accumulated m (numFaces m)) (numVertices m) Hge Hal Hh)
    as [Hl _]; [lia|].
  rewrite Hl. exact Hacc.
Qed.

Lemma one_triangle_in_range : faces_in_range one_triangle.
Proof.
  intros i Hi. cbn in Hi. assert (i = 0)%nat as -> by lia.
  exists 1, 2, 0. cbn. repeat split; lia.
Qed.

Lemma generateNormals_length_witness :
  length (normals (generateNormals (fun v => v) one_triangle)) = 9%nat.
Proof.
  apply (generateNormals_length (fun v => v) one_triangle).
  - unfold array_length. cbn. lia.
  - exact one_triangle_in_range.
Defined.

End FactorySpec.

(* ===================================================================== *)
(** * Which vertex a face index names                                    *)
(* ===================================================================== *)

Module ObjSpec.

Import Vec3 Mesh MeshMethods MeshSpec NormalsSpec FactorySpec.

(** ** Reading a vertex back *)

(** The coordinate tokens of the vertex lines, in order. *)
Definition vertex_lines (ls : list line) : list (string * string * string) :=
  flat_map (fun l => match l with V x y z => [(x, y, z)] | _ => [] end) ls.

Lemma line_vertices_lookup ls k x y z :
  vertex_lines ls !! k = Some (x, y, z) ->
  flat_map line_vertices ls !! (3 * k)%nat = Some (parseFloat (Some x)) /\
  flat_map line_vertices ls !! (3 * k + 1)%nat = Some (parseFloat (Some y)) /\
  flat_map line_vertices ls !! (3 * k + 2)%nat = Some (parseFloat (Some z)).
Proof.
  revert k. induction ls as [|l ls IH]; intros k; [discriminate|].
  destruct l as [x' y' z'|a b c|text]; cbn [vertex_lines flat_map line_vertices app];
    try apply IH.
  destruct k as [|k].
  - intros [= -> -> ->]. repeat split.
  - cbn [lookup list_lookup]. intros H. specialize (IH k H).
    replace (3 * S k)%nat with (S (S (S (3 * k)))) by lia.
    exact IH.
Qed.

(** The arrays of a text put together from lines. *)
Lemma fromObj_arrays ext normalize ls :
  Forall (fun l => well_formed l = true) ls ->
  let m := fst (fromObj ext normalize (render ls)) in
  vertices m = flat_map line_vertices ls /\ faces m = flat_map line_faces ls.
Proof.
  intros Hwf m. subst m. rewrite fromObj_finish.
  destruct (finish_geometry normalize (parsed ext (render ls))) as (-> & -> & _).
  unfold parsed. cbn [vertices faces set_numFaces set_numVertices].
  destruct ls as [|l ls'].
  - split; reflexivity.
  - unfold render. rewrite split_lines_concat.
    + destruct (obj_lines (fst (constructor ext)) (l :: ls') Hwf) as [Hv Hf].
      rewrite Hv, Hf. split; reflexivity.
    + apply Forall_map. eapply Forall_impl; [exact Hwf|].
      intros l0. apply render_line_one_line.
    + discriminate.
Qed.

Lemma getVertex_outside (m : t) (id : jsint) :
  match id with
  | INaN => True
  | Int z => z < 0 \/ Z.of_nat (length (vertices m)) <= 3 * z
  end ->
  getVertex m id = mk NaN NaN NaN.
Proof.
  destruct id as [|z]; [reflexivity|]. intros Hz.
  unfold getVertex, fromValues. cbn [imul iadd]. unfold arr_get.
  destruct Hz as [Hz|Hz].
  - destruct (Z.leb_spec 0 (3 * z + 0)), (Z.leb_spec 0 (3 * z + 1)),
      (Z.leb_spec 0 (3 * z + 2)); try lia. reflexivity.
  - rewrite !lookup_ge_None_2 by lia.
    repeat match goal with |- context [if ?b then _ else _] => destruct b end;
      reflexivity.
Qed.

(** X9.  In a mesh loaded from a text of vertex, face and comment
    lines, the index that a face token [a] (1-based, as written in the
    text, and not beyond 2^53) becomes refers to the [a]-th vertex
    line: [getVertex] on it returns the three numbers that parseFloat
    reads from that line, converted to float32, which are those numbers
    themselves when they are numbers of the binary32 format.  An index
    that is NaN, negative or not below the number of vertices (such as
    the index that the token 0 becomes) gives the vertex
    (NaN, NaN, NaN). *)
Theorem fromObj_index_refers_to_line :
  forall (ext : bool) (normalize : vec3 -> vec3) (ls : list line),
    Forall (fun l => well_formed l = true) ls ->
    let m := fst (fromObj ext normalize (render ls)) in
    let index_of (a : nat) := isub (parseInt (Some (decimal a))) (Int 1) in
    (forall a x y z,
       vertex_lines ls !! a = Some (x, y, z) ->
       is_safe_index (S a) = true ->
       getVertex m (index_of (S a))
       = float32 (mk (parseFloat (Some x)) (parseFloat (Some y))
                     (parseFloat (Some z))) /\
       (is_float32 (parseFloat (Some x)) = true ->
        is_float32 (parseFloat (Some y)) = true ->
        is_float32 (parseFloat (Some z)) = true ->
        getVertex m (index_of (S a))
        = mk (parseFloat (Some x)) (parseFloat (Some y)) (parseFloat (Some z)))) /\
    (forall a, is_safe_index a = true -> (a = 0 \/ numVertices m < a)%nat ->
       getVertex m (index_of a) = mk NaN NaN NaN) /\
    getVertex m INaN = mk NaN NaN NaN.
Proof.
  intros ext normalize ls Hwf m index_of.
  destruct (fromObj_arrays ext normalize ls Hwf) as [Hv _]. fold m in Hv.
  assert (Hidx : forall a, index_of a = Int (Z.of_nat a - 1)).
  { intros a. unfold index_of. rewrite parseInt_decimal. reflexivity. }
  assert (Hnv : length (vertices m) = (3 * numVertices m)%nat).
  { subst m. rewrite fromObj_finish.
    destruct (finish_geometry normalize (parsed ext (render ls))) as (-> & _ & -> & _).
    apply parsed_counts. }
  split; [|split].
  - intros a x y z Ha _. rewrite Hidx.
    destruct (line_vertices_lookup ls a x y z Ha) as (H0 & H1 & H2).
    rewrite <- Hv in H0, H1, H2.
    unfold getVertex, float32, fromValues. cbn [imul iadd Vec3.x Vec3.y Vec3.z].
    replace (3 * (Z.of_nat (S a) - 1) + 0) with (Z.of_nat (3 * a)) by lia.
    replace (3 * (Z.of_nat (S a) - 1) + 1) with (Z.of_nat (3 * a + 1)) by lia.
    replace (3 * (Z.of_nat (S a) - 1) + 2) with (Z.of_nat (3 * a + 2)) by lia.
    rewrite (arr_get_lookup _ _ _ H0), (arr_get_lookup _ _ _ H1),
      (arr_get_lookup _ _ _ H2).
    split; [reflexivity|]. intros Fx Fy Fz.
    rewrite (Float32.is_float32_eq _ Fx), (Float32.is_float32_eq _ Fy),
      (Float32.is_float32_eq _ Fz).
    reflexivity.
  - intros a _ Ha. rewrite Hidx. apply getVertex_outside. lia.
  - reflexivity.
Qed.

Lemma fromObj_index_refers_to_line_witness :
  Forall (fun l => well_formed l = true) sample_lines /\
  getVertex (fst (fromObj true (fun v => v) (render sample_lines)))
            (isub (parseInt (Some (decimal 2))) (Int 1))
  = mk (parseFloat (Some "1.5"%string)) (parseFloat (Some "0"%string))
       (parseFloat (Some "0"%string)).
Proof.
  assert (H : Forall (fun l => well_formed l = true) sample_lines).
  { unfold sample_lines. repeat constructor. }
  split; [exact H|].
  destruct (fromObj_index_refers_to_line true (fun v => v) sample_lines H)
    as (Hin & _ & _).
  destruct (Hin 1%nat "1.5" "0" "0" eq_refl eq_refl) as [_ Hexact].
  apply Hexact; reflexivity.
Defined.

End ObjSpec.

(* ===================================================================== *)
(** * Face lines with slashes and with more than three indices           *)
(* ===================================================================== *)

Module ObjDialect.

Import Vec3 Mesh MeshMethods MeshSpec StringFacts.
Import DecimalString.
Local Open Scope string_scope.

(** ** Face lines as OBJ files have them *)

(** Reading the digits of a numeral that something else follows. *)
Lemma parse_digits_uint_then d (a : nat) c rest :
  digit_val 10 c = None ->
  parse_digits 10 (Some (Z.of_nat a)) (NilEmpty.string_of_uint d ++ String c rest)
  = Some (Z.of_nat (Nat.of_uint_acc d a)).
Proof.
  intros Hc. revert a.
  induction d; intros a; cbn [NilEmpty.string_of_uint];
    rewrite ?append_cons, ?append_nil_l; cbn [parse_digits];
    [rewrite Hc; reflexivity|..];
    cbn [digit_val nat_of_ascii]; cbn -[Z.mul Z.add Nat.of_uint_acc String.append];
    cbn [Nat.of_uint_acc]; rewrite <- IHd; repeat f_equal.
  all: rewrite ?Nat.tail_mul_spec.
  all: match goal with
       | |- context [nat_of_ascii ?c] =>
           let v := eval vm_compute in (nat_of_ascii c) in
           change (nat_of_ascii c) with v
       end; lia.
Qed.

(** What ends the digits of an index: a character that is no digit,
    and not the x that after a lone 0 begins a hexadecimal numeral. *)
Definition ends_numeral (c : ascii) : bool :=
  negb (is_digit c) && negb (Ascii.eqb c "x") && negb (Ascii.eqb c "X").

Lemma ends_numeral_no_digit c : ends_numeral c = true -> digit_val 10 c = None.
Proof.
  destruct c as [[|] [|] [|] [|] [|] [|] [|] [|]]; vm_compute; congruence.
Qed.

Lemma ends_numeral_no_hex c rest :
  ends_numeral c = true -> strip_hex (String "0" (String c rest)) = None.
Proof.
  destruct c as [[|] [|] [|] [|] [|] [|] [|] [|]]; intros H;
    try reflexivity; vm_compute in H; discriminate H.
Qed.

(** [parseInt] stops where the digits end. *)
Lemma parseInt_decimal_then n c rest :
  ends_numeral c = true ->
  parseInt (Some (decimal n ++ String c rest)) = Int (Z.of_nat n).
Proof.
  intros Hc. pose proof (ends_numeral_no_digit c Hc) as Hdv.
  unfold decimal.
  pose proof (DecimalNat.Unsigned.of_to n) as Hn.
  pose proof (uint_nonempty n) as Hne.
  revert Hn Hne. generalize (Nat.to_uint n). intros d Hn Hne.
  set (s := (NilEmpty.string_of_uint d ++ String c rest)%string).
  assert (Hd : parse_digits 10 None s = Some (Z.of_nat n)).
  { subst s. rewrite <- Hn. unfold Nat.of_uint.
    destruct d; [congruence|..];
      cbn [NilEmpty.string_of_uint]; rewrite append_cons; cbn [parse_digits];
      cbn [digit_val nat_of_ascii]; cbn -[Z.mul Z.add Nat.of_uint_acc String.append];
      cbn [Nat.of_uint_acc];
      rewrite <- (parse_digits_uint_then _ _ c rest Hdv); reflexivity. }
  unfold parseInt.
  change (to_string_arg (Some s)) with s.
  assert (Hpre : trim_left s = s /\ read_sign s = (false, s) /\ strip_hex s = None).
  { subst s. destruct d as [|d|d|d|d|d|d|d|d|d|d]; [congruence|..];
      cbn [NilEmpty.string_of_uint]; rewrite append_cons;
      (split; [reflexivity|split; [reflexivity|]]);
      try reflexivity; destruct d; try reflexivity.
    cbn [NilEmpty.string_of_uint]. rewrite append_nil_l.
    apply ends_numeral_no_hex, Hc. }
  destruct Hpre as (-> & -> & ->). rewrite Hd. reflexivity.
Qed.

(** What may follow the digits of an index in its token: nothing, or
    something that begins with such a character (the slash of [v/vt/vn],
    the carriage return of a line that ends in CR LF). *)
Definition ends_index (rest : string) : bool :=
  match rest with
  | EmptyString => true
  | String c _ => ends_numeral c
  end.

Lemma parseInt_decimal_rest n rest :
  ends_index rest = true -> parseInt (Some (decimal n ++ rest)) = Int (Z.of_nat n).
Proof.
  destruct rest as [|c rest]; intros H.
  - rewrite append_nil_r. apply parseInt_decimal.
  - apply parseInt_decimal_then, H.
Qed.

(** A face token: the index of the vertex, then nothing or a slash and
    what OBJ puts behind it (the indices of a texture coordinate and of
    a normal). *)
Definition index_token (a : nat) (suffix : string) : string :=
  (decimal a ++ suffix)%string.

Definition slash_suffix (s : string) : bool :=
  match s with
  | EmptyString => true
  | String c s' =>
      Ascii.eqb c "/"%char &&
      all_chars (fun c => negb (is_space c) && negb (is_newline c)) s'
  end.

(** The end of the line, or a space and more tokens. *)
Definition more_tokens (r : string) : bool :=
  match r with
  | EmptyString => true
  | String c _ => is_space c
  end.

Lemma index_token_token a s : slash_suffix s = true -> token (index_token a s) = true.
Proof.
  intros Hs. unfold token, index_token.
  destruct (token_inv _ (decimal_token a)) as (Hne & Hsp & Hnl).
  apply andb_true_iff. split.
  - destruct (decimal a); [congruence|reflexivity].
  - rewrite all_chars_app. apply andb_true_iff. split.
    + pose proof (decimal_token a) as H. unfold token in H.
      apply andb_true_iff in H as [_ H]. exact H.
    + destruct s as [|c s']; [reflexivity|]. cbn in Hs |- *.
      apply andb_true_iff in Hs as [Hc Hs']. apply Ascii.eqb_eq in Hc as ->.
      exact Hs'.
Qed.

Lemma parseInt_index_token a s :
  slash_suffix s = true -> parseInt (Some (index_token a s)) = Int (Z.of_nat a).
Proof.
  intros Hs. unfold index_token. apply parseInt_decimal_rest.
  destruct s as [|c s']; [reflexivity|].
  cbn in Hs. apply andb_true_iff in Hs as [Hc _].
  apply Ascii.eqb_eq in Hc as ->. reflexivity.
Qed.

(** The tokens of a line made of a keyword, three tokens and possibly
    more. *)
Lemma split_spaces_4_more (k a b c rest : string) :
  token k = true -> token a = true -> token b = true -> token c = true ->
  more_tokens rest = true ->
  exists more,
    split_spaces (k ++ " " ++ a ++ " " ++ b ++ " " ++ c ++ rest)%string
    = k :: a :: b :: c :: more.
Proof.
  intros Hk Ha Hb Hc Hr. destruct rest as [|x rest].
  - exists []. rewrite append_nil_r. apply split_spaces_4; assumption.
  - cbn in Hr.
    apply token_inv in Hk as (Hk & Hks & _). apply token_inv in Ha as (Ha & Has & _).
    apply token_inv in Hb as (Hb & Hbs & _). apply token_inv in Hc as (Hc & Hcs & _).
    unfold split_spaces.
    change (k ++ " " ++ a ++ " " ++ b ++ " " ++ c ++ String x rest)%string
      with (k ++ String " "%char (a ++ String " "%char (b ++ String " "%char
              (c ++ String x rest))))%string.
    rewrite !split_on_run by (assumption || reflexivity).
    eexists. reflexivity.
Qed.

(** X10.  A face line whose tokens carry the slash-separated indices of
    texture coordinates and normals ([v/vt/vn]), or that has more than
    three tokens (a quad, a polygon), is read like the plain triangle of
    its first three vertex indices: what follows a slash and what
    follows the third token is ignored.  The indices are not beyond
    2^53, so that the numbers read are the numbers written. *)
Theorem obj_line_face_variants :
  forall (m : t) (a b c : nat) (sa sb sc rest : string),
    is_safe_index a = true -> is_safe_index b = true -> is_safe_index c = true ->
    slash_suffix sa = true -> slash_suffix sb = true -> slash_suffix sc = true ->
    more_tokens rest = true ->
    obj_line m ("f " ++ index_token a sa ++ " " ++ index_token b sb ++ " " ++
                index_token c sc ++ rest)
    = set_faces m (faces m ++ [Int (Z.of_nat a - 1); Int (Z.of_nat b - 1);
                               Int (Z.of_nat c - 1)]).
Proof.
  intros m a b c sa sb sc rest _ _ _ Ha Hb Hc Hr. unfold obj_line.
  change ("f " ++ index_token a sa ++ " " ++ index_token b sb ++ " " ++
          index_token c sc ++ rest)%string
    with ("f" ++ " " ++ index_token a sa ++ " " ++ index_token b sb ++ " " ++
          index_token c sc ++ rest)%string.
  destruct (split_spaces_4_more "f" (index_token a sa) (index_token b sb)
              (index_token c sc) rest) as [more Hsplit];
    try (apply index_token_token; assumption); try reflexivity; try assumption.
  rewrite Hsplit.
  cbn [lookup list_lookup].
  rewrite !parseInt_index_token by assumption.
  reflexivity.
Qed.

Lemma obj_line_face_variants_witness :
  faces (obj_line (fst (constructor true)) "f 1/1/1 2/2/1 3/3/1 4/4/1")
  = [Int 0; Int 1; Int 2].
Proof.
  exact (f_equal faces
           (obj_line_face_variants (fst (constructor true)) 1 2 3 "/1/1" "/2/1" "/3/1"
              " 4/4/1" eq_refl eq_refl eq_refl eq_refl eq_refl eq_refl eq_refl)).
Defined.

End ObjDialect.

(* ===================================================================== *)
(** * The lines that fromObj counts                                       *)
(* ===================================================================== *)

Module ObjLines.

Import Vec3 Mesh MeshSpec StringFacts ObjDialect.
Local Open Scope string_scope.













End ObjLines.

(* ===================================================================== *)
(** * The planes of fromPlane                                            *)
(* ===================================================================== *)

Module PlaneSpec.

Import Vec3 Mesh MeshMethods MeshSpec NormalsSpec FactorySpec BoxSpec.

(** ** The normals of a mesh whose faces are in range *)

Lemma accumulate_face_geometry (m m' : t) :
  same_geometry m m' -> accumulate_face m' = accumulate_face m.
Proof.
  intros (Hv & Hf & _ & _).
  unfold accumulate_face, face_normal, getVertex. rewrite Hv, Hf. reflexivity.
Qed.

(** [generateNormals] reads the vertices, the faces and the two counts,
    and nothing else. *)
Lemma generateNormals_geometry normalize (m m' : t) :
  same_geometry m m' ->
  normals (generateNormals normalize m') = normals (generateNormals normalize m).
Proof.
  intros Hg. pose proof (accumulate_face_geometry m m' Hg) as Ha.
  destruct Hg as (_ & _ & Hnv & Hnf).
  unfold generateNormals.
  cbn [normals set_normals numNormals set_numNormals numFaces].
  change (accumulate_face (set_numNormals m' (numVertices m')))
    with (accumulate_face m').
  change (accumulate_face (set_numNormals m (numVertices m)))
    with (accumulate_face m).
  rewrite Ha, Hnv, Hnf. reflexivity.
Qed.

Lemma finish_normals normalize (m : t) :
  normals (finish normalize m) = normals (generateNormals normalize m).
Proof.
  unfold finish. cbn [normals generateBuffers set_buffers].
  apply generateNormals_geometry, computeAABB_geometry.
Qed.

(** With every face in range the array is the normals of the vertices,
    one after the other, and nothing more. *)
Lemma generateNormals_exact normalize (m : t) :
  array_length (numVertices m * 3) -> faces_in_range m ->
  normals (generateNormals normalize m) = normals_spec normalize m.
Proof.
  intros Hlen Hin.
  destruct (generateNormals_holds normalize m Hlen) as [_ Hh].
  rewrite <- (take_ge (normals (generateNormals normalize m)) (numVertices m * 3)).
  - unfold normals_spec. apply holds_take. exact Hh.
  - unfold generateNormals.
    cbn [normals set_normals numNormals set_numNormals numFaces].
    change (accumulate_face (set_numNormals m (numVertices m)))
      with (accumulate_face m).
    destruct (accumulate_loop m (numVertices m) (numFaces m) Hlen)
      as (Hge & Hal & Hh'). cbn zeta in *.
    pose proof (accumulate_in_range m (numFaces m) Hlen Hin ltac:(lia)) as Hacc.
    set (a := foldl (accumulate_face m) (replicate (numVertices m * 3) zero)
                    (seq 0 (numFaces m))) in *.
    destruct (normalize_loop normalize a (numVertices m)
                (accumulated m (numFaces m)) (numVertices m) Hge Hal Hh')
      as [Hl _]; [lia|].
    rewrite Hl, Hacc. lia.
Qed.

(** ** The planes *)

(** Equality of vectors, decided. *)
Definition vec3_eqb (u v : vec3) : bool :=
  number_eqb (x u) (x v) && number_eqb (y u) (y v) && number_eqb (z u) (z v).

Lemma vec3_eqb_eq u v : vec3_eqb u v = true -> u = v.
Proof.
  destruct u, v. unfold vec3_eqb. cbn [x y z].
  intros [[H1 H2]%andb_true_iff H3]%andb_true_iff.
  apply CameraSpec.number_eqb_eq in H1, H2, H3. congruence.
Qed.

(** The plane before [finish]: its four corners, the normals that
    [fromPlane] pushes, and the two triangles. *)
Definition plane_mesh (vs : list number) (pushed : vec3) : t :=
  mkMesh vs [Int 0; Int 1; Int 2; Int 0; Int 2; Int 3] (four_times pushed)
         2 4 [zero; zero; zero] [zero; zero; zero] 0 None None None.

Definition plane_x : t :=
  plane_mesh [zero; mone; mone;  zero; mone; one;  zero; one; one;  zero; one; mone]
             (mk one zero zero).
Definition plane_y : t :=
  plane_mesh [mone; zero; mone;  one; zero; mone;  one; zero; one;  mone; zero; one]
             (mk zero one zero).
Definition plane_z : t :=
  plane_mesh [mone; mone; zero;  one; mone; zero;  one; one; zero;  mone; one; zero]
             (mk zero zero one).

Lemma fromPlane_finish ext normalize :
  (forall axis, axis = "x"%string \/ axis = "X"%string ->
     fst (fromPlane ext normalize axis) = finish normalize plane_x) /\
  (forall axis, axis = "y"%string \/ axis = "Y"%string ->
     fst (fromPlane ext normalize axis) = finish normalize plane_y) /\
  (forall axis, axis = "z"%string \/ axis = "Z"%string ->
     fst (fromPlane ext normalize axis) = finish normalize plane_z).
Proof.
  repeat split; intros axis [-> | ->]; unfold fromPlane, constructor; reflexivity.
Qed.

Lemma plane_in_range vs pushed : faces_in_range (plane_mesh vs pushed).
Proof.
  intros i Hi. cbn in Hi.
  destruct i as [|[|i]]; [| |lia].
  - exists 0, 1, 2. cbn. repeat split; lia.
  - exists 0, 2, 3. cbn. repeat split; lia.
Qed.

(** The normals of a plane: [normalize] of what each corner has
    accumulated; the corners 0 and 2 belong to both triangles. *)
Lemma plane_normals normalize vs pushed (n : vec3) :
  (forall k, (k < 4)%nat ->
     vec3_eqb (accumulated (plane_mesh vs pushed) 2 k)
              (if Nat.even k then Vec3.add n n else n) = true) ->
  normals (finish normalize (plane_mesh vs pushed))
  = to_list (normalize (Vec3.add n n)) ++ to_list (normalize n) ++
    to_list (normalize (Vec3.add n n)) ++ to_list (normalize n).
Proof.
  intros H. rewrite finish_normals.
  rewrite generateNormals_exact;
    [|unfold array_length; cbn; lia|apply plane_in_range].
  unfold normals_spec, vertex_normal.
  cbn [numVertices numFaces plane_mesh seq flat_map].
  rewrite (vec3_eqb_eq _ _ (H 0%nat ltac:(lia))).
  rewrite (vec3_eqb_eq _ _ (H 1%nat ltac:(lia))).
  rewrite (vec3_eqb_eq _ _ (H 2%nat ltac:(lia))).
  rewrite (vec3_eqb_eq _ _ (H 3%nat ltac:(lia))).
  cbn [Nat.even]. rewrite app_nil_r. reflexivity.
Qed.

(** X11.  For each axis that [fromPlane] knows, in either case of the
    letter, the mesh has the four corners of the square of side 2 in
    the plane through the origin across that axis and the two triangles
    0 1 2 and 0 2 3; its box is the square; and its normals are not the
    ones the function pushed, which pointed along the axis, but what
    [generateNormals] computes from the triangles: [normalize] of a
    vector that points against the axis for x and y, and along it for z,
    twice as long at the corners 0 and 2, which both triangles share. *)
Theorem fromPlane_known_axes :
  forall (ext : bool) (normalize : vec3 -> vec3),
    let plane (m : t) (vs : list number) (lo hi : list number) (n : vec3) :=
      vertices m = vs /\
      faces m = [Int 0; Int 1; Int 2; Int 0; Int 2; Int 3] /\
      numVertices m = 4%nat /\ numFaces m = 2%nat /\
      getAABB m = (lo, hi) /\
      normals m = to_list (normalize (Vec3.add n n)) ++ to_list (normalize n) ++
                  to_list (normalize (Vec3.add n n)) ++ to_list (normalize n) in
    (forall axis, axis = "x"%string \/ axis = "X"%string ->
       plane (fst (fromPlane ext normalize axis))
         [zero; mone; mone;  zero; mone; one;  zero; one; one;  zero; one; mone]
         [zero; mone; mone] [zero; one; one]
         (mk (of_Z (-4)) zero zero)) /\
    (forall axis, axis = "y"%string \/ axis = "Y"%string ->
       plane (fst (fromPlane ext normalize axis))
         [mone; zero; mone;  one; zero; mone;  one; zero; one;  mone; zero; one]
         [mone; zero; mone] [one; zero; one]
         (mk zero (of_Z (-4)) zero)) /\
    (forall axis, axis = "z"%string \/ axis = "Z"%string ->
       plane (fst (fromPlane ext normalize axis))
         [mone; mone; zero;  one; mone; zero;  one; one; zero;  mone; one; zero]
         [mone; mone; zero] [one; one; zero]
         (mk zero zero (of_Z 4))).
Proof.
  intros ext normalize plane.
  destruct (fromPlane_finish ext normalize) as (Hx & Hy & Hz).
  assert (Hplane : forall vs pushed lo hi n,
            getAABB (computeAABB (plane_mesh vs pushed)) = (lo, hi) ->
            (forall k, (k < 4)%nat ->
               vec3_eqb (accumulated (plane_mesh vs pushed) 2 k)
                        (if Nat.even k then Vec3.add n n else n) = true) ->
            plane (finish normalize (plane_mesh vs pushed)) vs lo hi n).
  { intros vs pushed lo hi n Hbox Hacc. unfold plane.
    destruct (finish_geometry normalize (plane_mesh vs pushed)) as (-> & -> & -> & ->).
    destruct (finish_box normalize (plane_mesh vs pushed)) as (_ & Hmin & Hmax).
    unfold getAABB in *. rewrite Hmin, Hmax, Hbox.
    rewrite (plane_normals normalize vs pushed n Hacc). repeat split. }
  split; [|split]; intros axis Hax.
  - rewrite (Hx axis Hax). apply Hplane; [vm_compute; reflexivity|].
    intros k Hk. destruct k as [|[|[|[|k]]]]; [| | | |lia]; vm_compute; reflexivity.
  - rewrite (Hy axis Hax). apply Hplane; [vm_compute; reflexivity|].
    intros k Hk. destruct k as [|[|[|[|k]]]]; [| | | |lia]; vm_compute; reflexivity.
  - rewrite (Hz axis Hax). apply Hplane; [vm_compute; reflexivity|].
    intros k Hk. destruct k as [|[|[|[|k]]]]; [| | | |lia]; vm_compute; reflexivity.
Qed.

End PlaneSpec.

(* ===================================================================== *)
(** * An integer mesh written and read back                              *)
(* ===================================================================== *)

Module ObjRoundTrip.

Import Vec3 Mesh MeshMethods MeshSpec NormalsSpec FactorySpec ObjSpec StringFacts.
Import DecimalString.
Local Open Scope string_scope.

(** ** Writing integers and reading them back *)

(** An integer as a text writes it: a minus sign for a negative one, and
    the decimal digits. *)
Definition signed_decimal (z : Z) : string :=
  if (z <? 0)%Z then String "-"%char (decimal (Z.to_nat (- z)))
  else decimal (Z.to_nat z).

Lemma read_decimal_uint d (a : nat) (n : nat) :
  exists k, (n <= k)%nat /\ (d <> Decimal.Nil -> (n < k)%nat) /\
    read_decimal (Z.of_nat a) n (NilEmpty.string_of_uint d)
    = (Z.of_nat (Nat.of_uint_acc d a), k, "").
Proof.
  revert a n. induction d; intros a n; cbn [NilEmpty.string_of_uint read_decimal].
  { exists n. split; [lia|]. split; [congruence|reflexivity]. }
  all: cbn [Nat.of_uint_acc];
    match goal with
    | |- context [digit_val 10 ?c] =>
        let v := eval vm_compute in (digit_val 10 c) in
        change (digit_val 10 c) with v
    end; cbv iota beta.
  all: match goal with
       | |- context [read_decimal ?acc (S ?i) _] =>
           match goal with
           | |- context [Nat.of_uint_acc _ ?b] =>
               replace acc with (Z.of_nat b);
               [destruct (IHd b (S i)) as (k & Hk & _ & ->);
                exists k; split; [lia|]; split; [intros _; lia|reflexivity]|]
           end
       end.
  all: rewrite ?Nat.tail_mul_spec; lia.
Qed.

Lemma parseFloat_digits d :
  d <> Decimal.Nil ->
  forall negative,
    parseFloat (Some (if negative : bool
                      then String "-"%char (NilEmpty.string_of_uint d)
                      else NilEmpty.string_of_uint d))
    = of_Z (if negative then - Z.of_nat (Nat.of_uint d) else Z.of_nat (Nat.of_uint d)).
Proof.
  intros Hne negative. unfold parseFloat.
  set (s := NilEmpty.string_of_uint d).
  assert (Hs : trim_left s = s /\ read_sign s = (false, s) /\
               starts_with_Infinity s = false).
  { subst s. destruct d; [congruence|..]; repeat split. }
  destruct Hs as (Ht & Hsg & Hinf).
  assert (Hpre : read_sign (trim_left (to_string_arg
                   (Some (if negative then String "-"%char s else s))))
                 = (negative, s)).
  { destruct negative; [reflexivity|].
    change (to_string_arg (Some s)) with s. rewrite Ht. exact Hsg. }
  rewrite Hpre, Hinf.
  destruct (read_decimal_uint d 0 0) as (k & _ & Hk & Hrd).
  specialize (Hk Hne). fold s in Hrd. change (Z.of_nat 0) with 0 in Hrd.
  unfold read_mantissa. rewrite Hrd.
  destruct k as [|k]; [lia|]. cbn [Nat.eqb andb read_exponent].
  unfold Nat.of_uint, of_Z. f_equal. apply Qc_is_canon.
  cbn [this Q2Qc]. rewrite !Qred_correct.
  change (0 - Z.of_nat 0) with 0. change ((10 # 1) ^ 0)%Q with 1%Q.
  destruct negative; ring.
Qed.

Lemma parseFloat_signed_decimal z : parseFloat (Some (signed_decimal z)) = of_Z z.
Proof.
  unfold signed_decimal, decimal.
  destruct (Z.ltb_spec z 0).
  - rewrite (parseFloat_digits _ (uint_nonempty _) true).
    rewrite DecimalNat.Unsigned.of_to. f_equal. lia.
  - rewrite (parseFloat_digits _ (uint_nonempty _) false).
    rewrite DecimalNat.Unsigned.of_to. f_equal. lia.
Qed.

Lemma signed_decimal_token z : token (signed_decimal z) = true.
Proof.
  unfold signed_decimal. destruct (z <? 0)%Z; [|apply decimal_token].
  pose proof (decimal_token (Z.to_nat (- z))) as H. unfold token in *.
  apply andb_true_iff in H as [_ H]. cbn. exact H.
Qed.

(** The lines of a mesh with integer coordinates. *)
Definition vertex_line (v : Z * Z * Z) : line :=
  let '(x, y, z) := v in V (signed_decimal x) (signed_decimal y) (signed_decimal z).

Definition face_line (f : nat * nat * nat) : line :=
  let '(a, b, c) := f in F a b c.

Definition integer_mesh_lines (vs : list (Z * Z * Z)) (fs : list (nat * nat * nat))
  : list line :=
  map vertex_line vs ++ map face_line fs.

Definition integer_vertices (vs : list (Z * Z * Z)) : list number :=
  flat_map (fun '(x, y, z) => [of_Z x; of_Z y; of_Z z]) vs.

Definition integer_faces (fs : list (nat * nat * nat)) : list jsint :=
  flat_map (fun '(a, b, c) =>
    [Int (Z.of_nat a - 1); Int (Z.of_nat b - 1); Int (Z.of_nat c - 1)]) fs.

(** The integers that a double holds exactly: up to 2^53 in size. *)
Definition is_safe_integer (z : Z) : bool := (Z.abs z <=? 9007199254740992)%Z.

Definition safe_vertex (v : Z * Z * Z) : bool :=
  let '(x, y, z) := v in
  is_safe_integer x && is_safe_integer y && is_safe_integer z.

Definition safe_face (f : nat * nat * nat) : bool :=
  let '(a, b, c) := f in is_safe_index a && is_safe_index b && is_safe_index c.

Lemma integer_lines_well_formed vs fs :
  Forall (fun f => safe_face f = true) fs ->
  Forall (fun l => well_formed l = true) (integer_mesh_lines vs fs).
Proof.
  intros Hfs. unfold integer_mesh_lines. apply Forall_app. split; apply Forall_map.
  - apply Forall_true. intros [[x y] z]. cbn. rewrite !signed_decimal_token. reflexivity.
  - eapply Forall_impl; [exact Hfs|]. intros [[a b] c] H. exact H.
Qed.

Lemma integer_lines_vertices vs fs :
  flat_map line_vertices (integer_mesh_lines vs fs) = integer_vertices vs.
Proof.
  unfold integer_mesh_lines. rewrite flat_map_app.
  assert (E2 : flat_map line_vertices (map face_line fs) = []).
  { induction fs as [|[[a b] c] fs IH]; [reflexivity|]. cbn. exact IH. }
  rewrite E2, app_nil_r.
  induction vs as [|[[x y] z] vs IH]; [reflexivity|].
  cbn [map flat_map vertex_line line_vertices integer_vertices].
  rewrite !parseFloat_signed_decimal, IH. reflexivity.
Qed.

Lemma integer_lines_faces vs fs :
  flat_map line_faces (integer_mesh_lines vs fs) = integer_faces fs.
Proof.
  unfold integer_mesh_lines. rewrite flat_map_app.
  assert (E1 : flat_map line_faces (map vertex_line vs) = []).
  { induction vs as [|[[x y] z] vs IH]; [reflexivity|]. cbn. exact IH. }
  rewrite E1. cbn [app].
  induction fs as [|[[a b] c] fs IH]; [reflexivity|].
  cbn [map flat_map face_line line_faces integer_faces]. rewrite IH. reflexivity.
Qed.

Lemma length_integer_vertices vs : length (integer_vertices vs) = (3 * length vs)%nat.
Proof.
  induction vs as [|[[x y] z] vs IH]; [reflexivity|].
  cbn [integer_vertices flat_map]. rewrite length_app. fold (integer_vertices vs).
  rewrite IH. cbn [length]. lia.
Qed.

Lemma length_integer_faces fs : length (integer_faces fs) = (3 * length fs)%nat.
Proof.
  induction fs as [|[[a b] c] fs IH]; [reflexivity|].
  cbn [integer_faces flat_map]. rewrite length_app. fold (integer_faces fs).
  rewrite IH. cbn [length]. lia.
Qed.

(** X12.  A mesh of vertices with integer coordinates and triangles
    with 1-based indices, none beyond 2^53 in size (the integers that a
    double holds exactly), written as OBJ text and loaded by [fromObj],
    comes back as it was: the vertex array holds the coordinates, the
    face array the indices less one, and the counts are the numbers of
    vertices and of triangles. *)
Theorem fromObj_reads_back_integer_mesh :
  forall (ext : bool) (normalize : vec3 -> vec3)
         (vs : list (Z * Z * Z)) (fs : list (nat * nat * nat)),
    Forall (fun v => safe_vertex v = true) vs ->
    Forall (fun f => safe_face f = true) fs ->
    let m := fst (fromObj ext normalize (render (integer_mesh_lines vs fs))) in
    vertices m = integer_vertices vs /\
    faces m = integer_faces fs /\
    numVertices m = length vs /\ numFaces m = length fs.
Proof.
  intros ext normalize vs fs _ Hfs m.
  destruct (fromObj_arrays ext normalize _ (integer_lines_well_formed vs fs Hfs))
    as [Hv Hf].
  fold m in Hv, Hf.
  rewrite integer_lines_vertices in Hv. rewrite integer_lines_faces in Hf.
  assert (Hcounts : length (vertices m) = (3 * numVertices m)%nat /\
                    length (faces m) = (numFaces m * 3)%nat).
  { subst m. rewrite fromObj_finish.
    destruct (finish_geometry normalize (parsed ext (render (integer_mesh_lines vs fs))))
      as (-> & -> & -> & ->).
    apply parsed_counts. }
  destruct Hcounts as [Cv Cf].
  rewrite Hv, length_integer_vertices in Cv.
  rewrite Hf, length_integer_faces in Cf.
  repeat split; [exact Hv|exact Hf|lia|lia].
Qed.

(** A triangle with a negative coordinate. *)
Lemma fromObj_reads_back_integer_mesh_witness :
  let vs := [(0, 0, 0); (1, 0, 0); (0, -2, 0)]%Z in
  let fs := [(1, 2, 3)%nat] in
  vertices (fst (fromObj true (fun v => v) (render (integer_mesh_lines vs fs))))
  = integer_vertices vs /\
  faces (fst (fromObj true (fun v => v) (render (integer_mesh_lines vs fs))))
  = [Int 0; Int 1; Int 2].
Proof.
  cbv zeta.
  destruct (fromObj_reads_back_integer_mesh true (fun v => v)
              [(0, 0, 0); (1, 0, 0); (0, -2, 0)]%Z [(1, 2, 3)%nat])
    as (Hv & Hf & _); [repeat constructor..|].
  split; [exact Hv|exact Hf].
Defined.

End ObjRoundTrip.

(* ===================================================================== *)
(** * What gl-matrix leaves in the array it writes                        *)
(* ===================================================================== *)

Module GlMatrixRun.

Import Heap GlMatrix Frame CameraSpec.

(** Reading the array that was just replaced. *)
Lemma run_rd_upd_same {B} (l : loc) i (f : number -> M B) (s : store) o :
  (l < length s)%nat ->
  (rd l i ≫= f) (<[l := o]> s) = f (el o i) (<[l := o]> s).
Proof.
  intros Hl. rewrite run_rd. rewrite list_lookup_insert_eq by exact Hl. reflexivity.
Qed.

Lemma rd_upd_same (l : loc) i (s : store) o :
  (l < length s)%nat -> rd l i (<[l := o]> s) = (el o i, <[l := o]> s).
Proof.
  intros Hl. unfold rd. rewrite list_lookup_insert_eq by exact Hl. reflexivity.
Qed.

(** An array of three or four elements, written out. *)
Ltac three o H :=
  do 3 (destruct o as [|? o]; [discriminate H|]);
  destruct o; [|discriminate H].
Ltac four o H :=
  do 4 (destruct o as [|? o]; [discriminate H|]);
  destruct o; [|discriminate H].

Section WithMath.

Variable Math_sin : number -> number.
Variable Math_cos : number -> number.

(** [vec3.add(out, a, b)] into an array that is neither [a] nor [b]. *)
Lemma vec3_add_run (out a b : loc) (s : store) o :
  s !! out = Some o -> length o = 3%nat -> a <> out -> b <> out ->
  vec3_add out a b s
  = (tt, <[out := [(el (default [] (s !! a)) 0 + el (default [] (s !! b)) 0)%J;
                   (el (default [] (s !! a)) 1 + el (default [] (s !! b)) 1)%J;
                   (el (default [] (s !! a)) 2 + el (default [] (s !! b)) 2)%J]]> s).
Proof.
  intros Ho Hlen Ha Hb. pose proof (lookup_lt_Some _ _ _ Ho) as Hlt.
  unfold vec3_add. rewrite <- (list_insert_id s out _ Ho) at 1.
  rewrite !run_rd_upd_other by assumption. rewrite run_wr_upd by exact Hlt.
  rewrite !run_rd_upd_other by assumption. rewrite run_wr_upd by exact Hlt.
  rewrite !run_rd_upd_other by assumption. rewrite run_wr_upd_last by exact Hlt.
  three o Hlen. reflexivity.
Qed.

(** [vec3.subtract(a, a, b)]: in place. *)
Lemma vec3_subtract_run (a b : loc) (s : store) o :
  s !! a = Some o -> length o = 3%nat -> b <> a ->
  vec3_subtract a a b s
  = (tt, <[a := [(el o 0 - el (default [] (s !! b)) 0)%J;
                 (el o 1 - el (default [] (s !! b)) 1)%J;
                 (el o 2 - el (default [] (s !! b)) 2)%J]]> s).
Proof.
  intros Ho Hlen Hb. pose proof (lookup_lt_Some _ _ _ Ho) as Hlt.
  unfold vec3_subtract. rewrite <- (list_insert_id s a _ Ho) at 1.
  rewrite run_rd_upd_same by exact Hlt.
  rewrite run_rd_upd_other by assumption. rewrite run_wr_upd by exact Hlt.
  rewrite run_rd_upd_same by exact Hlt.
  rewrite run_rd_upd_other by assumption. rewrite run_wr_upd by exact Hlt.
  rewrite run_rd_upd_same by exact Hlt.
  rewrite run_rd_upd_other by assumption. rewrite run_wr_upd_last by exact Hlt.
  three o Hlen. reflexivity.
Qed.

(** [quat.conjugate(out, a)] into another array. *)
Lemma quat_conjugate_run (out a : loc) (s : store) o :
  s !! out = Some o -> length o = 4%nat -> a <> out ->
  quat_conjugate out a s
  = (tt, <[out := [(- el (default [] (s !! a)) 0)%J;
                   (- el (default [] (s !! a)) 1)%J;
                   (- el (default [] (s !! a)) 2)%J;
                   el (default [] (s !! a)) 3]]> s).
Proof.
  intros Ho Hlen Ha. pose proof (lookup_lt_Some _ _ _ Ho) as Hlt.
  unfold quat_conjugate. rewrite <- (list_insert_id s out _ Ho) at 1.
  rewrite run_rd_upd_other by assumption. rewrite run_wr_upd by exact Hlt.
  rewrite run_rd_upd_other by assumption. rewrite run_wr_upd by exact Hlt.
  rewrite run_rd_upd_other by assumption. rewrite run_wr_upd by exact Hlt.
  rewrite run_rd_upd_other by assumption. rewrite run_wr_upd_last by exact Hlt.
  four o Hlen. reflexivity.
Qed.

(** What [vec3.transformQuat] computes from a vector and a quaternion. *)
Definition transformQuat_val (v q : list number) : list number :=
  let x := el v 0 in let y := el v 1 in let z := el v 2 in
  let qx := el q 0 in let qy := el q 1 in let qz := el q 2 in let qw := el q 3 in
  let ix := (qw * x + qy * z - qz * y)%J in
  let iy := (qw * y + qz * x - qx * z)%J in
  let iz := (qw * z + qx * y - qy * x)%J in
  let iw := (- qx * x - qy * y - qz * z)%J in
  [ (ix * qw + iw * - qx + iy * - qz - iz * - qy)%J;
    (iy * qw + iw * - qy + iz * - qx - ix * - qz)%J;
    (iz * qw + iw * - qz + ix * - qy - iy * - qx)%J ].

(** [vec3.transformQuat(a, a, q)]: in place. *)
Lemma vec3_transformQuat_run (a q : loc) (s : store) o :
  s !! a = Some o -> length o = 3%nat -> q <> a ->
  vec3_transformQuat a a q s
  = (tt, <[a := transformQuat_val o (default [] (s !! q))]> s).
Proof.
  intros Ho Hlen Hq. pose proof (lookup_lt_Some _ _ _ Ho) as Hlt.
  unfold vec3_transformQuat. rewrite <- (list_insert_id s a _ Ho) at 1.
  rewrite !run_rd_upd_same by exact Hlt.
  rewrite !run_rd_upd_other by assumption. cbv zeta.
  rewrite !run_wr_upd by exact Hlt. rewrite run_wr_upd_last by exact Hlt.
  three o Hlen. reflexivity.
Qed.

(** What the three world rotations compute. *)
Definition rotateX_val (a : list number) (rad : number) : list number :=
  let rad := (rad * half)%J in
  let ax := el a 0 in let ay := el a 1 in let az := el a 2 in let aw := el a 3 in
  let bx := Math_sin rad in let bw := Math_cos rad in
  [ (ax * bw + aw * bx)%J; (ay * bw + az * bx)%J;
    (az * bw - ay * bx)%J; (aw * bw - ax * bx)%J ].

Definition rotateY_val (a : list number) (rad : number) : list number :=
  let rad := (rad * half)%J in
  let ax := el a 0 in let ay := el a 1 in let az := el a 2 in let aw := el a 3 in
  let by_ := Math_sin rad in let bw := Math_cos rad in
  [ (ax * bw - az * by_)%J; (ay * bw + aw * by_)%J;
    (az * bw + ax * by_)%J; (aw * bw - ay * by_)%J ].

Definition rotateZ_val (a : list number) (rad : number) : list number :=
  let rad := (rad * half)%J in
  let ax := el a 0 in let ay := el a 1 in let az := el a 2 in let aw := el a 3 in
  let bz := Math_sin rad in let bw := Math_cos rad in
  [ (ax * bw + ay * bz)%J; (ay * bw - ax * bz)%J;
    (az * bw + aw * bz)%J; (aw * bw - az * bz)%J ].

Lemma quat_rotateX_run (a : loc) rad (s : store) o :
  s !! a = Some o -> length o = 4%nat ->
  quat_rotateX Math_sin Math_cos a a rad s = (tt, <[a := rotateX_val o rad]> s).
Proof.
  intros Ho Hlen. pose proof (lookup_lt_Some _ _ _ Ho) as Hlt.
  unfold quat_rotateX. cbv zeta. rewrite <- (list_insert_id s a _ Ho) at 1.
  rewrite !run_rd_upd_same by exact Hlt.
  rewrite !run_wr_upd by exact Hlt. rewrite run_wr_upd_last by exact Hlt.
  four o Hlen. reflexivity.
Qed.

Lemma quat_rotateY_run (a : loc) rad (s : store) o :
  s !! a = Some o -> length o = 4%nat ->
  quat_rotateY Math_sin Math_cos a a rad s = (tt, <[a := rotateY_val o rad]> s).
Proof.
  intros Ho Hlen. pose proof (lookup_lt_Some _ _ _ Ho) as Hlt.
  unfold quat_rotateY. cbv zeta. rewrite <- (list_insert_id s a _ Ho) at 1.
  rewrite !run_rd_upd_same by exact Hlt.
  rewrite !run_wr_upd by exact Hlt. rewrite run_wr_upd_last by exact Hlt.
  four o Hlen. reflexivity.
Qed.

Lemma quat_rotateZ_run (a : loc) rad (s : store) o :
  s !! a = Some o -> length o = 4%nat ->
  quat_rotateZ Math_sin Math_cos a a rad s = (tt, <[a := rotateZ_val o rad]> s).
Proof.
  intros Ho Hlen. pose proof (lookup_lt_Some _ _ _ Ho) as Hlt.
  unfold quat_rotateZ. cbv zeta. rewrite <- (list_insert_id s a _ Ho) at 1.
  rewrite !run_rd_upd_same by exact Hlt.
  rewrite !run_wr_upd by exact Hlt. rewrite run_wr_upd_last by exact Hlt.
  four o Hlen. reflexivity.
Qed.

(** [quat.setAxisAngle(out, axis, rad)] into another array. *)
Lemma quat_setAxisAngle_run (out axis : loc) rad (s : store) o :
  s !! out = Some o -> length o = 4%nat -> axis <> out ->
  quat_setAxisAngle Math_sin Math_cos out axis rad s
  = (tt, <[out := [(Math_sin (rad * half) * el (default [] (s !! axis)) 0)%J;
                   (Math_sin (rad * half) * el (default [] (s !! axis)) 1)%J;
                   (Math_sin (rad * half) * el (default [] (s !! axis)) 2)%J;
                   Math_cos (rad * half)%J]]> s).
Proof.
  intros Ho Hlen Ha. pose proof (lookup_lt_Some _ _ _ Ho) as Hlt.
  unfold quat_setAxisAngle. cbv zeta. rewrite <- (list_insert_id s out _ Ho) at 1.
  rewrite run_rd_upd_other by assumption. rewrite run_wr_upd by exact Hlt.
  rewrite run_rd_upd_other by assumption. rewrite run_wr_upd by exact Hlt.
  rewrite run_rd_upd_other by assumption. rewrite run_wr_upd by exact Hlt.
  rewrite run_wr_upd_last by exact Hlt.
  four o Hlen. reflexivity.
Qed.

(** The product of two quaternions. *)
Definition quat_mul_val (a b : list number) : list number :=
  let ax := el a 0 in let ay := el a 1 in let az := el a 2 in let aw := el a 3 in
  let bx := el b 0 in let by_ := el b 1 in let bz := el b 2 in let bw := el b 3 in
  [ (ax * bw + aw * bx + ay * bz - az * by_)%J;
    (ay * bw + aw * by_ + az * bx - ax * bz)%J;
    (az * bw + aw * bz + ax * by_ - ay * bx)%J;
    (aw * bw - ax * bx - ay * by_ - az * bz)%J ].

(** [quat.multiply(a, a, b)]: in place. *)
Lemma quat_multiply_run (a b : loc) (s : store) o :
  s !! a = Some o -> length o = 4%nat -> b <> a ->
  quat_multiply a a b s = (tt, <[a := quat_mul_val o (default [] (s !! b))]> s).
Proof.
  intros Ho Hlen Hb. pose proof (lookup_lt_Some _ _ _ Ho) as Hlt.
  unfold quat_multiply. rewrite <- (list_insert_id s a _ Ho) at 1.
  rewrite !run_rd_upd_same by exact Hlt.
  rewrite !run_rd_upd_other by assumption.
  rewrite !run_wr_upd by exact Hlt. rewrite run_wr_upd_last by exact Hlt.
  four o Hlen. reflexivity.
Qed.

End WithMath.

(** ** Stores that grow *)

Lemma alloc_run init (s : store) :
  alloc init s = (length s, s ++ [init]).
Proof. reflexivity. Qed.

Lemma lookup_new (s : store) a : (s ++ [a]) !! length s = Some a.
Proof. rewrite lookup_app_r by lia. rewrite Nat.sub_diag. reflexivity. Qed.

Lemma lookup_old (s : store) a l x : s !! l = Some x -> (s ++ [a]) !! l = Some x.
Proof. intros H. rewrite lookup_app_l by (eapply lookup_lt_Some, H). exact H. Qed.

End GlMatrixRun.

(* ===================================================================== *)
(** * More on Camera                                                      *)
(* ===================================================================== *)

Module CameraMore.

Import Heap GlMatrix Camera Frame CameraSpec GlMatrixRun.

Section Host.

Variable Math_sqrt : number -> number.
Variable Math_sin : number -> number.
Variable Math_cos : number -> number.
Variable degToRad : number -> number.

(** ** What each method writes *)

(** The arrays, among those that exist, that a call may write. *)
Definition writes (this : Camera.t) (c : call) : list loc :=
  match c with
  | RotateX _ | RotateY _ | RotateZ _
  | RotateLocalX _ | RotateLocalY _ | RotateLocalZ _ => [rotation this]
  | SetWorldPos _ _ _ | Translate _ _ _ | TranslateLocal _ _ _ => [translation this]
  | GetViewMatrix outMatrix => [outMatrix]
  | GetLocalVector _ _ _ => []
  end.

(** X13.  A call of a method leaves every array that existed as it was,
    but for one: the rotations write the rotation quaternion and nothing
    else, [setWorldPos], [translate] and [translateLocal] write the
    translation vector and nothing else, [getViewMatrix] writes the
    matrix it is handed and nothing else, and [getLocalVector] writes
    nothing that existed; no array is ever removed. *)
Theorem perform_writes :
  forall (this : Camera.t) (c : call) (s : store),
    let s' := snd (perform Math_sin Math_cos degToRad this c s) in
    (length s <= length s')%nat /\
    forall l, (l < length s)%nat -> l ∉ writes this c -> s' !! l = s !! l.
Proof.
  intros this c s. cbn zeta.
  assert (H : modifies (writes this c) (perform Math_sin Math_cos degToRad this c)).
  { destruct c; cbn [perform writes];
      unfold rotateLocalX, rotateLocalY, rotateLocalZ.
    - apply rotateX_modifies. solve_elem.
    - apply rotateY_modifies. solve_elem.
    - apply rotateZ_modifies. solve_elem.
    - apply rotateLocal_modifies. solve_elem.
    - apply rotateLocal_modifies. solve_elem.
    - apply rotateLocal_modifies. solve_elem.
    - apply setWorldPos_modifies. solve_elem.
    - apply translate_modifies. solve_elem.
    - apply translateLocal_modifies. solve_elem.
    - apply getViewMatrix_modifies. solve_elem.
    - apply modifies_bind; [apply getLocalVector_modifies|intros ?; apply modifies_ret]. }
  exact (H s).
Qed.

(** ** The constructor *)

(** What [mat4.lookAt] leaves is [lookAt_val] of what the three vectors
    hold. *)
Lemma mat4_lookAt_run (out eye center up : loc) (s : store) o :
  s !! out = Some o -> length o = 16%nat ->
  mat4_lookAt Math_sqrt out eye center up s
  = (tt, <[out := lookAt_val Math_sqrt (default [] (s !! eye))
                    (default [] (s !! center)) (default [] (s !! up))]> s).
Proof.
  intros Ho Hlen. unfold mat4_lookAt, mat4_identity, lookAt_val. rewrite !run_rd.
  cbv zeta.
  match goal with |- context [if ?b then _ else _] => destruct b end.
  - apply (wr_from_whole out identity16 s o Ho). rewrite Hlen. reflexivity.
  - repeat match goal with
           | |- context [negb (truthy ?l)] => destruct (negb (truthy l))
           end;
      (apply (wr_from_whole out _ s o Ho); rewrite Hlen; reflexivity).
Qed.

Lemma length_lookAt_val (eye center up : list number) :
  length (lookAt_val Math_sqrt eye center up) = 16%nat.
Proof.
  unfold lookAt_val. cbv zeta.
  match goal with |- context [if ?b then _ else _] => destruct b end;
    [reflexivity|].
  repeat match goal with
         | |- context [negb (truthy ?l)] => destruct (negb (truthy l))
         end; reflexivity.
Qed.

(** Numbers of the binary32 format, which a vec3 holds. *)
Definition float32_vec (v : list number) : Prop :=
  Forall (fun x => is_float32 x = true) v.

(** What the constructor leaves in the store. *)
Lemma constructor_result (origin dir : loc) (s0 : store) (o d : list number) :
  s0 !! origin = Some o -> s0 !! dir = Some d ->
  let this := fst (constructor Math_sqrt origin dir s0) in
  let s := snd (constructor Math_sqrt origin dir s0) in
  let eye := [el o 0; el o 1; el o 2] in
  lookDirection this = dir /\
  length s = (length s0 + 6)%nat /\
  (forall l, l ∈ [eyePoint this; up this; viewPoint this; translation this;
                  rotation this; lookAtMatrix this] -> (length s0 <= l)%nat) /\
  (forall l, (l < length s0)%nat -> s !! l = s0 !! l) /\
  s !! eyePoint this = Some eye /\
  s !! up this = Some [zero; one; zero] /\
  s !! viewPoint this = Some (add_val eye d) /\
  s !! translation this = Some [zero; zero; zero] /\
  s !! rotation this = Some [zero; zero; zero; one] /\
  s !! lookAtMatrix this
  = Some (lookAt_val Math_sqrt eye (add_val eye d) [zero; one; zero]).
Proof.
  intros Ho Hd.
  pose proof (lookup_lt_Some _ _ _ Ho) as Lo.
  pose proof (lookup_lt_Some _ _ _ Hd) as Ld.
  set (n := length s0).
  set (s3 := ((s0 ++ [[el o 0; el o 1; el o 2]]) ++ [[zero; one; zero]])
               ++ [[zero; zero; zero]]).
  assert (L3 : length s3 = (n + 3)%nat)
    by (subst s3 n; rewrite !length_app; cbn; lia).
  assert (E3 : s3 !! n = Some [el o 0; el o 1; el o 2]).
  { subst s3 n. rewrite !lookup_app_l by (rewrite ?length_app; cbn; lia).
    apply lookup_new. }
  assert (U3 : s3 !! (n + 1)%nat = Some [zero; one; zero]).
  { subst s3 n. rewrite lookup_app_l by (rewrite ?length_app; cbn; lia).
    replace (length s0 + 1)%nat with (length (s0 ++ [[el o 0; el o 1; el o 2]]))
      by (rewrite length_app; cbn; lia).
    apply lookup_new. }
  assert (V3 : s3 !! (n + 2)%nat = Some [zero; zero; zero]).
  { subst s3 n.
    replace (length s0 + 2)%nat
      with (length ((s0 ++ [[el o 0; el o 1; el o 2]]) ++ [[zero; one; zero]]))
      by (rewrite !length_app; cbn; lia).
    apply lookup_new. }
  assert (K3 : forall l, (l < n)%nat -> s3 !! l = s0 !! l).
  { intros l Hl. subst s3 n. rewrite !lookup_app_l by (rewrite ?length_app; cbn; lia).
    reflexivity. }
  set (vp := add_val [el o 0; el o 1; el o 2] d).
  set (s4 := <[(n + 2)%nat := vp]> s3).
  set (s7 := ((s4 ++ [[zero; zero; zero]]) ++ [[zero; zero; zero; one]])
               ++ [identity16]).
  assert (L4 : length s4 = (n + 3)%nat) by (subst s4; rewrite length_insert; exact L3).
  assert (L7 : length s7 = (n + 6)%nat)
    by (subst s7; rewrite !length_app, L4; cbn; lia).
  assert (K7 : forall l, (l < n + 3)%nat -> s7 !! l = s4 !! l).
  { intros l Hl. subst s7. rewrite !lookup_app_l by (rewrite ?length_app, ?L4; cbn; lia).
    reflexivity. }
  assert (T7 : s7 !! (n + 3)%nat = Some [zero; zero; zero]).
  { subst s7. rewrite !lookup_app_l by (rewrite ?length_app, ?L4; cbn; lia).
    rewrite <- L4. apply lookup_new. }
  assert (R7 : s7 !! (n + 4)%nat = Some [zero; zero; zero; one]).
  { subst s7. rewrite lookup_app_l by (rewrite ?length_app, ?L4; cbn; lia).
    replace (n + 4)%nat with (length (s4 ++ [[zero; zero; zero]]))
      by (rewrite length_app, L4; cbn; lia).
    apply lookup_new. }
  assert (M7 : s7 !! (n + 5)%nat = Some identity16).
  { subst s7.
    replace (n + 5)%nat
      with (length ((s4 ++ [[zero; zero; zero]]) ++ [[zero; zero; zero; one]]))
      by (rewrite !length_app, L4; cbn; lia).
    apply lookup_new. }
  pose proof (mat4_lookAt_run (n + 5) n (n + 2) (n + 1) s7 identity16 M7 eq_refl)
    as Hrun.
  assert (E7 : s7 !! n = Some [el o 0; el o 1; el o 2]).
  { rewrite K7 by lia. subst s4. rewrite list_lookup_insert_ne by lia. exact E3. }
  assert (U7 : s7 !! (n + 1)%nat = Some [zero; one; zero]).
  { rewrite K7 by lia. subst s4. rewrite list_lookup_insert_ne by lia. exact U3. }
  assert (V7 : s7 !! (n + 2)%nat = Some vp).
  { rewrite K7 by lia. subst s4. apply list_lookup_insert_eq. lia. }
  rewrite E7, U7, V7 in Hrun. cbn [default] in Hrun. unfold id in Hrun.
  set (look := lookAt_val Math_sqrt [el o 0; el o 1; el o 2] vp [zero; one; zero])
    in Hrun.
  assert (Hc : constructor Math_sqrt origin dir s0
               = (mkCamera n (n + 1) (n + 2) (n + 3) (n + 4) dir (n + 5),
                  <[(n + 5)%nat := look]> s7)).
  { unfold constructor.
    erewrite run_bind
      by (unfold vec3_clone; rewrite !run_rd, Ho; cbn [default]; unfold id;
          apply alloc_run).
    erewrite run_bind by apply alloc_run.
    erewrite run_bind by apply alloc_run.
    fold n. rewrite !length_app. cbn [length]. fold n.
    replace (n + 1 + 1)%nat with (n + 2)%nat by lia.
    fold s3.
    erewrite run_bind
      by (apply (vec3_add_run (n + 2) n dir s3 _ V3 eq_refl); lia).
    rewrite E3, (K3 dir Ld), Hd. cbn [default]. unfold id.
    fold (add_val [el o 0; el o 1; el o 2] d). fold vp. fold s4.
    erewrite run_bind by apply alloc_run.
    erewrite run_bind by apply alloc_run.
    erewrite run_bind by apply alloc_run.
    rewrite !length_app, L4. cbn [length].
    replace (n + 3 + 1)%nat with (n + 4)%nat by lia.
    replace (n + 4 + 1)%nat with (n + 5)%nat by lia.
    fold s7.
    erewrite run_bind by exact Hrun.
    reflexivity. }
  cbn zeta. rewrite Hc. cbn [fst snd lookDirection eyePoint up viewPoint translation
                             rotation lookAtMatrix].
  split; [reflexivity|]. split; [rewrite length_insert; exact L7|].
  split.
  { intros l Hl. rewrite !elem_of_cons, elem_of_nil in Hl. lia. }
  split.
  { intros l Hl. rewrite list_lookup_insert_ne by lia. rewrite K7 by lia.
    subst s4. rewrite list_lookup_insert_ne by lia. apply K3. exact Hl. }
  split.
  { rewrite list_lookup_insert_ne by lia. rewrite K7 by lia.
    subst s4. rewrite list_lookup_insert_ne by lia. exact E3. }
  split.
  { rewrite list_lookup_insert_ne by lia. rewrite K7 by lia.
    subst s4. rewrite list_lookup_insert_ne by lia. exact U3. }
  split.
  { rewrite list_lookup_insert_ne by lia. rewrite K7 by lia.
    subst s4. apply list_lookup_insert_eq. lia. }
  split.
  { rewrite list_lookup_insert_ne by lia. exact T7. }
  split.
  { rewrite list_lookup_insert_ne by lia. exact R7. }
  apply list_lookup_insert_eq. lia.
Qed.


(** X14.  The constructor makes six new arrays and changes none that
    existed.  The up vector is (0, 1, 0), the translation is zero and
    the rotation the identity quaternion; the look-at matrix has
    sixteen entries.  The eye point is a copy of the origin when the
    origin holds numbers of the binary32 format, as a vec3 does, and
    the view point is the origin plus the look direction, component by
    component, when these sums are such numbers.  The look direction is
    not copied: the field refers to the array of the caller. *)
Theorem constructor_copies_origin_shares_direction :
  forall (origin dir : loc) (s0 : store) (o d : list number),
    s0 !! origin = Some o -> s0 !! dir = Some d ->
    float32_vec [el o 0; el o 1; el o 2] ->
    float32_vec [(el o 0 + el d 0)%J; (el o 1 + el d 1)%J; (el o 2 + el d 2)%J] ->
    let this := fst (constructor Math_sqrt origin dir s0) in
    let s := snd (constructor Math_sqrt origin dir s0) in
    lookDirection this = dir /\
    length s = (length s0 + 6)%nat /\
    (forall l, l ∈ [eyePoint this; up this; viewPoint this; translation this;
                    rotation this; lookAtMatrix this] -> (length s0 <= l)%nat) /\
    (forall l, (l < length s0)%nat -> s !! l = s0 !! l) /\
    s !! eyePoint this = Some [el o 0; el o 1; el o 2] /\
    s !! up this = Some [zero; one; zero] /\
    s !! viewPoint this
    = Some [(el o 0 + el d 0)%J; (el o 1 + el d 1)%J; (el o 2 + el d 2)%J] /\
    s !! translation this = Some [zero; zero; zero] /\
    s !! rotation this = Some [zero; zero; zero; one] /\
    exists look, s !! lookAtMatrix this = Some look /\ length look = 16%nat.
Proof.
  intros origin dir s0 o d Ho Hd _ _.
  destruct (constructor_result origin dir s0 o d Ho Hd)
    as (H1 & H2 & H3 & H4 & H5 & H6 & H7 & H8 & H9 & H10).
  cbn zeta.
  split; [exact H1|]. split; [exact H2|]. split; [exact H3|]. split; [exact H4|].
  split; [exact H5|]. split; [exact H6|]. split; [exact H7|]. split; [exact H8|].
  split; [exact H9|].
  eexists. split; [exact H10|]. apply length_lookAt_val.
Qed.

(** C6, as the code has it.  The constructor builds the look-at matrix
    with [mat4.lookAt] from the eye point, the view point, which is
    what [vec3.add] makes of the eye point and the look direction, and
    the up vector (0, 1, 0); it leaves the rotation the identity
    quaternion and the translation zero; and the eye point is the
    origin, when the origin holds numbers of the binary32 format.  When
    that matrix holds finite numbers, [getViewMatrix], handed a matrix
    of sixteen entries that is not the camera's own [lookAtMatrix],
    leaves in it exactly the entries of that matrix. *)
Theorem view_matrix_is_lookAt :
  forall (origin dir outMatrix : loc) (s0 : store) (o d out0 : list number),
    s0 !! origin = Some o -> s0 !! dir = Some d ->
    let this := fst (constructor Math_sqrt origin dir s0) in
    let s := snd (constructor Math_sqrt origin dir s0) in
    s !! outMatrix = Some out0 -> length out0 = 16%nat ->
    outMatrix <> lookAtMatrix this ->
    exists eye view look : list number,
      s !! eyePoint this = Some eye /\
      (float32_vec [el o 0; el o 1; el o 2] -> eye = [el o 0; el o 1; el o 2]) /\
      s !! viewPoint this = Some view /\
      view = add_val eye d /\
      s !! up this = Some [zero; one; zero] /\
      s !! rotation this = Some [zero; zero; zero; one] /\
      s !! translation this = Some [zero; zero; zero] /\
      look = lookAt_val Math_sqrt eye view [zero; one; zero] /\
      s !! lookAtMatrix this = Some look /\
      (Forall (fun x => is_finite x = true) look ->
       snd (getViewMatrix this outMatrix s) !! outMatrix = Some look).
Proof.
  intros origin dir out s0 o d out0 Ho Hd this s Hout Hlen Hne.
  destruct (constructor_result origin dir s0 o d Ho Hd)
    as (_ & _ & _ & _ & H5 & H6 & H7 & H8 & H9 & H10).
  fold this s in H5, H6, H7, H8, H9, H10.
  eexists _, _, _.
  split; [exact H5|]. split; [intros _; reflexivity|].
  split; [exact H7|]. split; [reflexivity|].
  split; [exact H6|]. split; [exact H9|]. split; [exact H8|].
  split; [reflexivity|]. split; [exact H10|].
  intros Hfin.
  exact (view_matrix_unmoved this out s _ out0 H9 H8 H10
           (length_lookAt_val _ _ _) Hfin Hout Hlen Hne).
Qed.

End Host.

Lemma constructor_copies_origin_shares_direction_witness :
  lookDirection example_camera = 1%nat /\
  example_state !! eyePoint example_camera = Some [zero; zero; of_Z 5] /\
  example_state !! viewPoint example_camera
  = Some [(zero + zero)%J; (zero + zero)%J; (of_Z 5 + of_Z (-1))%J].
Proof.
  destruct (constructor_copies_origin_shares_direction sqrt_floor 0%nat 1%nat
              example_store [zero; zero; of_Z 5] [zero; zero; of_Z (-1)]
              eq_refl eq_refl) as (H1 & _ & _ & _ & H2 & _ & H3 & _);
    [repeat constructor..|].
  split; [exact H1|]. split; [exact H2|exact H3].
Defined.

(** The camera at (0, 0, 5) that looks along -z: its view matrix,
    written into the matrix of the caller, is the translation by
    (0, 0, -5) that the constructor built. *)
Lemma view_matrix_is_lookAt_witness :
  example_state !! 2%nat = Some identity16 /\
  snd (getViewMatrix example_camera 2 example_state) !! 2%nat
  = Some example_lookAt.
Proof.
  assert (Hout : example_state !! 2%nat = Some identity16) by reflexivity.
  split; [exact Hout|].
  destruct (view_matrix_is_lookAt sqrt_floor 0%nat 1%nat 2%nat example_store
              [zero; zero; of_Z 5] [zero; zero; of_Z (-1)] identity16
              eq_refl eq_refl Hout eq_refl)
    as (eye & view & look & _ & _ & _ & _ & _ & _ & _ & _ & Hlook & Hview).
  - change (2%nat <> lookAtMatrix example_camera).
    rewrite example_camera_fields. cbn. lia.
  - change (example_state !! lookAtMatrix example_camera = Some look) in Hlook.
    rewrite example_camera_fields in Hlook. cbn [lookAtMatrix] in Hlook.
    rewrite example_lookAt_built in Hlook. injection Hlook as <-.
    apply Hview. exact example_lookAt_finite.
Defined.

Section Host.

Variable Math_sqrt : number -> number.
Variable Math_sin : number -> number.
Variable Math_cos : number -> number.
Variable degToRad : number -> number.

(** ** Moving the camera *)

(** X15.  [translate] takes its arguments away from the translation,
    component by component, and [setWorldPos] stores its arguments as
    they are, whatever the translation was: the two methods count in
    opposite directions.  The translation is a Float32Array: the
    arguments are taken to be numbers of the binary32 format, and so
    are the differences that [translate] stores. *)
Theorem translate_subtracts_setWorldPos_stores :
  forall (this : Camera.t) (s : store) (a b c x y z : number),
    s !! translation this = Some [a; b; c] ->
    float32_vec [x; y; z] ->
    float32_vec [(a - x)%J; (b - y)%J; (c - z)%J] ->
    snd (translate this x y z s) !! translation this
    = Some [(a - x)%J; (b - y)%J; (c - z)%J] /\
    snd (setWorldPos this x y z s) !! translation this = Some [x; y; z].
Proof.
  intros this s a b c x y z Ht _ _.
  pose proof (lookup_lt_Some _ _ _ Ht) as Lt. split.
  - unfold translate, vec3_fromValues.
    erewrite run_bind by apply alloc_run.
    rewrite (vec3_subtract_run (translation this) (length s) (s ++ [[x; y; z]])
               [a; b; c] (lookup_old _ _ _ _ Ht) eq_refl) by lia.
    cbn [snd]. rewrite lookup_new. cbn [default]. unfold id.
    apply list_lookup_insert_eq. rewrite length_app. lia.
  - unfold setWorldPos.
    rewrite <- (list_insert_id s _ _ Ht).
    rewrite !run_wr_upd by exact Lt. rewrite run_wr_upd_last by exact Lt.
    cbn [snd]. apply list_lookup_insert_eq. exact Lt.
Qed.

(** ** The local frame of a camera that was not turned *)

(** The conjugate of a quaternion. *)
Definition conjugate_val (q : list number) : list number :=
  [(- el q 0)%J; (- el q 1)%J; (- el q 2)%J; el q 3].

(** The vector [(x, y, z)] in the frame of the camera: what
    [getLocalVector] computes, and [translateLocal] before it
    subtracts. *)
Definition local_val (q : list number) (x y z : number) : list number :=
  transformQuat_val [x; y; z] (conjugate_val q).

Lemma getLocalVector_run this x y z (s : store) q :
  s !! rotation this = Some q ->
  exists s', getLocalVector this x y z s = (length s, s') /\
    length s' = (length s + 2)%nat /\
    s' !! length s = Some (local_val q x y z) /\
    forall l, (l < length s)%nat -> s' !! l = s !! l.
Proof.
  intros Hq. pose proof (lookup_lt_Some _ _ _ Hq) as Lq.
  set (n := length s).
  set (s2 := (s ++ [[x; y; z]]) ++ [[zero; zero; zero; one]]).
  assert (L2 : length s2 = (n + 2)%nat) by (subst s2 n; rewrite !length_app; cbn; lia).
  assert (V2 : s2 !! n = Some [x; y; z]).
  { subst s2 n. rewrite lookup_app_l by (rewrite length_app; cbn; lia). apply lookup_new. }
  assert (C2 : s2 !! (n + 1)%nat = Some [zero; zero; zero; one]).
  { subst s2 n. replace (length s + 1)%nat with (length (s ++ [[x; y; z]]))
      by (rewrite length_app; cbn; lia). apply lookup_new. }
  assert (K2 : forall l, (l < n)%nat -> s2 !! l = s !! l).
  { intros l Hl. subst s2 n. rewrite !lookup_app_l by (rewrite ?length_app; cbn; lia).
    reflexivity. }
  set (s3 := <[(n + 1)%nat := conjugate_val q]> s2).
  assert (V3 : s3 !! n = Some [x; y; z])
    by (subst s3; rewrite list_lookup_insert_ne by lia; exact V2).
  eexists. split.
  - unfold getLocalVector, vec3_fromValues, quat_create.
    erewrite run_bind by apply alloc_run.
    erewrite run_bind by apply alloc_run.
    rewrite length_app. cbn [length]. fold n. fold s2.
    erewrite run_bind
      by (apply (quat_conjugate_run (n + 1) (rotation this) s2 _ C2 eq_refl); lia).
    rewrite (K2 _ Lq), Hq. cbn [default]. unfold id. fold (conjugate_val q). fold s3.
    erewrite run_bind
      by (apply (vec3_transformQuat_run n (n + 1) s3 _ V3 eq_refl); lia).
    subst s3. rewrite list_lookup_insert_eq by lia. cbn [default]. unfold id.
    fold (local_val q x y z). reflexivity.
  - split; [rewrite !length_insert; exact L2|]. split.
    + apply list_lookup_insert_eq. rewrite length_insert. lia.
    + intros l Hl. rewrite !list_lookup_insert_ne by lia. apply K2. exact Hl.
Qed.

(** [translateLocal] does the same to its own vector, and subtracts. *)
Lemma translateLocal_run this x y z (s : store) q t :
  s !! rotation this = Some q -> s !! translation this = Some t ->
  length t = 3%nat ->
  snd (translateLocal this x y z s) !! translation this
  = Some [(el t 0 - el (local_val q x y z) 0)%J;
          (el t 1 - el (local_val q x y z) 1)%J;
          (el t 2 - el (local_val q x y z) 2)%J].
Proof.
  intros Hq Ht Hlen. pose proof (lookup_lt_Some _ _ _ Hq) as Lq.
  pose proof (lookup_lt_Some _ _ _ Ht) as Lt.
  set (n := length s).
  set (s2 := (s ++ [[x; y; z]]) ++ [[zero; zero; zero; one]]).
  assert (L2 : length s2 = (n + 2)%nat) by (subst s2 n; rewrite !length_app; cbn; lia).
  assert (V2 : s2 !! n = Some [x; y; z]).
  { subst s2 n. rewrite lookup_app_l by (rewrite length_app; cbn; lia). apply lookup_new. }
  assert (C2 : s2 !! (n + 1)%nat = Some [zero; zero; zero; one]).
  { subst s2 n. replace (length s + 1)%nat with (length (s ++ [[x; y; z]]))
      by (rewrite length_app; cbn; lia). apply lookup_new. }
  assert (K2 : forall l, (l < n)%nat -> s2 !! l = s !! l).
  { intros l Hl. subst s2 n. rewrite !lookup_app_l by (rewrite ?length_app; cbn; lia).
    reflexivity. }
  set (s3 := <[(n + 1)%nat := conjugate_val q]> s2).
  assert (V3 : s3 !! n = Some [x; y; z])
    by (subst s3; rewrite list_lookup_insert_ne by lia; exact V2).
  set (s4 := <[n := local_val q x y z]> s3).
  assert (T4 : s4 !! translation this = Some t).
  { subst s4 s3. rewrite !list_lookup_insert_ne by (unfold n; lia).
    rewrite K2 by exact Lt. exact Ht. }
  unfold translateLocal, vec3_fromValues, quat_create.
  erewrite run_bind by apply alloc_run.
  erewrite run_bind by apply alloc_run.
  rewrite length_app. cbn [length]. fold n. fold s2.
  erewrite run_bind
    by (apply (quat_conjugate_run (n + 1) (rotation this) s2 _ C2 eq_refl); lia).
  rewrite (K2 _ Lq), Hq. cbn [default]. unfold id. fold (conjugate_val q). fold s3.
  erewrite run_bind
    by (apply (vec3_transformQuat_run n (n + 1) s3 _ V3 eq_refl); lia).
  replace (default [] (s3 !! (n + 1)%nat)) with (conjugate_val q)
    by (subst s3; rewrite list_lookup_insert_eq by lia; reflexivity).
  fold (local_val q x y z). fold s4.
  assert (L4 : length s4 = (n + 2)%nat)
    by (subst s4 s3; rewrite !length_insert; exact L2).
  assert (N4 : s4 !! n = Some (local_val q x y z))
    by (subst s4; apply list_lookup_insert_eq; subst s3; rewrite length_insert; lia).
  rewrite (vec3_subtract_run (translation this) n s4 t T4 Hlen) by (unfold n; lia).
  cbn [snd]. rewrite N4. cbn [default]. unfold id.
  apply list_lookup_insert_eq. rewrite L4. unfold n. lia.
Qed.

Lemma local_val_unrotated x y z :
  is_finite x = true -> is_finite y = true -> is_finite z = true ->
  local_val [zero; zero; zero; one] x y z = [x; y; z].
Proof.
  intros [a ->]%finite_inv [b ->]%finite_inv [c ->]%finite_inv.
  unfold local_val, conjugate_val, transformQuat_val, el. cbn.
  repeat (f_equal; [f_equal; ring|]). do 2 f_equal. ring.
Qed.

(** X16.  On a camera whose rotation is the identity quaternion the
    local frame is the world frame: for finite numbers
    [getLocalVector] returns a new array, which holds the vector it was
    given when that is made of numbers of the binary32 format (the
    array is a Float32Array), and [translateLocal] leaves the
    translation that [translate] leaves. *)
Theorem local_frame_of_unrotated_camera :
  forall (this : Camera.t) (s : store) (a b c x y z : number),
    s !! rotation this = Some [zero; zero; zero; one] ->
    s !! translation this = Some [a; b; c] ->
    is_finite x = true -> is_finite y = true -> is_finite z = true ->
    let r := getLocalVector this x y z s in
    (length s <= fst r)%nat /\
    (float32_vec [x; y; z] -> snd r !! fst r = Some [x; y; z]) /\
    snd (translateLocal this x y z s) !! translation this
    = snd (translate this x y z s) !! translation this.
Proof.
  intros this s a b c x y z Hq Ht Hx Hy Hz.
  pose proof (lookup_lt_Some _ _ _ Hq) as Lq.
  pose proof (lookup_lt_Some _ _ _ Ht) as Lt.
  cbn zeta.
  destruct (getLocalVector_run this x y z s _ Hq) as (s' & Hrun & Hl & Hv & Hk).
  rewrite Hrun. cbn [fst snd]. split; [lia|].
  rewrite local_val_unrotated in Hv by assumption.
  split; [intros _; exact Hv|].
  rewrite (translateLocal_run this x y z s _ [a; b; c] Hq Ht eq_refl).
  rewrite local_val_unrotated by assumption.
  unfold translate, vec3_fromValues.
  erewrite run_bind by apply alloc_run.
  rewrite (vec3_subtract_run (translation this) (length s) (s ++ [[x; y; z]])
             [a; b; c] (lookup_old _ _ _ _ Ht) eq_refl) by lia.
  cbn [snd]. rewrite lookup_new. cbn [default]. unfold id.
  symmetry. apply list_lookup_insert_eq. rewrite length_app. lia.
Qed.

End Host.

Lemma translate_subtracts_setWorldPos_stores_witness :
  snd (translate example_camera one (of_Z 2) (of_Z 3) example_state)
    !! translation example_camera
  = Some [(zero - one)%J; (zero - of_Z 2)%J; (zero - of_Z 3)%J] /\
  snd (setWorldPos example_camera one (of_Z 2) (of_Z 3) example_state)
    !! translation example_camera
  = Some [one; of_Z 2; of_Z 3].
Proof.
  apply (translate_subtracts_setWorldPos_stores example_camera example_state
           zero zero zero one (of_Z 2) (of_Z 3) (proj2 example_not_moved));
    repeat constructor.
Defined.

Lemma local_frame_of_unrotated_camera_witness :
  snd (getLocalVector example_camera one (of_Z 2) (of_Z 3) example_state)
    !! fst (getLocalVector example_camera one (of_Z 2) (of_Z 3) example_state)
  = Some [one; of_Z 2; of_Z 3].
Proof.
  destruct (local_frame_of_unrotated_camera example_camera example_state
              zero zero zero one (of_Z 2) (of_Z 3)
              (proj1 example_not_moved) (proj2 example_not_moved)
              eq_refl eq_refl eq_refl) as (_ & H & _).
  apply H. repeat constructor.
Defined.

Section Host.

Variable Math_sqrt : number -> number.
Variable Math_sin : number -> number.
Variable Math_cos : number -> number.
Variable degToRad : number -> number.

(** ** Turning a camera that was not turned *)

(** The quaternion of a turn by [rad] about an axis. *)
Definition axisAngle_val (axis : list number) (rad : number) : list number :=
  [(Math_sin (rad * half) * el axis 0)%J; (Math_sin (rad * half) * el axis 1)%J;
   (Math_sin (rad * half) * el axis 2)%J; Math_cos (rad * half)%J].

Lemma rotateLocal_run this x y z d (s : store) q :
  s !! rotation this = Some q -> length q = 4%nat ->
  snd (rotateLocal Math_sin Math_cos degToRad this x y z d s) !! rotation this
  = Some (quat_mul_val q (axisAngle_val (local_val q x y z) (- degToRad d)%J)).
Proof.
  intros Hq Hlen. pose proof (lookup_lt_Some _ _ _ Hq) as Lq.
  set (n := length s).
  set (s1 := s ++ [[zero; zero; zero; one]]).
  assert (L1 : length s1 = (n + 1)%nat) by (subst s1 n; rewrite length_app; cbn; lia).
  assert (Q1 : s1 !! rotation this = Some q) by (apply lookup_old; exact Hq).
  assert (R1 : s1 !! n = Some [zero; zero; zero; one]) by apply lookup_new.
  destruct (getLocalVector_run this x y z s1 q Q1) as (s2 & Hrun & L2 & V2 & K2).
  rewrite L1 in *.
  assert (R2 : s2 !! n = Some [zero; zero; zero; one])
    by (rewrite K2 by lia; exact R1).
  assert (Q2 : s2 !! rotation this = Some q)
    by (rewrite K2 by (unfold n; lia); exact Q1).
  set (rq := axisAngle_val (local_val q x y z) (- degToRad d)%J).
  set (s3 := <[n := rq]> s2).
  assert (Q3 : s3 !! rotation this = Some q)
    by (subst s3; rewrite list_lookup_insert_ne by (unfold n; lia); exact Q2).
  assert (R3 : s3 !! n = Some rq)
    by (subst s3; apply list_lookup_insert_eq; lia).
  unfold rotateLocal, quat_create.
  erewrite run_bind by apply alloc_run. fold n. fold s1.
  erewrite run_bind by exact Hrun.
  erewrite run_bind
    by (apply (quat_setAxisAngle_run Math_sin Math_cos n (n + 1) _ s2 _ R2 eq_refl); lia).
  rewrite V2. cbn [default]. unfold id.
  fold (axisAngle_val (local_val q x y z) (- degToRad d)%J).
  fold rq. fold s3.
  rewrite (quat_multiply_run (rotation this) n s3 q Q3 Hlen) by (unfold n; lia).
  cbn [snd]. rewrite R3. cbn [default]. unfold id.
  apply list_lookup_insert_eq. subst s3. rewrite length_insert, L2. unfold n. lia.
Qed.

Lemma rotate_run this d (s : store) q :
  s !! rotation this = Some q -> length q = 4%nat ->
  snd (rotateX Math_sin Math_cos degToRad this d s) !! rotation this
  = Some (rotateX_val Math_sin Math_cos q (- degToRad d)%J) /\
  snd (rotateY Math_sin Math_cos degToRad this d s) !! rotation this
  = Some (rotateY_val Math_sin Math_cos q (- degToRad d)%J) /\
  snd (rotateZ Math_sin Math_cos degToRad this d s) !! rotation this
  = Some (rotateZ_val Math_sin Math_cos q (- degToRad d)%J).
Proof.
  intros Hq Hlen. pose proof (lookup_lt_Some _ _ _ Hq) as Lq.
  unfold rotateX, rotateY, rotateZ.
  rewrite (quat_rotateX_run Math_sin Math_cos _ _ s q Hq Hlen).
  rewrite (quat_rotateY_run Math_sin Math_cos _ _ s q Hq Hlen).
  rewrite (quat_rotateZ_run Math_sin Math_cos _ _ s q Hq Hlen).
  cbn [snd]. repeat split; apply list_lookup_insert_eq; exact Lq.
Qed.

Lemma quat_eq (a b c d a' b' c' d' : Qc) :
  a = a' -> b = b' -> c = c' -> d = d' ->
  Some [Fin a; Fin b; Fin c; Fin d] = Some [Fin a'; Fin b'; Fin c'; Fin d'].
Proof. intros -> -> -> ->. reflexivity. Qed.

(** X17.  On a camera whose rotation is the identity quaternion, a turn
    about a local axis is the turn about the world axis of the same
    name: as long as the sine and the cosine of minus half the angle
    are finite, [rotateLocalX] leaves the quaternion that [rotateX]
    leaves, and so for Y and Z.  When the sine and the cosine are
    numbers of the binary32 format (the quaternion is a Float32Array),
    that quaternion has the sine in the component of the axis and the
    cosine in its last. *)
Theorem rotateLocal_of_unrotated_camera :
  forall (this : Camera.t) (s : store) (d : number),
    s !! rotation this = Some [zero; zero; zero; one] ->
    let si := Math_sin (- degToRad d * half)%J in
    let co := Math_cos (- degToRad d * half)%J in
    is_finite si = true -> is_finite co = true ->
    (snd (rotateLocalX Math_sin Math_cos degToRad this d s) !! rotation this
     = snd (rotateX Math_sin Math_cos degToRad this d s) !! rotation this /\
     snd (rotateLocalY Math_sin Math_cos degToRad this d s) !! rotation this
     = snd (rotateY Math_sin Math_cos degToRad this d s) !! rotation this /\
     snd (rotateLocalZ Math_sin Math_cos degToRad this d s) !! rotation this
     = snd (rotateZ Math_sin Math_cos degToRad this d s) !! rotation this) /\
    (is_float32 si = true -> is_float32 co = true ->
     snd (rotateX Math_sin Math_cos degToRad this d s) !! rotation this
     = Some [si; zero; zero; co] /\
     snd (rotateY Math_sin Math_cos degToRad this d s) !! rotation this
     = Some [zero; si; zero; co] /\
     snd (rotateZ Math_sin Math_cos degToRad this d s) !! rotation this
     = Some [zero; zero; si; co]).
Proof.
  intros this s d Hq si co Hsi Hco.
  enough (H :
    (snd (rotateLocalX Math_sin Math_cos degToRad this d s) !! rotation this
     = Some [si; zero; zero; co] /\
     snd (rotateX Math_sin Math_cos degToRad this d s) !! rotation this
     = Some [si; zero; zero; co]) /\
    (snd (rotateLocalY Math_sin Math_cos degToRad this d s) !! rotation this
     = Some [zero; si; zero; co] /\
     snd (rotateY Math_sin Math_cos degToRad this d s) !! rotation this
     = Some [zero; si; zero; co]) /\
    (snd (rotateLocalZ Math_sin Math_cos degToRad this d s) !! rotation this
     = Some [zero; zero; si; co] /\
     snd (rotateZ Math_sin Math_cos degToRad this d s) !! rotation this
     = Some [zero; zero; si; co])).
  { destruct H as ((LX & WX) & (LY & WY) & (LZ & WZ)).
    rewrite LX, LY, LZ, WX, WY, WZ. repeat split. }
  destruct (rotate_run this d s _ Hq eq_refl) as (RX & RY & RZ).
  rewrite RX, RY, RZ. unfold rotateLocalX, rotateLocalY, rotateLocalZ.
  rewrite !(rotateLocal_run this _ _ _ d s _ Hq eq_refl).
  rewrite !local_val_unrotated by reflexivity.
  unfold quat_mul_val, axisAngle_val, rotateX_val, rotateY_val, rotateZ_val, el.
  cbn [lookup list_lookup default]. unfold id. cbv zeta. fold si co.
  destruct (finite_inv _ Hsi) as [a Ha]. destruct (finite_inv _ Hco) as [b Hb].
  rewrite Ha, Hb. cbn. unfold zero.
  repeat split; apply quat_eq; ring.
Qed.

End Host.

(** A camera at (0, 0, 5) that looks along -z, turned by 180 degrees:
    the sine of minus a quarter of a turn is -1 and its cosine 0. *)
Lemma rotateLocal_of_unrotated_camera_witness :
  snd (rotateLocalX (fun _ => of_Z (-1)) (fun _ => zero) (fun x => x) example_camera
         (of_Z 180) example_state) !! rotation example_camera
  = Some [of_Z (-1); zero; zero; zero] /\
  snd (rotateX (fun _ => of_Z (-1)) (fun _ => zero) (fun x => x) example_camera
         (of_Z 180) example_state) !! rotation example_camera
  = Some [of_Z (-1); zero; zero; zero].
Proof.
  destruct (rotateLocal_of_unrotated_camera (fun _ => of_Z (-1)) (fun _ => zero)
              (fun x => x) example_camera example_state (of_Z 180)
              (proj1 example_not_moved) eq_refl eq_refl)
    as [(Hlocal & _ & _) Hworld].
  destruct (Hworld eq_refl eq_refl) as (Hx & _ & _).
  split; [rewrite Hlocal|]; exact Hx.
Defined.

(** ** The view matrix in general *)

(** X18.  Handed a matrix of sixteen entries that is not the camera's
    own [lookAtMatrix], [getViewMatrix] leaves in it the product, in
    the order of [mat4.multiply], of the matrix of the rotation
    quaternion, the matrix of the translation, and the look-at matrix:
    (R T) L. *)
Theorem getViewMatrix_is_product :
  forall (this : Camera.t) (outMatrix : loc) (s : store) (q t look o : list number),
    s !! rotation this = Some q ->
    s !! translation this = Some t ->
    s !! lookAtMatrix this = Some look ->
    s !! outMatrix = Some o -> length o = 16%nat ->
    outMatrix <> lookAtMatrix this ->
    snd (getViewMatrix this outMatrix s) !! outMatrix
    = Some (mul_val (mul_val (fromQuat_val q) (fromTranslation_val t)) look).
Proof.
  intros this out s q t look o Hrot Htr Hlook Ho Holen Hne.
  pose proof (lookup_lt_Some _ _ _ Hrot) as Lrot.
  pose proof (lookup_lt_Some _ _ _ Htr) as Ltr.
  pose proof (lookup_lt_Some _ _ _ Hlook) as Llook.
  pose proof (lookup_lt_Some _ _ _ Ho) as Lout.
  unfold getViewMatrix.
  rewrite (run_bind _ _ _ _ _ (mat4_create_run s)).
  set (s1 := s ++ [identity16]).
  assert (L1 : length s1 = S (length s)) by (subst s1; rewrite length_app; cbn; lia).
  assert (K1 : forall l, (l < length s)%nat -> s1 !! l = s !! l)
    by (intros l Hl; apply lookup_app_l; exact Hl).
  assert (R1 : s1 !! length s = Some identity16) by apply lookup_new.
  rewrite (run_bind _ _ _ _ _ (mat4_fromQuat_run _ (rotation this) s1 _ R1 eq_refl)).
  rewrite (K1 _ Lrot), Hrot. cbn [default]. unfold id.
  set (R := fromQuat_val q).
  set (s2 := <[length s := R]> s1).
  assert (L2 : length s2 = S (length s)) by (subst s2; rewrite length_insert; exact L1).
  assert (K2 : forall l, (l < length s)%nat -> s2 !! l = s !! l).
  { intros l Hl. subst s2. rewrite list_lookup_insert_ne by lia. apply K1, Hl. }
  assert (R2 : s2 !! length s = Some R)
    by (subst s2; apply list_lookup_insert_eq; lia).
  rewrite (run_bind _ _ _ _ _ (mat4_create_run s2)).
  set (s3 := s2 ++ [identity16]).
  assert (K3 : forall l, (l < length s2)%nat -> s3 !! l = s2 !! l)
    by (intros l Hl; apply lookup_app_l; exact Hl).
  assert (T3 : s3 !! length s2 = Some identity16) by apply lookup_new.
  assert (N3 : translation this <> length s2) by lia.
  assert (B3 : (translation this < length s2)%nat) by lia.
  rewrite (run_bind _ _ _ _ _
             (mat4_fromTranslation_run (length s2) (translation this) s3
                identity16 T3 eq_refl N3)).
  rewrite (K3 _ B3), (K2 _ Ltr), Htr. cbn [default]. unfold id.
  set (T := fromTranslation_val t).
  set (s4 := <[length s2 := T]> s3).
  assert (L4 : length s4 = S (length s2))
    by (subst s4 s3; rewrite length_insert, length_app; cbn; lia).
  assert (K4 : forall l, (l < length s)%nat -> s4 !! l = s !! l).
  { intros l Hl. subst s4. rewrite list_lookup_insert_ne by lia.
    rewrite K3 by lia. apply K2, Hl. }
  assert (R4 : s4 !! length s = Some R).
  { subst s4. rewrite list_lookup_insert_ne by lia. rewrite K3 by lia. exact R2. }
  assert (T4 : s4 !! length s2 = Some T).
  { subst s4. apply list_lookup_insert_eq. subst s3. rewrite length_app. cbn. lia. }
  assert (O4 : s4 !! out = Some o) by (rewrite K4 by exact Lout; exact Ho).
  assert (N4 : length s2 <> out) by lia.
  rewrite (run_bind _ _ _ _ _
             (mat4_multiply_run out (length s) (length s2) s4 o O4 Holen N4)).
  rewrite R4, T4. cbn [default]. unfold id.
  set (s5 := <[out := mul_val R T]> s4).
  assert (O5 : s5 !! out = Some (mul_val R T)).
  { subst s5. apply list_lookup_insert_eq. rewrite L4, L2. lia. }
  assert (K5 : s5 !! lookAtMatrix this = Some look).
  { subst s5. rewrite list_lookup_insert_ne by exact Hne.
    rewrite K4 by exact Llook. exact Hlook. }
  assert (N5 : lookAtMatrix this <> out) by congruence.
  rewrite (mat4_multiply_run out out (lookAtMatrix this) s5 (mul_val R T) O5
             eq_refl N5).
  rewrite O5, K5. cbn [default snd]. unfold id.
  apply list_lookup_insert_eq. subst s5. rewrite length_insert, L4, L2. lia.
Qed.

(** The camera of the examples, put at (1, 0, 0) by [setWorldPos]. *)
Lemma getViewMatrix_is_product_witness :
  let s := snd (setWorldPos example_camera one zero zero example_state) in
  snd (getViewMatrix example_camera 2 s) !! 2%nat
  = Some (mul_val (mul_val (fromQuat_val [zero; zero; zero; one])
                           (fromTranslation_val [one; zero; zero]))
                  example_lookAt).
Proof.
  cbn zeta.
  apply (getViewMatrix_is_product example_camera 2%nat _ _ _ _ identity16).
  - reflexivity.
  - reflexivity.
  - rewrite <- example_lookAt_built. reflexivity.
  - reflexivity.
  - reflexivity.
  - rewrite example_camera_fields. cbn. lia.
Defined.

End CameraMore.

(* ===================================================================== *)
(** * More on Texture                                                     *)
(* ===================================================================== *)

Module TextureMore.

Import Texture TextureSpec.

Section Cubemap.

Variables negX negY negZ posX posY posZ : string.


(** X20.  The state after the events depends only on which of the six
    images have loaded: two sequences of events with the same loaded
    images, in any order, with any repetitions and any [error] events,
    leave the same promises, the same calls on the context and the same
    log. *)
Theorem cubemap_order_of_events_irrelevant :
  forall es es' : list event,
    (forall k, (k < 6)%nat -> (Load k ∈ es <-> Load k ∈ es')) ->
    run (cubemapFromUrl negX negY negZ posX posY posZ) es
    = run (cubemapFromUrl negX negY negZ posX posY posZ) es'.
Proof.
  intros es es' Hsame. rewrite cubemap_start.
  assert (Hl : forall k, (k < 6)%nat -> loaded es k = loaded es' k).
  { intros k Hk. unfold loaded. apply bool_decide_ext. apply Hsame. exact Hk. }
  assert (Himg : images (run (start (face_images negX negY negZ posX posY posZ)) es)
                 = images (run (start (face_images negX negY negZ posX posY posZ)) es')).
  { rewrite !images_run by apply face_images_from. unfold after.
    apply list_eq. intros i. rewrite !list_lookup_imap.
    destruct ((face_images negX negY negZ posX posY posZ) !! i) as [img|] eqn:Hi;
      [|reflexivity].
    apply lookup_lt_Some in Hi.
    change (length (face_images negX negY negZ posX posY posZ)) with 6%nat in Hi.
    cbn. rewrite (Hl i Hi). reflexivity. }
  assert (Hall : all_loaded 6 es = all_loaded 6 es').
  { destruct (all_loaded 6 es) eqn:E1, (all_loaded 6 es') eqn:E2; try reflexivity.
    - pose proof (proj1 (all_loaded_6 es) E1) as A1.
      assert (all_loaded 6 es' = true); [|congruence].
      apply all_loaded_6. intros k Hk. apply Hsame; [exact Hk|]. apply A1, Hk.
    - pose proof (proj1 (all_loaded_6 es') E2) as A2.
      assert (all_loaded 6 es = true); [|congruence].
      apply all_loaded_6. intros k Hk. apply Hsame; [exact Hk|]. apply A2, Hk. }
  pose proof (state_run (face_images negX negY negZ posX posY posZ) es
                (face_images_from _ _ _ _ _ _)) as H.
  pose proof (state_run (face_images negX negY negZ posX posY posZ) es'
                (face_images_from _ _ _ _ _ _)) as H'.
  cbn zeta in H, H'.
  specialize (H ltac:(discriminate)). specialize (H' ltac:(discriminate)).
  change (length (face_images negX negY negZ posX posY posZ)) with 6%nat in H, H'.
  rewrite <- Hall in H'.
  destruct (run (start (face_images negX negY negZ posX posY posZ)) es) as [i r g l].
  destruct (run (start (face_images negX negY negZ posX posY posZ)) es') as [i' r' g' l'].
  cbn [images result glcalls logged] in *. subst i'.
  destruct (all_loaded 6 es); destruct H as (-> & -> & ->), H' as (-> & -> & ->);
    reflexivity.
Qed.

End Cubemap.

Lemma all_load_loads_all : forall k, (k < 6)%nat -> Load k ∈ all_load.
Proof.
  intros k Hk. unfold all_load.
  do 6 (destruct k as [|k]; [repeat constructor|]). lia.
Qed.


(** The six loads in the order of the faces, each told twice. *)
Definition loads_in_order : list event :=
  [Load 0; Load 0; Load 1; Load 1; Load 2; Load 2;
   Load 3; Load 3; Load 4; Load 4; Load 5; Load 5].

Lemma cubemap_order_of_events_irrelevant_witness :
  run (cubemapFromUrl "nx" "ny" "nz" "px" "py" "pz") all_load
  = run (cubemapFromUrl "nx" "ny" "nz" "px" "py" "pz") loads_in_order.
Proof.
  apply (cubemap_order_of_events_irrelevant "nx" "ny" "nz" "px" "py" "pz").
  intros k Hk. split; intros _.
  - unfold loads_in_order.
    do 6 (destruct k as [|k]; [repeat constructor|]). lia.
  - apply all_load_loads_all. exact Hk.
Defined.

End TextureMore.

(* ===================================================================== *)
(** * Texture.bind                                                       *)
(* ===================================================================== *)

Module TextureBindSpec.

Import Texture TextureSpec TextureMethods.

Lemma falsy_number (n : number) : truthy n = false <-> n = NaN \/ n = zero.
Proof.
  split.
  - destruct n as [| | |q]; cbn; try discriminate; auto.
    unfold qsign. destruct (q ?= 0)%Qc eqn:Hq; try discriminate.
    intros _. right. apply Qceq_alt in Hq. subst q. reflexivity.
  - intros [-> | ->]; reflexivity.
Qed.

(** X21.  [bind] makes two calls, [activeTexture] and then
    [bindTexture] with the type of the texture, which is 0 for a texture
    fresh from the constructor.  The unit activated is TEXTURE0 exactly
    when the argument is left out, is 0, is NaN or is TEXTURE0 itself;
    any other number is handed on as it is, so that the index 0 selects
    the first unit and the index 1 does not select the second. *)
Theorem bind_defaults_to_TEXTURE0 :
  forall (this : t) (number : option number),
    exists u,
      bind this number = [ActiveTexture u; BindTextureAs (textureType this)] /\
      (u = TEXTURE0 <->
       number = None \/ number = Some NaN \/ number = Some zero \/
       number = Some TEXTURE0) /\
      (u <> TEXTURE0 -> number = Some u) /\
      bind constructor number = [ActiveTexture u; BindTextureAs None].
Proof.
  intros this number. unfold bind, constructor. cbn [textureType].
  destruct number as [n|].
  - destruct (truthy n) eqn:Hn.
    + exists n. split; [reflexivity|]. split; [|split; reflexivity].
      split.
      * intros ->. auto.
      * intros [H|[H|[H|H]]]; try discriminate; injection H as ->;
          try discriminate Hn. reflexivity.
    + exists TEXTURE0. split; [reflexivity|]. split; [|split; [congruence|reflexivity]].
      split; [|reflexivity]. intros _.
      apply falsy_number in Hn as [-> | ->]; auto.
  - exists TEXTURE0. split; [reflexivity|]. split; [|split; [congruence|reflexivity]].
    split; auto.
Qed.

End TextureBindSpec.

(* ===================================================================== *)
(** * More on Shader                                                      *)
(* ===================================================================== *)

Module ShaderMore.

Import Shader ShaderSpec StringFacts.
Local Open Scope string_scope.

Section Host.

Variable getElementById : string -> option (list node).
Variable compile_status : glShader -> bool.
Variable link_status : glProgram -> bool.
Variable shaderInfoLog : glShader -> string.
Variable programInfoLog : glProgram -> string.

(** ** loadDOMScriptSource *)

(** The text of a node, when it is a text node. *)
Definition text_of (n : node) : string :=
  if (nodeType n =? 3)%Z then textContent n else "".

Lemma source_fold (acc : string) (childNodes : list node) :
  foldl (fun source n =>
           if (nodeType n =? 3)%Z then (source ++ textContent n)%string else source)
        acc childNodes
  = acc ++ String.concat "" (map text_of childNodes).
Proof.
  revert acc. induction childNodes as [|n ns IH]; intros acc; cbn [foldl map].
  - symmetry. apply append_nil_r.
  - rewrite IH. unfold text_of at 2.
    assert (Hc : forall t, String.concat "" (t :: map text_of ns)
                           = t ++ String.concat "" (map text_of ns)).
    { intros t. cbn [String.concat]. destruct (map text_of ns); [|reflexivity].
      symmetry. apply append_nil_r. }
    rewrite Hc. destruct (nodeType n =? 3)%Z.
    + apply append_assoc.
    + reflexivity.
Qed.

(** X22.  [loadDOMScriptSource] returns the texts of the text nodes
    among the children of the element, joined in the order of the
    document; a child of another kind (a comment, an element)
    contributes nothing, and so does the way the text is cut into
    nodes.  For an id that no element has, it throws. *)
Theorem loadDOMScriptSource_joins_text_nodes :
  forall elemName : string,
    match getElementById elemName with
    | Some childNodes =>
        loadDOMScriptSource getElementById elemName
        = Returns (String.concat "" (map text_of childNodes))
    | None => loadDOMScriptSource getElementById elemName = Throws
    end.
Proof.
  intros elemName. unfold loadDOMScriptSource.
  destruct (getElementById elemName) as [childNodes|]; [|reflexivity].
  rewrite source_fold. reflexivity.
Qed.

(** ** fromDOM *)

(** The alerts among the reports. *)
Definition alerts (out : list report) : list string :=
  omap (fun r => match r with Alert msg => Some msg | ConsoleLog _ => None end) out.

(** X23.  When both elements exist, [fromDOM] compiles both shaders,
    whether or not the first compiled, and links only if both did.  It
    returns null exactly when one of the two does not compile, and a
    Shader whose program is the linked program exactly when everything
    succeeded; it reports nothing exactly in that case; and it alerts
    once for each stage that failed, in the order vertex, fragment,
    link. *)
Theorem fromDOM_outcomes :
  forall (vertElem fragElem vsrc fsrc : string),
    loadDOMScriptSource getElementById vertElem = Returns vsrc ->
    loadDOMScriptSource getElementById fragElem = Returns fsrc ->
    let v := mkGlShader VERTEX_SHADER vsrc in
    let f := mkGlShader FRAGMENT_SHADER fsrc in
    let p := mkGlProgram v f in
    let r := fromDOM getElementById compile_status link_status
                     shaderInfoLog programInfoLog vertElem fragElem in
    (fst r = Returns None <-> compile_status v = false \/ compile_status f = false) /\
    (fst r = Returns (Some (mkShader (Some p)))
     <-> compile_status v = true /\ compile_status f = true /\ link_status p = true) /\
    (snd r = [] <-> fst r = Returns (Some (mkShader (Some p)))) /\
    alerts (snd r)
    = ((if compile_status v then [] else ["Failed to compile vertex shader!"]) ++
       (if compile_status f then [] else ["Failed to compile fragment shader!"]) ++
       (if compile_status v && compile_status f && negb (link_status p)
        then ["Failed to link shader!"] else []))%list.
Proof.
  intros vertElem fragElem vsrc fsrc Hv Hf v f p r. subst r.
  unfold fromDOM, compileShader, linkShaderProgram. rewrite Hv, Hf.
  fold v f. destruct (compile_status v), (compile_status f); cbn [negb];
    [fold p; destruct (link_status p)|..]; cbn;
    repeat split; try congruence; try tauto; try discriminate;
    try (intros [H|H]; discriminate); try (intros (H1 & H2 & H3); discriminate);
    auto.
Qed.

(** X24.  [fromDOM] throws exactly when one of the two ids names no
    element: it reads the children of null.  A missing vertex element
    stops it before anything is compiled or reported; a missing
    fragment element stops it after the vertex shader was compiled, and
    after the alert and the log if that did not compile. *)
Theorem fromDOM_throws_on_missing_element :
  forall (vertElem fragElem : string),
    let r := fromDOM getElementById compile_status link_status
                     shaderInfoLog programInfoLog vertElem fragElem in
    (fst r = Throws
     <-> getElementById vertElem = None \/ getElementById fragElem = None) /\
    (getElementById vertElem = None -> snd r = []) /\
    (forall vsrc,
       loadDOMScriptSource getElementById vertElem = Returns vsrc ->
       getElementById fragElem = None ->
       snd r = snd (compileShader compile_status shaderInfoLog vsrc VERTEX_SHADER)).
Proof.
  intros vertElem fragElem r. subst r.
  unfold fromDOM, loadDOMScriptSource.
  destruct (getElementById vertElem) as [vn|], (getElementById fragElem) as [fn|];
    cbn [fst snd].
  - repeat match goal with
           | |- context [compileShader ?a ?b ?c ?d] =>
               destruct (compileShader a b c d) as [[?|] ?]
           | |- context [linkShaderProgram ?a ?b ?c ?d] =>
               destruct (linkShaderProgram a b c d) as [? ?]
           end; cbn [fst snd];
      (split; [split; [discriminate|intros [H|H]; discriminate]|]);
      (split; [discriminate|intros ? ? H; discriminate]).
  - destruct (compileShader _ _ _ _) as [vs out1] eqn:Hc. cbn [fst snd].
    split; [split; [intros _; right; reflexivity|reflexivity]|].
    split; [discriminate|]. intros vsrc [= <-] _. rewrite Hc. reflexivity.
  - split; [split; [intros _; left; reflexivity|reflexivity]|].
    split; [reflexivity|]. intros ? H; discriminate.
  - split; [split; [intros _; left; reflexivity|reflexivity]|].
    split; [reflexivity|]. intros ? H; discriminate.
Qed.

End Host.

(** The page of two scripts, on a context where the vertex shader
    compiles and the fragment shader does not. *)
Lemma fromDOM_outcomes_witness :
  fst (fromDOM page (fun s => match sh_type s with VERTEX_SHADER => true | _ => false end)
         (fun _ => true) (fun _ => "") (fun _ => "") "vs" "fs")
  = Returns None.
Proof.
  destruct (fromDOM_outcomes page
              (fun s => match sh_type s with VERTEX_SHADER => true | _ => false end)
              (fun _ => true) (fun _ => "") (fun _ => "") "vs" "fs" _ _
              eq_refl eq_refl) as (H & _).
  apply H. right. reflexivity.
Defined.

End ShaderMore.

(* ===================================================================== *)
(** * The properties that a Shader object gains                          *)
(* ===================================================================== *)

Module ShaderObjectSpec.

Import Shader ShaderObject.
Local Open Scope string_scope.

Section Host.

Variable value : Type.
Variable getUniformLocation : option glProgram -> string -> outcome (option nat).
Variable getAttribLocation : option glProgram -> string -> outcome Z.
Variable gl_has : string -> bool.

Abbreviation enable' := (enable value getUniformLocation getAttribLocation).
Abbreviation assign' := (assign value gl_has).

(** Enabling a name leaves the property of every other name alone. *)
Lemma enable_other (this : object) (e : enabling) (name : string) :
  enabled_name e <> name -> enable' this e !! name = this !! name.
Proof.
  intros Hne. destruct e as [n f|n bt c ty]; cbn [enable enabled_name] in *.
  - unfold enableUniform. destruct (has_method this "enableUniform"); [|reflexivity].
    destruct (getUniformLocation _ _); [|reflexivity].
    cbn [fst]. apply lookup_insert_ne. exact Hne.
  - unfold enableAttribute. destruct (has_method this "enableAttribute"); [|reflexivity].
    destruct (getAttribLocation _ _); [|reflexivity].
    cbn [fst]. apply lookup_insert_ne. exact Hne.
Qed.

Lemma enable_others (this : object) (es : list enabling) (name : string) :
  Forall (fun e => enabled_name e <> name) es ->
  foldl enable' this es !! name = this !! name.
Proof.
  intros H. revert this. induction H as [|e es He Hes IH]; intros this; cbn [foldl].
  - reflexivity.
  - rewrite IH. apply enable_other. exact He.
Qed.

(** X25.  After [enableUniform(name, f)] has returned, assigning to the
    property [name] calls the method of the context that has the name of
    [f], with the location that was looked up when the uniform was
    enabled, then [false] if the name of [f] begins with uniformMatrix,
    then the value; it makes no other call, and throws when the context
    has no method of that name.  This stays so whatever uniforms and
    attributes of other names are enabled afterwards; enabling the same
    name again replaces the method and the location. *)
Theorem uniform_property_calls_its_function :
  forall (this : object) (name accessFunc : string) (uniformLocation : option nat),
    has_method this "enableUniform" = true ->
    getUniformLocation (get_program this) name = Returns uniformLocation ->
    let this1 := enable' this (EnableUniform name accessFunc) in
    let call val :=
      if gl_has accessFunc then
        ([Uniform value accessFunc uniformLocation
            (if String.prefix "uniformMatrix" accessFunc then Some false else None)
            val], Returned)
      else ([], Threw) in
    (forall (es : list enabling) (val : value),
       Forall (fun e => enabled_name e <> name) es ->
       assign' (foldl enable' this1 es) name val = Some (call val)) /\
    (forall (accessFunc2 : string) (uniformLocation2 : option nat) (val : value),
       has_method this1 "enableUniform" = true ->
       getUniformLocation (get_program this1) name = Returns uniformLocation2 ->
       assign' (enable' this1 (EnableUniform name accessFunc2)) name val
       = Some (if gl_has accessFunc2 then
                 ([Uniform value accessFunc2 uniformLocation2
                     (if String.prefix "uniformMatrix" accessFunc2 then Some false
                      else None)
                     val], Returned)
               else ([], Threw))).
Proof.
  intros this name f loc Hm Hloc this1 call.
  assert (H1 : this1 !! name = Some (UniformSetter loc f)).
  { subst this1. cbn [enable]. unfold enableUniform. rewrite Hm, Hloc.
    cbn [fst]. apply lookup_insert_eq. }
  split.
  - intros es val Hes. unfold assign. rewrite (enable_others _ es name Hes), H1.
    reflexivity.
  - intros f2 loc2 val Hm2 Hloc2. unfold assign. cbn [enable].
    unfold enableUniform. rewrite Hm2, Hloc2. cbn [fst].
    rewrite lookup_insert_eq. reflexivity.
Qed.

(** X26.  After [enableAttribute(name, bufferType, components, type)]
    has returned, assigning a buffer to the property [name] binds the
    buffer to [bufferType], points the attribute at it with the
    components and the type given (not normalised, stride 0, offset 0),
    and enables the attribute array: three calls, in this order, with
    the location that was looked up when the attribute was enabled.
    This stays so whatever is enabled under other names afterwards. *)
Theorem attribute_property_binds_and_points :
  forall (this : object) (name : string) (bufferType components type attribLocation : Z),
    has_method this "enableAttribute" = true ->
    getAttribLocation (get_program this) name = Returns attribLocation ->
    let this1 := enable' this (EnableAttribute name bufferType components type) in
    forall (es : list enabling) (val : value),
      Forall (fun e => enabled_name e <> name) es ->
      assign' (foldl enable' this1 es) name val
      = Some ([BindBuffer value bufferType val;
               VertexAttribPointer value attribLocation components type;
               EnableVertexAttribArray value attribLocation], Returned).
Proof.
  intros this name bt comps ty loc Hm Hloc this1 es val Hes.
  assert (H1 : this1 !! name = Some (AttributeSetter loc bt comps ty)).
  { subst this1. cbn [enable]. unfold enableAttribute. rewrite Hm, Hloc.
    cbn [fst]. apply lookup_insert_eq. }
  unfold assign. rewrite (enable_others _ es name Hes), H1. reflexivity.
Qed.

(** X27.  A uniform or an attribute that has the name of a member hides
    it.  Enabling the name "program" replaces the field by an accessor
    without getter: from then on [this.program] is undefined, [use]
    hands undefined to [useProgram] and every location is asked of
    undefined.  Enabling the name "use" makes [use] throw, and enabling
    the name "enableUniform" makes every later [enableUniform] throw
    before it asks the context anything. *)
Theorem property_named_like_a_member :
  forall (this : object) (accessFunc : string) (uniformLocation : option nat),
    has_method this "enableUniform" = true ->
    (getUniformLocation (get_program this) "program" = Returns uniformLocation ->
     let this1 := enable' this (EnableUniform "program" accessFunc) in
     get_program this1 = None /\
     (has_method this "use" = true ->
      use value this1 = ([UseProgram value None], Returned)) /\
     (forall name f,
        (enableUniform value getUniformLocation this1 name f).1.2
        = [GetUniformLocation value None name])) /\
    (getUniformLocation (get_program this) "use" = Returns uniformLocation ->
     use value (enable' this (EnableUniform "use" accessFunc)) = ([], Threw)) /\
    (getUniformLocation (get_program this) "enableUniform" = Returns uniformLocation ->
     forall name f,
       let this1 := enable' this (EnableUniform "enableUniform" accessFunc) in
       enableUniform value getUniformLocation this1 name f = (this1, [], Threw)).
Proof.
  intros this f loc Hm. split; [|split].
  - intros Hloc this1.
    assert (H1 : this1 !! "program" = Some (UniformSetter loc f)).
    { subst this1. cbn [enable]. unfold enableUniform. rewrite Hm, Hloc.
      cbn [fst]. apply lookup_insert_eq. }
    assert (Hp : get_program this1 = None) by (unfold get_program; rewrite H1; reflexivity).
    assert (Hother : forall m, m <> "program" -> has_method this1 m = has_method this m).
    { intros m Hne. unfold has_method. subst this1. cbn [enable].
      unfold enableUniform. rewrite Hm, Hloc. cbn [fst].
      rewrite lookup_insert_ne by congruence. reflexivity. }
    split; [exact Hp|]. split.
    + intros Hu. unfold use. rewrite Hother by discriminate. rewrite Hu, Hp. reflexivity.
    + intros name g. unfold enableUniform. rewrite Hother by discriminate.
      rewrite Hm, Hp. destruct (getUniformLocation None name); reflexivity.
  - intros Hloc. unfold use, has_method. cbn [enable]. unfold enableUniform.
    rewrite Hm, Hloc. cbn [fst]. rewrite lookup_insert_eq. reflexivity.
  - intros Hloc name g this1.
    unfold enableUniform at 1. unfold has_method. subst this1. cbn [enable].
    unfold enableUniform. rewrite Hm, Hloc. cbn [fst].
    rewrite lookup_insert_eq. reflexivity.
Qed.

End Host.

(** A context for the examples: every uniform is at location 7, every
    attribute at location 2, and [gl] has every method. *)
Definition example_program : glProgram :=
  mkGlProgram (mkGlShader VERTEX_SHADER "") (mkGlShader FRAGMENT_SHADER "").

Definition example_shader : object := constructor (Some example_program).

Lemma uniform_property_calls_its_function_witness :
  assign nat (fun _ => true)
    (foldl (enable nat (fun _ _ => Returns (Some 7%nat)) (fun _ _ => Returns 2))
       (enable nat (fun _ _ => Returns (Some 7%nat)) (fun _ _ => Returns 2)
          example_shader (EnableUniform "uMVMatrix" "uniformMatrix4fv"))
       [EnableUniform "uColor" "uniform3fv"; EnableAttribute "aPosition" 34962 3 5126])
    "uMVMatrix" 42%nat
  = Some ([Uniform nat "uniformMatrix4fv" (Some 7%nat) (Some false) 42%nat], Returned).
Proof.
  destruct (uniform_property_calls_its_function nat
              (fun _ _ => Returns (Some 7%nat)) (fun _ _ => Returns 2) (fun _ => true)
              example_shader "uMVMatrix" "uniformMatrix4fv" (Some 7%nat)
              eq_refl eq_refl) as [H _].
  apply H. repeat constructor; discriminate.
Defined.

Lemma attribute_property_binds_and_points_witness :
  assign nat (fun _ => true)
    (foldl (enable nat (fun _ _ => Returns (Some 7%nat)) (fun _ _ => Returns 2))
       (enable nat (fun _ _ => Returns (Some 7%nat)) (fun _ _ => Returns 2)
          example_shader (EnableAttribute "aPosition" 34962 3 5126))
       [EnableUniform "uColor" "uniform3fv"])
    "aPosition" 42%nat
  = Some ([BindBuffer nat 34962 42%nat; VertexAttribPointer nat 2 3 5126;
           EnableVertexAttribArray nat 2], Returned).
Proof.
  apply (attribute_property_binds_and_points nat
           (fun _ _ => Returns (Some 7%nat)) (fun _ _ => Returns 2) (fun _ => true)
           example_shader "aPosition" 34962 3 5126 2 eq_refl eq_refl).
  repeat constructor; discriminate.
Defined.

Lemma property_named_like_a_member_witness :
  use nat (enable nat (fun _ _ => Returns (Some 7%nat)) (fun _ _ => Returns 2)
             example_shader (EnableUniform "program" "uniform1i"))
  = ([UseProgram nat None], Returned).
Proof.
  destruct (property_named_like_a_member nat
              (fun _ _ => Returns (Some 7%nat)) (fun _ _ => Returns 2)
              example_shader "uniform1i" (Some 7%nat) eq_refl) as (H & _).
  destruct (H eq_refl) as (_ & Hu & _). apply Hu. reflexivity.
Defined.

End ShaderObjectSpec.
